(** * The sorting suite of rosetta-ruchy (C implementations)

    A shallow embedding of the seven sort operations found under
    [examples/algorithms/*/implementations/c]:

    - [quicksort_inplace], [quicksort_functional], [quicksort_three_way]
      (002-quicksort/implementations/c/quicksort.c),
    - [mergesort] (003-mergesort/implementations/c/mergesort.c),
    - [heap_sort] (018-heap-sort/implementations/c/heap_sort.c),
    - [radix_sort] (019-radix-sort/implementations/c/radix_sort.c),
    - [counting_sort] (021-counting-sort/implementations/c/counting_sort.c).

    Conventions of the embedding.

    - A C array [int arr[]] that a function sorts in place is a [list]
      threaded through the function: [arr[i]] is [arr !!! i] and
      [arr[i] = v] is [<[i:=v]> arr].
    - Array indices and sizes are C [int]s, modelled as [nat].  Those the
      source obtains by [+ 1], [- 1] or halving stay within the array size.
      Where the source computes [k - 1] on an index, a guard of the source
      makes [k] positive, so the truncated subtraction of [nat] is exact.
      The child indices [2 * i + 1] and [2 * i + 2] of [heapify] can exceed
      [INT_MAX]: the run has no result then ([int_index]).
    - Array elements are C [int]s, modelled as [Z].  The comparison sorts
      only compare them.  Radix sort and counting sort compute with them:
      an [exp *= RADIX] that exceeds [INT_MAX] leaves the run of
      [radix_sort] without a result ([int_value]); the [max + 1] that
      [counting_sort] passes to [calloc] is written with the 32-bit two's
      complement wrap-around ([wrap32]).
    - [for] loops over an index range are folds over that range
      ([for_up], [for_down]); [while] loops and recursive functions take a
      fuel argument and return [None] when it runs out, so that a result
      [Some _] is a result the C function returns.
    - [malloc] and [calloc] may fail: allocating functions consult an
      oracle [ok : nat → bool] that tells whether the n-th allocation of the
      run succeeds, and thread the allocation counter.
    - The stable sorts are stated over elements of any type [A] that carry an
      [int] key ([key : A → Z]) the code compares; the C program is the
      instance [A := Z], [key := id].  This is what allows to tag the
      elements with their input position and to state stability. *)

From stdpp Require Import base option list sorting numbers gmap.
From Stdlib Require Import ZArith Lia.

Set Default Proof Using "Type*".

(** * Loops *)

Section Loops.
Context {St : Type}.

(** [for (j = lo; j < hi; j++) s = body s j] *)
Definition for_up (lo hi : nat) (body : St → nat → St) (s : St) : St :=
  foldl body s (seq lo (hi - lo)).

(** [for (j = hi - 1; j >= lo; j--) s = body s j] *)
Definition for_down (hi lo : nat) (body : St → nat → St) (s : St) : St :=
  foldl body s (reverse (seq lo (hi - lo))).

(** [for (j = hi - 1; j >= lo; j--)] with a body that may fail. *)
Definition for_downM (hi lo : nat) (body : St → nat → option St) (s : St)
  : option St :=
  foldl (λ acc j, s ← acc; body s j) (Some s) (reverse (seq lo (hi - lo))).

(** [while (cond s) s = body s] *)
Fixpoint while (fuel : nat) (cond : St → bool) (body : St → St) (s : St)
  : option St :=
  if cond s then
    match fuel with
    | O => None
    | S fuel => while fuel cond body (body s)
    end
  else Some s.

(** [while (cond s) s = body s] with a body that may fail. *)
Fixpoint whileM (fuel : nat) (cond : St → bool) (body : St → option St) (s : St)
  : option St :=
  if cond s then
    match fuel with
    | O => None
    | S fuel => s ← body s; whileM fuel cond body s
    end
  else Some s.

Lemma for_up_rule (I : nat → St → Prop) lo hi body s :
  lo ≤ hi →
  I lo s →
  (∀ j s, lo ≤ j < hi → I j s → I (S j) (body s j)) →
  I hi (for_up lo hi body s).
Proof.
  intros Hle H0 Hstep. unfold for_up.
  assert (Hgen : ∀ n, lo + n ≤ hi → I (lo + n) (foldl body s (seq lo n))).
  { induction n as [|n IH]; intros Hn.
    - simpl. by rewrite Nat.add_0_r.
    - rewrite seq_S, foldl_snoc. replace (lo + S n) with (S (lo + n)) by lia.
      apply Hstep; [lia|]. apply IH. lia. }
  specialize (Hgen (hi - lo)). replace (lo + (hi - lo)) with hi in Hgen by lia.
  apply Hgen. lia.
Qed.

Lemma for_down_rule (I : nat → St → Prop) hi lo body s :
  lo ≤ hi →
  I hi s →
  (∀ j s, lo ≤ j < hi → I (S j) s → I j (body s j)) →
  I lo (for_down hi lo body s).
Proof.
  intros Hle H0 Hstep. unfold for_down.
  assert (Hgen : ∀ n k, k + n = hi → lo ≤ k →
            ∀ s, I hi s → I k (foldl body s (reverse (seq k n)))).
  { induction n as [|n IH]; intros k Hk Hlo s' Hs'.
    - simpl. by replace k with hi by lia.
    - simpl. rewrite reverse_cons, foldl_snoc.
      apply Hstep; [lia|]. apply IH; [lia|lia|done]. }
  apply (Hgen (hi - lo) lo); [lia|lia|done].
Qed.

Lemma for_downM_rule (I : nat → St → Prop) hi lo body s :
  lo ≤ hi →
  I hi s →
  (∀ j s, lo ≤ j < hi → I (S j) s → ∃ s', body s j = Some s' ∧ I j s') →
  ∃ s', for_downM hi lo body s = Some s' ∧ I lo s'.
Proof.
  intros Hle H0 Hstep. unfold for_downM.
  assert (Hgen : ∀ n k, k + n = hi → lo ≤ k →
            ∃ s', foldl (λ acc j, s ← acc; body s j) (Some s)
                    (reverse (seq k n)) = Some s' ∧ I k s').
  { induction n as [|n IH]; intros k Hk Hlo.
    - simpl. exists s. split; [done|]. by replace k with hi by lia.
    - simpl. rewrite reverse_cons, foldl_snoc.
      destruct (IH (S k)) as (s1 & -> & Hs1); [lia|lia|].
      simpl. apply Hstep; [lia|done]. }
  apply (Hgen (hi - lo) lo); lia.
Qed.

(** Total correctness of a [while] loop from an invariant and a variant. *)
Lemma while_rule (I : St → Prop) (m : St → nat) cond body fuel s :
  I s →
  m s ≤ fuel →
  (∀ s, I s → cond s = true → I (body s) ∧ m (body s) < m s) →
  ∃ s', while fuel cond body s = Some s' ∧ I s' ∧ cond s' = false.
Proof.
  intros HI Hm Hstep. revert s HI Hm.
  induction fuel as [|fuel IH]; intros s HI Hm; simpl.
  - destruct (cond s) eqn:Hc; [|eauto].
    destruct (Hstep s HI Hc) as [_ ?]. lia.
  - destruct (cond s) eqn:Hc; [|eauto].
    destruct (Hstep s HI Hc) as [? ?]. apply IH; [done|lia].
Qed.

(** More fuel does not change the result of a loop that has returned. *)
Lemma while_fuel_mono fuel fuel' cond body s s' :
  while fuel cond body s = Some s' → fuel ≤ fuel' →
  while fuel' cond body s = Some s'.
Proof.
  revert fuel' s. induction fuel as [|fuel IH]; intros fuel' s; simpl.
  - destruct fuel'; simpl; destruct (cond s); try done.
  - destruct (cond s) eqn:Hc.
    + intros Hw Hle. destruct fuel' as [|fuel']; [lia|]. simpl. rewrite Hc.
      apply IH; [done|lia].
    + intros Hw _. destruct fuel'; simpl; by rewrite Hc.
Qed.
Lemma whileM_fuel_mono fuel fuel' cond body s s' :
  whileM fuel cond body s = Some s' → fuel ≤ fuel' →
  whileM fuel' cond body s = Some s'.
Proof.
  revert fuel' s. induction fuel as [|fuel IH]; intros fuel' s; simpl.
  - destruct fuel'; simpl; destruct (cond s); try done.
  - destruct (cond s) eqn:Hc.
    + intros Hw Hle. destruct fuel' as [|fuel']; [lia|]. simpl. rewrite Hc.
      destruct (body s) as [s1|]; [|done]. simpl in *. apply IH; [done|lia].
    + intros Hw _. destruct fuel'; simpl; by rewrite Hc.
Qed.
End Loops.

(** * Arrays: swapping, segments, framed permutations *)

Section Arrays.
Context {A : Type} `{!Inhabited A}.
Implicit Types arr l : list A.

(** [temp = arr[i]; arr[i] = arr[j]; arr[j] = temp;] *)
Definition swap (arr : list A) (i j : nat) : list A :=
  let temp := arr !!! i in
  <[j := temp]> (<[i := arr !!! j]> arr).

(** The elements at the indices [lo .. hi - 1]. *)
Definition seg (lo hi : nat) (l : list A) : list A := take (hi - lo) (drop lo l).

(** [out] differs from [arr] by a permutation of the indices
    [lo .. hi - 1]. *)
Definition frame_perm (lo hi : nat) (arr out : list A) : Prop :=
  length out = length arr ∧
  take lo out = take lo arr ∧
  drop hi out = drop hi arr ∧
  seg lo hi out ≡ₚ seg lo hi arr.

Lemma length_swap arr i j : length (swap arr i j) = length arr.
Proof. unfold swap. by rewrite !length_insert. Qed.

Lemma swap_lookup arr i j k :
  i < length arr → j < length arr →
  swap arr i j !!! k =
    if decide (k = j) then arr !!! i
    else if decide (k = i) then arr !!! j else arr !!! k.
Proof.
  intros Hi Hj. unfold swap.
  destruct (decide (k = j)) as [->|Hkj].
  - rewrite list_lookup_total_insert_eq; [done|by rewrite length_insert].
  - rewrite list_lookup_total_insert_ne by done.
    destruct (decide (k = i)) as [->|Hki].
    + by rewrite list_lookup_total_insert_eq.
    + by rewrite list_lookup_total_insert_ne.
Qed.

Lemma swap_same arr i : swap arr i i = arr.
Proof.
  unfold swap. destruct (decide (i < length arr)).
  - rewrite list_insert_insert_eq. apply list_insert_id.
    by apply list_lookup_lookup_total_lt.
  - rewrite !list_insert_ge; [done|lia|rewrite length_insert; lia].
Qed.

Lemma seg_length lo hi l : hi ≤ length l → length (seg lo hi l) = hi - lo.
Proof. intros. unfold seg. rewrite length_take, length_drop. lia. Qed.

Lemma seg_split lo mid hi l :
  lo ≤ mid → mid ≤ hi → seg lo hi l = seg lo mid l ++ seg mid hi l.
Proof.
  intros H1 H2. unfold seg.
  replace (hi - lo) with ((mid - lo) + (hi - mid)) by lia.
  rewrite <- take_take_drop. f_equal. rewrite drop_drop. do 2 f_equal. lia.
Qed.

Lemma seg_whole l : seg 0 (length l) l = l.
Proof. unfold seg. rewrite drop_0, Nat.sub_0_r. apply firstn_all. Qed.

Lemma seg_take lo l : seg 0 lo l = take lo l.
Proof. unfold seg. by rewrite drop_0, Nat.sub_0_r. Qed.

Lemma seg_drop lo l : seg lo (length l) l = drop lo l.
Proof. unfold seg. rewrite take_ge; [done|]. rewrite length_drop. lia. Qed.

Lemma seg_lookup lo hi l k :
  k < hi - lo → seg lo hi l !! k = l !! (lo + k).
Proof. intros. unfold seg. rewrite lookup_take_lt by done. apply lookup_drop. Qed.

Lemma seg_singleton lo l : lo < length l → seg lo (S lo) l = [l !!! lo].
Proof.
  intros. apply list_eq. intros k. destruct k as [|k].
  - rewrite seg_lookup by lia. rewrite Nat.add_0_r. simpl.
    by apply list_lookup_lookup_total_lt.
  - simpl. apply lookup_ge_None. rewrite seg_length; lia.
Qed.

Lemma elem_of_seg lo hi l x :
  hi ≤ length l →
  x ∈ seg lo hi l ↔ ∃ k, lo ≤ k < hi ∧ l !!! k = x.
Proof.
  intros Hhi. rewrite list_elem_of_lookup. split.
  - intros [k Hk]. assert (k < hi - lo).
    { apply lookup_lt_Some in Hk. rewrite seg_length in Hk; lia. }
    rewrite seg_lookup in Hk by done. exists (lo + k). split; [lia|].
    by apply list_lookup_total_correct.
  - intros (k & Hk & <-). exists (k - lo). rewrite seg_lookup by lia.
    replace (lo + (k - lo)) with k by lia.
    apply list_lookup_lookup_total_lt. lia.
Qed.

Lemma seg_ext lo hi l l' :
  hi ≤ length l → hi ≤ length l' →
  (∀ k, lo ≤ k < hi → l' !!! k = l !!! k) → seg lo hi l' = seg lo hi l.
Proof.
  intros H1 H2 Hext. apply list_eq. intros k.
  destruct (decide (k < hi - lo)).
  - rewrite !seg_lookup by done.
    rewrite !list_lookup_lookup_total_lt by lia. f_equal. apply Hext. lia.
  - rewrite !(proj2 (lookup_ge_None _ _)); [done| |]; rewrite seg_length; lia.
Qed.

Lemma take_ext n l l' :
  n ≤ length l → n ≤ length l' →
  (∀ k, k < n → l' !!! k = l !!! k) → take n l' = take n l.
Proof.
  intros. rewrite <- !seg_take. apply seg_ext; [done..|].
  intros. apply H1. lia.
Qed.

Lemma drop_ext n l l' :
  length l' = length l →
  (∀ k, n ≤ k < length l → l' !!! k = l !!! k) → drop n l' = drop n l.
Proof.
  intros Hlen Hext. rewrite <- (seg_drop n l), <- (seg_drop n l'), Hlen.
  apply seg_ext; [lia..|]. done.
Qed.

Lemma frame_perm_refl lo hi arr : frame_perm lo hi arr arr.
Proof. by repeat split. Qed.

Lemma frame_perm_trans lo hi arr1 arr2 arr3 :
  frame_perm lo hi arr1 arr2 → frame_perm lo hi arr2 arr3 →
  frame_perm lo hi arr1 arr3.
Proof.
  intros (?&?&?&?) (?&?&?&?). repeat split; try congruence. by etrans.
Qed.

Lemma list_split3 lo hi l :
  lo ≤ hi → hi ≤ length l → l = take lo l ++ seg lo hi l ++ drop hi l.
Proof.
  intros H1 H2. rewrite <- (seg_take lo l), <- (seg_drop hi l).
  rewrite <- !seg_split by lia. by rewrite seg_whole.
Qed.

Lemma frame_perm_Permutation lo hi arr out :
  lo ≤ hi → hi ≤ length arr → frame_perm lo hi arr out → out ≡ₚ arr.
Proof.
  intros H1 H2 (Hlen & Ht & Hd & Hp).
  rewrite (list_split3 lo hi arr), (list_split3 lo hi out) by lia.
  by rewrite Ht, Hd, Hp.
Qed.

Lemma frame_perm_lookup lo hi arr out k :
  frame_perm lo hi arr out → k < lo ∨ hi ≤ k → out !!! k = arr !!! k.
Proof.
  intros (Hlen & Ht & Hd & Hp) [Hk|Hk].
  - rewrite !list_lookup_total_alt.
    rewrite <- (lookup_take_lt out lo k), <- (lookup_take_lt arr lo k) by done.
    by rewrite Ht.
  - rewrite !list_lookup_total_alt.
    replace k with (hi + (k - hi)) by lia.
    rewrite <- !lookup_drop. by rewrite Hd.
Qed.

Lemma frame_perm_widen lo hi lo' hi' arr out :
  lo' ≤ lo → lo ≤ hi → hi ≤ hi' → hi' ≤ length arr →
  frame_perm lo hi arr out → frame_perm lo' hi' arr out.
Proof.
  intros H1 H2 H3 H4 Hf. pose proof Hf as (Hlen & Ht & Hd & Hp).
  repeat split; [done|..].
  - apply take_ext; [lia..|]. intros.
    apply (frame_perm_lookup lo hi); [done|lia].
  - apply drop_ext; [lia|]. intros.
    apply (frame_perm_lookup lo hi); [done|lia].
  - rewrite (seg_split lo' lo hi'), (seg_split lo hi hi') by lia.
    rewrite (seg_split lo' lo hi' arr), (seg_split lo hi hi' arr) by lia.
    assert (seg lo' lo out = seg lo' lo arr) as ->.
    { apply seg_ext; [lia..|]. intros.
      apply (frame_perm_lookup lo hi); [done|lia]. }
    assert (seg hi hi' out = seg hi hi' arr) as ->.
    { apply seg_ext; [lia..|]. intros.
      apply (frame_perm_lookup lo hi); [done|lia]. }
    by rewrite Hp.
Qed.

Lemma swap_Permutation arr i j :
  i < length arr → j < length arr → swap arr i j ≡ₚ arr.
Proof.
  intros Hi Hj. unfold swap.
  apply Permutation_insert_swap; by apply list_lookup_lookup_total_lt.
Qed.

Lemma frame_perm_swap lo hi arr i j :
  lo ≤ i < hi → lo ≤ j < hi → hi ≤ length arr →
  frame_perm lo hi arr (swap arr i j).
Proof.
  intros Hi Hj Hhi.
  assert (Hlen := length_swap arr i j).
  assert (Hout : ∀ k, k < lo ∨ hi ≤ k → swap arr i j !!! k = arr !!! k).
  { intros k Hk. rewrite swap_lookup by lia. repeat case_decide; (done || lia). }
  assert (Ht : take lo (swap arr i j) = take lo arr).
  { apply take_ext; [lia..|]. intros. apply Hout. lia. }
  assert (Hd : drop hi (swap arr i j) = drop hi arr).
  { apply drop_ext; [lia|]. intros. apply Hout. lia. }
  repeat split; [done..|].
  pose proof (swap_Permutation arr i j ltac:(lia) ltac:(lia)) as Hp.
  rewrite (list_split3 lo hi arr) in Hp at 2 by lia.
  rewrite (list_split3 lo hi (swap arr i j)) in Hp by lia.
  rewrite Ht, Hd in Hp.
  apply Permutation_app_inv_l in Hp. by apply Permutation_app_inv_r in Hp.
Qed.
End Arrays.

Section ArraysMore.
Context {A : Type} `{!Inhabited A}.

Lemma frame_perm_Forall (P : A → Prop) lo hi (arr out : list A) :
  hi ≤ length arr →
  frame_perm lo hi arr out →
  (∀ k, lo ≤ k < hi → P (arr !!! k)) → ∀ k, lo ≤ k < hi → P (out !!! k).
Proof.
  intros Hhi (Hlen & _ & _ & Hp) HP k Hk.
  assert (out !!! k ∈ seg lo hi out) as Hin.
  { apply elem_of_seg; [lia|]. eauto. }
  rewrite Hp in Hin. apply elem_of_seg in Hin as (k' & Hk' & <-); [|done].
  by apply HP.
Qed.
End ArraysMore.

(** * Sortedness *)

(** [output[i] ≤ output[i+1]] for every valid index [i]. *)
Definition nondecreasing (l : list Z) : Prop :=
  ∀ i x y, l !! i = Some x → l !! (S i) = Some y → (x ≤ y)%Z.

(** The indices [lo .. hi - 1] of [arr] hold a non-decreasing run. *)
Definition sorted_range (lo hi : nat) (arr : list Z) : Prop :=
  ∀ i j, lo ≤ i → i ≤ j → j < hi → (arr !!! i ≤ arr !!! j)%Z.

Lemma nondecreasing_Sorted l : nondecreasing l ↔ Sorted Z.le l.
Proof.
  split.
  - induction l as [|x l IH]; intros Hl; [constructor|].
    constructor.
    + apply IH. intros i a b Ha Hb. by apply (Hl (S i) a b).
    + destruct l as [|y l]; constructor. by apply (Hl 0 x y).
  - induction 1 as [|x l Hs IH Hhd]; intros i a b Ha Hb; [done|].
    destruct i as [|i]; simpl in *.
    + simplify_eq. destruct l; simplify_eq/=. by inversion Hhd.
    + by apply (IH i a b).
Qed.

Lemma sorted_range_StronglySorted l :
  sorted_range 0 (length l) l ↔ StronglySorted Z.le l.
Proof.
  split.
  - induction l as [|x l IH]; intros Hl; [constructor|].
    constructor.
    + apply IH. intros i j Hi Hij Hj. apply (Hl (S i) (S j)); simpl; lia.
    + apply Forall_lookup. intros j y Hy.
      pose proof (lookup_lt_Some _ _ _ Hy).
      specialize (Hl 0 (S j)). simpl in Hl.
      rewrite (list_lookup_total_correct _ _ _ Hy) in Hl. apply Hl; lia.
  - induction 1 as [|x l Hs IH Hhd]; intros i j Hi Hij Hj; [simpl in *; lia|].
    destruct j as [|j].
    + assert (i = 0) as -> by lia. done.
    + destruct i as [|i]; simpl.
      * rewrite Forall_lookup in Hhd. apply (Hhd j).
        apply list_lookup_lookup_total_lt. simpl in Hj. lia.
      * apply IH; simpl in *; lia.
Qed.

Lemma sorted_range_nondecreasing l :
  sorted_range 0 (length l) l → nondecreasing l.
Proof.
  intros Hs. apply nondecreasing_Sorted, StronglySorted_Sorted.
  by apply sorted_range_StronglySorted.
Qed.

(** * In-place quicksort with Lomuto partition (quicksort.c) *)

Module Quicksort.

(** The body of the scan [for (int j = low; j < high; j++)] of
    [partition], on the state [(arr, i)]. *)
Definition partition_step (pivot : Z) (st : list Z * nat) (j : nat)
  : list Z * nat :=
  let '(arr, i) := st in
  if decide (arr !!! j ≤ pivot)%Z then (swap arr i j, S i) else (arr, i).

(** [int partition(int arr[], int low, int high)]: the array after the
    call and the returned index. *)
Definition partition (arr : list Z) (low high : nat) : list Z * nat :=
  let pivot := arr !!! high in
  let '(arr, i) := for_up low high (partition_step pivot) (arr, low) in
  (swap arr i high, i).

(** [void quicksort_range(int arr[], int low, int high)] *)
Fixpoint quicksort_range (fuel : nat) (arr : list Z) (low high : nat)
  : option (list Z) :=
  if decide (low < high) then
    match fuel with
    | O => None
    | S fuel =>
      let '(arr, pivot_index) := partition arr low high in
      arr ← (if decide (0 < pivot_index)
             then quicksort_range fuel arr low (pivot_index - 1)
             else Some arr);
      if decide (pivot_index + 1 ≤ high)
      then quicksort_range fuel arr (pivot_index + 1) high
      else Some arr
    end
  else Some arr.

(** [void quicksort_inplace(int arr[], int size)] *)
Definition quicksort_inplace (arr : list Z) (size : nat) : option (list Z) :=
  if decide (1 < size) then quicksort_range size arr 0 (size - 1)
  else Some arr.

Lemma partition_spec arr low high out p :
  low ≤ high → high < length arr →
  partition arr low high = (out, p) →
  low ≤ p ≤ high ∧
  frame_perm low (S high) arr out ∧
  out !!! p = arr !!! high ∧
  (∀ k, low ≤ k < p → (out !!! k ≤ out !!! p)%Z) ∧
  (∀ k, p < k ≤ high → (out !!! p < out !!! k)%Z).
Proof.
  intros Hlh Hhigh. unfold partition.
  set (pivot := arr !!! high).
  pose (I := λ (j : nat) (st : list Z * nat),
    let '(a, i) := st in
    low ≤ i ≤ j ∧ frame_perm low high arr a ∧
    (∀ k, low ≤ k < i → (a !!! k ≤ pivot)%Z) ∧
    (∀ k, i ≤ k < j → (pivot < a !!! k)%Z)).
  assert (I high (for_up low high (partition_step pivot) (arr, low))) as HI.
  { apply for_up_rule; [done| |].
    - simpl. split; [lia|]. split; [apply frame_perm_refl|]. split; intros; lia.
    - intros j [a i] Hj (Hi & Hf & Hle & Hgt). unfold partition_step.
      assert (length a = length arr) as Hlen by apply Hf.
      case_decide as Hcmp; simpl.
      + split; [lia|]. split.
        { eapply frame_perm_trans; [done|].
          apply frame_perm_swap; lia. }
        split; intros k Hk; rewrite swap_lookup by lia.
        * repeat case_decide; subst; try lia; try done.
          all: try (apply Hle; lia).
          by replace i with j by lia.
        * repeat case_decide; subst; try lia; apply Hgt; lia.
      + split; [lia|]. split; [done|]. split; [done|].
        intros k Hk. destruct (decide (k = j)) as [->|]; [lia|]. apply Hgt. lia. }
  destruct (for_up low high (partition_step pivot) (arr, low)) as [a i].
  destruct HI as (Hi & Hf & Hle & Hgt). intros [= <- <-].
  assert (length a = length arr) as Hlen by apply Hf.
  assert (a !!! high = pivot) as Hpiv.
  { apply (frame_perm_lookup low high); [done|lia]. }
  split; [lia|]. split.
  { eapply frame_perm_trans.
    - apply (frame_perm_widen low high low (S high)); [lia..|done].
    - apply frame_perm_swap; lia. }
  assert (swap a i high !!! i = pivot) as Hsi.
  { rewrite swap_lookup by lia. repeat case_decide; subst; done. }
  rewrite Hsi. split; [done|]. split; intros k Hk; rewrite swap_lookup by lia.
  - repeat case_decide; try lia. apply Hle. lia.
  - repeat case_decide; try lia; apply Hgt; lia.
Qed.

Lemma quicksort_range_spec fuel arr low high :
  low ≤ S high → high < length arr ∨ high ≤ low → S high - low ≤ S fuel →
  ∃ out, quicksort_range fuel arr low high = Some out ∧
         frame_perm low (S high) arr out ∧
         sorted_range low (S high) out.
Proof.
  revert arr low high. induction fuel as [|fuel IH]; intros arr low high Hlo Hhi Hfuel.
  - simpl. case_decide; [lia|]. exists arr. split; [done|].
    split; [apply frame_perm_refl|]. intros i j ???. by replace j with i by lia.
  - simpl. case_decide as Hlt.
    2:{ exists arr. split; [done|].
        split; [apply frame_perm_refl|]. intros i j ???. by replace j with i by lia. }
    destruct Hhi as [Hhi|]; [|lia].
    destruct (partition arr low high) as [arr1 p] eqn:Hpart.
    apply partition_spec in Hpart as (Hp & Hf1 & Hpiv & Hle & Hgt); [|lia..].
    assert (length arr1 = length arr) as Hlen1 by apply Hf1.
    (* left part *)
    assert (∃ arr2, (if decide (0 < p) then quicksort_range fuel arr1 low (p - 1)
                     else Some arr1) = Some arr2 ∧
              frame_perm low p arr1 arr2 ∧ sorted_range low p arr2)
      as (arr2 & -> & Hf2 & Hs2).
    { case_decide.
      - destruct (IH arr1 low (p - 1)) as (arr2 & ? & ? & ?); [lia..|].
        exists arr2. by replace (S (p - 1)) with p in * by lia.
      - exists arr1. split; [done|]. split; [apply frame_perm_refl|].
        intros i j ???. lia. }
    assert (length arr2 = length arr1) as Hlen2 by apply Hf2.
    simpl.
    assert (∃ arr3, (if decide (p + 1 ≤ high)
                     then quicksort_range fuel arr2 (p + 1) high
                     else Some arr2) = Some arr3 ∧
              frame_perm (S p) (S high) arr2 arr3 ∧
              sorted_range (S p) (S high) arr3)
      as (arr3 & -> & Hf3 & Hs3).
    { case_decide.
      - destruct (IH arr2 (p + 1) high) as (arr3 & ? & ? & ?); [lia..|].
        exists arr3. by replace (p + 1) with (S p) in * by lia.
      - exists arr2. split; [done|]. split; [apply frame_perm_refl|].
        intros i j ???. lia. }
    assert (length arr3 = length arr2) as Hlen3 by apply Hf3.
    exists arr3. split; [done|]. split.
    { eapply frame_perm_trans; [done|]. eapply frame_perm_trans.
      - apply (frame_perm_widen low p low (S high)); [lia..|done].
      - apply (frame_perm_widen (S p) (S high) low (S high)); [lia..|done]. }
    (* the three regions of the result *)
    assert (Hp2 : arr2 !!! p = arr1 !!! p).
    { apply (frame_perm_lookup low p); [done|lia]. }
    assert (Hp3 : arr3 !!! p = arr1 !!! p).
    { rewrite <- Hp2. apply (frame_perm_lookup (S p) (S high)); [done|lia]. }
    assert (Hl3 : ∀ k, low ≤ k < p → arr3 !!! k = arr2 !!! k).
    { intros. apply (frame_perm_lookup (S p) (S high)); [done|lia]. }
    assert (Hle2 : ∀ k, low ≤ k < p → (arr2 !!! k ≤ arr1 !!! p)%Z).
    { apply (frame_perm_Forall (λ x, (x ≤ arr1 !!! p)%Z) low p arr1); [lia|done|done]. }
    assert (Hgt3 : ∀ k, S p ≤ k < S high → (arr1 !!! p < arr3 !!! k)%Z).
    { apply (frame_perm_Forall (λ x, (arr1 !!! p < x)%Z) (S p) (S high) arr2);
        [lia|done|].
      intros k Hk. rewrite (frame_perm_lookup low p arr1 arr2) by (done || lia).
      apply Hgt. lia. }
    intros i j Hi Hij Hj.
    destruct (decide (j < p)).
    { rewrite !Hl3 by lia. apply Hs2; lia. }
    destruct (decide (j = p)) as [->|].
    { rewrite Hp3. destruct (decide (i = p)) as [->|]; [by rewrite Hp3|].
      rewrite Hl3 by lia. apply Hle2. lia. }
    destruct (decide (i < p)).
    { rewrite Hl3 by lia. specialize (Hle2 i). specialize (Hgt3 j). lia. }
    destruct (decide (i = p)) as [->|].
    { rewrite Hp3. specialize (Hgt3 j). lia. }
    apply Hs3; lia.
Qed.
End Quicksort.

(** * Three-way (Dutch-flag) quicksort (quicksort.c) *)

Module ThreeWay.

(** The loop [while (i <= gt)] of [three_way_partition_sort], on the state
    [(arr, lt, gt, i)]. *)
Definition scan_cond (st : list Z * nat * nat * nat) : bool :=
  let '(arr, lt, gt, i) := st in bool_decide (i ≤ gt).

Definition scan_body (pivot : Z) (st : list Z * nat * nat * nat)
  : list Z * nat * nat * nat :=
  let '(arr, lt, gt, i) := st in
  if decide (arr !!! i < pivot)%Z then (swap arr i lt, S lt, gt, S i)
  else if decide (arr !!! i > pivot)%Z then (swap arr i gt, lt, gt - 1, i)
  else (arr, lt, gt, S i).

(** What strictly decreases at each iteration of the scan: the number of
    unexamined elements [gt + 1 - i]. *)
Definition scan_measure (st : list Z * nat * nat * nat) : nat :=
  let '(arr, lt, gt, i) := st in S gt - i.

(** [void three_way_partition_sort(int arr[], int low, int high)] *)
Fixpoint three_way_partition_sort (fuel : nat) (arr : list Z) (low high : nat)
  : option (list Z) :=
  if decide (high ≤ low) then Some arr
  else
    match fuel with
    | O => None
    | S fuel =>
      let pivot := arr !!! low in
      '(arr, lt, gt, _) ←
        while (high - low) scan_cond (scan_body pivot) (arr, low, high, low + 1);
      arr ← (if decide (0 < lt)
             then three_way_partition_sort fuel arr low (lt - 1)
             else Some arr);
      three_way_partition_sort fuel arr (gt + 1) high
    end.

(** [void quicksort_three_way(int arr[], int size)] *)
Definition quicksort_three_way (arr : list Z) (size : nat) : option (list Z) :=
  if decide (size ≤ 1) then Some arr
  else three_way_partition_sort size arr 0 (size - 1).

(** Each iteration either advances [i] or lowers [gt]. *)
Lemma scan_body_progress pivot arr lt gt i :
  0 < i ≤ gt →
  ∃ arr', (scan_body pivot (arr, lt, gt, i) = (arr', S lt, gt, S i) ∨
           scan_body pivot (arr, lt, gt, i) = (arr', lt, gt - 1, i) ∨
           scan_body pivot (arr, lt, gt, i) = (arr', lt, gt, S i)) ∧
          scan_measure (scan_body pivot (arr, lt, gt, i)) <
          scan_measure (arr, lt, gt, i).
Proof.
  intros Hi. unfold scan_body. repeat case_decide; simpl; eexists; split; eauto; lia.
Qed.

Lemma scan_spec arr low high :
  low < high → high < length arr →
  ∃ out lt gt,
    while (high - low) scan_cond (scan_body (arr !!! low))
      (arr, low, high, low + 1) = Some (out, lt, gt, S gt) ∧
    low ≤ lt ≤ gt ∧ gt ≤ high ∧
    frame_perm low (S high) arr out ∧
    (∀ k, low ≤ k < lt → (out !!! k < arr !!! low)%Z) ∧
    (∀ k, lt ≤ k ≤ gt → out !!! k = arr !!! low) ∧
    (∀ k, gt < k ≤ high → (arr !!! low < out !!! k)%Z).
Proof.
  intros Hlh Hhigh. set (pivot := arr !!! low).
  pose (I := λ (st : list Z * nat * nat * nat),
    let '(a, lt, gt, i) := st in
    low ≤ lt ∧ lt < i ∧ i ≤ S gt ∧ gt ≤ high ∧
    frame_perm low (S high) arr a ∧
    (∀ k, low ≤ k < lt → (a !!! k < pivot)%Z) ∧
    (∀ k, lt ≤ k < i → a !!! k = pivot) ∧
    (∀ k, gt < k ≤ high → (pivot < a !!! k)%Z)).
  destruct (while_rule I scan_measure scan_cond (scan_body pivot)
              (high - low) (arr, low, high, low + 1))
    as ([[[out lt] gt] i] & Hw & HI & Hc).
  - simpl. repeat split; try lia; try apply frame_perm_refl.
    + intros. by replace k with low by lia.
  - simpl. lia.
  - intros [[[a lt] gt] i] (H1 & H2 & H3 & H4 & Hf & Hlt & Heq & Hgt) Hc.
    simpl in Hc. apply bool_decide_eq_true in Hc.
    assert (length a = length arr) as Hlen by apply Hf.
    split.
    2:{ destruct (scan_body_progress pivot a lt gt i) as (? & _ & ?); [lia|done]. }
    unfold scan_body. repeat case_decide; simpl.
    + split; [lia|]. split; [lia|]. split; [lia|]. split; [lia|]. split.
      { eapply frame_perm_trans; [done|]. apply frame_perm_swap; lia. }
      split; [|split]; intros k Hk; rewrite swap_lookup by lia;
        repeat case_decide; subst; try lia; try done.
      * apply Hlt; lia.
      * apply Heq; lia.
      * apply Heq; lia.
      * apply Hgt; lia.
    + split; [lia|]. split; [lia|]. split; [lia|]. split; [lia|]. split.
      { eapply frame_perm_trans; [done|]. apply frame_perm_swap; lia. }
      split; [|split]; intros k Hk; rewrite swap_lookup by lia;
        repeat case_decide; subst; try lia; try done.
      * apply Hlt; lia.
      * apply Heq; lia.
      * apply Hgt; lia.
    + split; [lia|]. split; [lia|]. split; [lia|]. split; [lia|]. split; [done|].
      split; [done|]. split; [|done].
      intros k Hk. destruct (decide (k = i)) as [->|]; [lia|]. apply Heq. lia.
  - simpl in Hc. apply bool_decide_eq_false in Hc.
    destruct HI as (H1 & H2 & H3 & H4 & Hf & Hlt & Heq & Hgt).
    assert (i = S gt) as -> by lia.
    exists out, lt, gt. split; [done|]. split; [lia|]. split; [lia|].
    split; [done|]. split; [done|]. split; [|done].
    intros. apply Heq. lia.
Qed.

Lemma three_way_partition_sort_spec fuel arr low high :
  low ≤ S high → high < length arr ∨ high ≤ low → S high - low ≤ S fuel →
  ∃ out, three_way_partition_sort fuel arr low high = Some out ∧
         frame_perm low (S high) arr out ∧
         sorted_range low (S high) out.
Proof.
  revert arr low high. induction fuel as [|fuel IH]; intros arr low high Hlo Hhi Hfuel.
  - simpl. case_decide; [|lia]. exists arr. split; [done|].
    split; [apply frame_perm_refl|]. intros i j ???. by replace j with i by lia.
  - simpl. case_decide as Hlt.
    { exists arr. split; [done|].
      split; [apply frame_perm_refl|]. intros i j ???. by replace j with i by lia. }
    destruct Hhi as [Hhi|]; [|lia].
    destruct (scan_spec arr low high) as (arr1 & lt & gt & -> & Hlg & Hgh & Hf1 & Hl & He & Hg);
      [lia..|].
    simpl.
    assert (length arr1 = length arr) as Hlen1 by apply Hf1.
    assert (∃ arr2, (if decide (0 < lt)
                     then three_way_partition_sort fuel arr1 low (lt - 1)
                     else Some arr1) = Some arr2 ∧
              frame_perm low lt arr1 arr2 ∧ sorted_range low lt arr2)
      as (arr2 & -> & Hf2 & Hs2).
    { case_decide.
      - destruct (IH arr1 low (lt - 1)) as (arr2 & ? & ? & ?); [lia..|].
        exists arr2. by replace (S (lt - 1)) with lt in * by lia.
      - exists arr1. split; [done|]. split; [apply frame_perm_refl|].
        intros i j ???. lia. }
    assert (length arr2 = length arr1) as Hlen2 by apply Hf2.
    simpl.
    destruct (IH arr2 (gt + 1) high) as (arr3 & -> & Hf3 & Hs3); [lia..|].
    replace (gt + 1) with (S gt) in * by lia.
    assert (length arr3 = length arr2) as Hlen3 by apply Hf3.
    exists arr3. split; [done|]. split.
    { eapply frame_perm_trans; [done|]. eapply frame_perm_trans.
      - apply (frame_perm_widen low lt low (S high)); [lia..|done].
      - apply (frame_perm_widen (S gt) (S high) low (S high)); [lia..|done]. }
    set (pivot := arr !!! low) in *.
    assert (Hl3 : ∀ k, low ≤ k < S gt → arr3 !!! k = arr2 !!! k).
    { intros. apply (frame_perm_lookup (S gt) (S high)); [done|lia]. }
    assert (Hl2 : ∀ k, lt ≤ k ≤ high → arr2 !!! k = arr1 !!! k).
    { intros. apply (frame_perm_lookup low lt); [done|lia]. }
    assert (HL : ∀ k, low ≤ k < lt → (arr3 !!! k < pivot)%Z).
    { intros k Hk. rewrite Hl3 by lia. revert k Hk.
      apply (frame_perm_Forall (λ x, (x < pivot)%Z) low lt arr1); [lia|done|done]. }
    assert (HE : ∀ k, lt ≤ k ≤ gt → arr3 !!! k = pivot).
    { intros k Hk. rewrite Hl3, Hl2 by lia. apply He. lia. }
    assert (HG : ∀ k, S gt ≤ k < S high → (pivot < arr3 !!! k)%Z).
    { apply (frame_perm_Forall (λ x, (pivot < x)%Z) (S gt) (S high) arr2);
        [lia|done|].
      intros k Hk. rewrite Hl2 by lia. apply Hg. lia. }
    intros i j Hi Hij Hj.
    destruct (decide (j < lt)).
    { rewrite !Hl3 by lia. apply Hs2; lia. }
    destruct (decide (gt < i)).
    { apply Hs3; lia. }
    pose proof (HL i). pose proof (HE i). pose proof (HG i).
    pose proof (HL j). pose proof (HE j). pose proof (HG j).
    destruct (decide (i < lt)); destruct (decide (j ≤ gt)); lia.
Qed.
End ThreeWay.

(** * The range of [int]

    An [int] expression whose value would lie outside the range of [int] is
    a signed overflow, which C leaves undefined: a run that evaluates one
    has no result.  The functions below that can meet one return [None]
    then, as they do when their fuel runs out. *)

Definition INT_MAX : Z := (2 ^ 31 - 1)%Z.

(** The value of an [int] expression that yields [z] when it is computed
    without bounds. *)
Definition int_value (z : Z) : option Z :=
  if decide (- 2 ^ 31 ≤ z ≤ INT_MAX)%Z then Some z else None.

(** The same for an expression that yields an array index [k]. *)
Definition int_index (k : nat) : option nat :=
  if decide (Z.of_nat k ≤ INT_MAX)%Z then Some k else None.

Lemma int_value_Some z : (- 2 ^ 31 ≤ z ≤ INT_MAX)%Z → int_value z = Some z.
Proof. intros. unfold int_value. by rewrite decide_True. Qed.

Lemma int_value_None z : (INT_MAX < z)%Z → int_value z = None.
Proof. intros. unfold int_value. rewrite decide_False; [done|lia]. Qed.

Lemma int_index_Some k : (Z.of_nat k ≤ INT_MAX)%Z → int_index k = Some k.
Proof. intros. unfold int_index. by rewrite decide_True. Qed.

Lemma int_index_None k : (INT_MAX < Z.of_nat k)%Z → int_index k = None.
Proof. intros. unfold int_index. rewrite decide_False; [done|lia]. Qed.

(** * Heap sort (heap_sort.c) *)

Module HeapSort.

(** The value of [largest] after the two tests of [heapify]: the index
    of the largest element among the node [i] and its children that lie
    in the heap.  The indices [left] and [right] of the children are
    computed, as [int]s, before they are compared with [heap_size]. *)
Definition largest_of (arr : list Z) (heap_size i : nat) : option nat :=
  let largest := i in
  left ← int_index (2 * i + 1);
  right ← int_index (2 * i + 2);
  let largest :=
    if bool_decide (left < heap_size) && bool_decide (arr !!! left > arr !!! largest)%Z
    then left else largest in
  let largest :=
    if bool_decide (right < heap_size) && bool_decide (arr !!! right > arr !!! largest)%Z
    then right else largest in
  Some largest.

(** [void heapify(int arr[], int heap_size, int i)] *)
Fixpoint heapify (fuel : nat) (arr : list Z) (heap_size i : nat)
  : option (list Z) :=
  largest ← largest_of arr heap_size i;
  if decide (largest ≠ i) then
    (* swap(arr, i, largest); heapify(arr, heap_size, largest); *)
    match fuel with
    | O => None
    | S fuel => heapify fuel (swap arr i largest) heap_size largest
    end
  else Some arr.

(** [void build_max_heap(int arr[], int size)]: [i] runs from
    [size / 2 - 1] down to [0]. *)
Definition build_max_heap (fuel : nat) (arr : list Z) (size : nat)
  : option (list Z) :=
  for_downM (size / 2) 0 (λ arr i, heapify fuel arr size i) arr.

(** [void heap_sort(int arr[], int size)]: the extraction loop runs [i]
    from [size - 1] down to [1]. *)
Definition heap_sort (arr : list Z) (size : nat) : option (list Z) :=
  if decide (size ≤ 1) then Some arr
  else
    arr ← build_max_heap size arr size;
    for_downM size 1 (λ arr i, heapify size (swap arr 0 i) i 0) arr.

(** The node [k] of the heap [arr[0 .. n-1]] is not smaller than its
    children. *)
Definition node_ok (arr : list Z) (n k : nat) : Prop :=
  (2 * k + 1 < n → (arr !!! (2 * k + 1)%nat ≤ arr !!! k)%Z) ∧
  (2 * k + 2 < n → (arr !!! (2 * k + 2)%nat ≤ arr !!! k)%Z).

Definition is_child (p c : nat) : Prop := c = 2 * p + 1 ∨ c = 2 * p + 2.

(** The sizes for which no index that [heapify] computes overflows: the
    largest is [2 * i + 2] for the last node [i = n - 1]. *)
Definition heap_size_ok (n : nat) : Prop := (2 * Z.of_nat n ≤ INT_MAX)%Z.

Lemma largest_of_spec arr n i :
  (Z.of_nat (2 * i + 2) ≤ INT_MAX)%Z →
  ∃ l, largest_of arr n i = Some l ∧
    ((l = i ∧ node_ok arr n i) ∨
     (i < l < n ∧ is_child i l ∧ (arr !!! i < arr !!! l)%Z ∧
      ∀ c, is_child i c → c < n → (arr !!! c ≤ arr !!! l)%Z)).
Proof.
  intros Hint. unfold largest_of.
  rewrite !int_index_Some by lia. cbn [mbind option_bind].
  eexists. split; [done|].
  unfold node_ok, is_child.
  destruct (decide (2 * i + 1 < n)); destruct (decide (2 * i + 2 < n));
    rewrite ?(bool_decide_eq_true_2 (_ < _)), ?(bool_decide_eq_false_2 (_ < _)) by done;
    cbn [andb]; repeat case_bool_decide; cbn [andb];
    rewrite ?bool_decide_eq_true_2, ?bool_decide_eq_false_2 by lia;
    first [left; split; [done|split; lia]
          |right; repeat split; try lia; intros c [->| ->] ?; lia].
Qed.

(** From the node [2^30 - 1] on, the index of the right child does not fit
    in an [int]. *)
Lemma largest_of_overflow arr n i :
  (2 ^ 30 - 1 ≤ Z.of_nat i)%Z → largest_of arr n i = None.
Proof.
  intros Hi. unfold largest_of.
  destruct (int_index (2 * i + 1)) as [left|]; [|done]. cbn [mbind option_bind].
  rewrite int_index_None; [done|]. unfold INT_MAX. lia.
Qed.

Lemma heapify_spec fuel arr n i lo :
  heap_size_ok n →
  lo ≤ i → i < n → n ≤ length arr → n - i ≤ S fuel →
  (∀ k, lo ≤ k < n → k ≠ i → node_ok arr n k) →
  (∀ p c, lo ≤ p → is_child p i → is_child i c → c < n →
          (arr !!! c ≤ arr !!! p)%Z) →
  ∃ out, heapify fuel arr n i = Some out ∧
         frame_perm i n arr out ∧
         ∀ k, lo ≤ k < n → node_ok out n k.
Proof.
  intros Hsize. unfold heap_size_ok in Hsize.
  revert arr i. induction fuel as [|fuel IH]; intros arr i Hlo Hi Hn Hfuel Hok Hgp;
    cbn [heapify];
    (destruct (largest_of_spec arr n i) as (l2 & -> & Hl2); [lia|]);
    cbn [mbind option_bind];
    (destruct Hl2 as [[-> Hnode]|(Hl2 & Hch & Hlt & Hmax)]; [|try lia]);
    try (case_decide; [done|]; exists arr; split; [done|];
         split; [apply frame_perm_refl|]; intros k Hk;
         destruct (decide (k = i)) as [->|]; [done|by apply Hok]).
  case_decide; [|lia].
  destruct (IH (swap arr i l2) l2) as (out & Hout & Hf & Hheap);
    [lia|lia|by rewrite length_swap|lia| | |].
  - intros k Hk Hne. unfold node_ok.
    rewrite !swap_lookup by lia.
    destruct (decide (k = i)) as [->|Hki].
    { repeat case_decide; try lia; split; intros ?; try lia; apply Hmax;
        unfold is_child; lia. }
    pose proof (Hok k Hk Hki) as [Hk1 Hk2].
    assert (Hgp' : ∀ c, is_child i c → c < n → is_child k i →
                     (arr !!! c ≤ arr !!! k)%Z).
    { intros. apply Hgp; (done || lia). }
    specialize (Hgp' l2 Hch ltac:(lia)).
    unfold is_child in *.
    repeat case_decide; try lia; split; intros ?; try lia.
  - intros p c Hp Hpc Hcc Hc.
    rewrite !swap_lookup by lia.
    assert (p = i) as -> by (unfold is_child in *; lia).
    destruct (Hok l2 ltac:(lia) ltac:(lia)) as [Hk1 Hk2].
    unfold is_child in *.
    destruct Hcc as [-> | ->]; repeat case_decide; lia.
  - exists out. split; [done|]. split; [|done].
    apply (frame_perm_trans _ _ _ (swap arr i l2)).
    + apply frame_perm_swap; lia.
    + apply (frame_perm_widen l2 n i n); [lia..| |done].
      rewrite length_swap. lia.
Qed.

(** A heap is topped by its maximum. *)
Lemma heap_root_max arr n :
  (∀ k, k < n → node_ok arr n k) → ∀ k, k < n → (arr !!! k ≤ arr !!! 0%nat)%Z.
Proof.
  intros Hheap k. induction (lt_wf k) as [k _ IH]. intros Hk.
  destruct k as [|k]; [done|].
  pose proof (Nat.div_mod_eq k 2) as Hdiv.
  pose proof (Nat.mod_upper_bound k 2 ltac:(done)) as Hmod.
  set (p := k / 2) in *.
  assert (p < S k) as Hp by lia.
  specialize (IH p Hp ltac:(lia)).
  destruct (Hheap p ltac:(lia)) as [H1 H2].
  destruct (decide (k `mod` 2 = 0)).
  - replace (S k) with (2 * p + 1) by lia. etrans; [apply H1; lia|done].
  - replace (S k) with (2 * p + 2) by lia. etrans; [apply H2; lia|done].
Qed.

Lemma build_max_heap_spec arr size :
  heap_size_ok size → size ≤ length arr →
  ∃ out, build_max_heap size arr size = Some out ∧
         frame_perm 0 size arr out ∧
         ∀ k, k < size → node_ok out size k.
Proof.
  intros Hint Hsize. unfold build_max_heap.
  pose proof (Nat.div_mod_eq size 2) as Hdiv.
  pose proof (Nat.mod_upper_bound size 2 ltac:(done)) as Hmod.
  destruct (for_downM_rule
    (λ j a, frame_perm 0 size arr a ∧ ∀ k, j ≤ k < size → node_ok a size k)
    (size / 2) 0 (λ arr i, heapify size arr size i) arr)
    as (out & Hout & Hf & Hheap).
  - lia.
  - split; [apply frame_perm_refl|]. intros k Hk. split; lia.
  - intros j a Hj [Hf Hheap].
    assert (length a = length arr) as Hlen by apply Hf.
    destruct (heapify_spec size a size j j) as (out & Hout & Hf' & Hheap');
      [done|lia..| | |].
    + intros k Hk Hne. apply Hheap. lia.
    + intros p c Hp [?|?]; lia.
    + exists out. split; [done|]. split; [|done].
      eapply frame_perm_trans; [done|].
      apply (frame_perm_widen j size 0 size); [lia..|done].
  - exists out. split; [done|]. split; [done|]. intros. apply Hheap. lia.
Qed.

Theorem heap_sort_spec arr :
  heap_size_ok (length arr) →
  ∃ out, heap_sort arr (length arr) = Some out ∧
         out ≡ₚ arr ∧ sorted_range 0 (length out) out.
Proof.
  intros Hint. unfold heap_sort. set (n := length arr) in *. case_decide as Hn.
  { exists arr. split; [done|]. split; [done|].
    intros i j ???. by replace j with i by lia. }
  destruct (build_max_heap_spec arr n) as (arr1 & -> & Hf1 & Hheap1); [done|done|].
  simpl.
  assert (length arr1 = n) as Hlen1 by apply Hf1.
  destruct (for_downM_rule
    (λ m a, frame_perm 0 n arr a ∧
            (∀ k, k < m → node_ok a m k) ∧
            sorted_range m n a ∧
            (∀ k1 k2, k1 < m → m ≤ k2 < n → (a !!! k1 ≤ a !!! k2)%Z))
    n 1 (λ arr i, heapify n (swap arr 0 i) i 0) arr1)
    as (out & Hout & Hf & _ & Hs & Hcross).
  - lia.
  - split; [done|]. split; [done|]. split; [intros i j ???; lia|intros; lia].
  - intros j a Hj (Hf & Hheap & Hs & Hcross).
    assert (length a = n) as Hlen by apply Hf.
    pose proof (heap_root_max a (S j) Hheap) as Hmax.
    assert (Hsw : ∀ k, swap a 0 j !!! k =
              if decide (k = j) then a !!! 0
              else if decide (k = 0) then a !!! j else a !!! k).
    { intros. apply swap_lookup; lia. }
    destruct (heapify_spec n (swap a 0 j) j 0 0) as (out & Hout & Hf' & Hheap');
      [unfold heap_size_ok in *; lia|lia|lia|rewrite length_swap; lia|lia| | |].
    + intros k Hk Hne. destruct (Hheap k ltac:(lia)) as [H1 H2].
      split; intros ?; rewrite !Hsw; repeat case_decide; lia.
    + intros p c Hp [?|?]; lia.
    + exists out. split; [done|].
      assert (Hfs : frame_perm 0 n a (swap a 0 j)) by (apply frame_perm_swap; lia).
      assert (Hout_hi : ∀ k, j ≤ k → out !!! k = swap a 0 j !!! k).
      { intros. apply (frame_perm_lookup 0 j); [done|lia]. }
      assert (Hout_lo : ∀ k1 k2, k1 < j → j ≤ k2 < n →
                          (out !!! k1 ≤ swap a 0 j !!! k2)%Z).
      { intros k1 k2 Hk1 Hk2. revert k1 Hk1.
        cut (∀ k, 0 ≤ k < j → (out !!! k ≤ swap a 0 j !!! k2)%Z).
        { intros Hc k1 ?. apply Hc. lia. }
        apply (frame_perm_Forall (λ x, (x ≤ swap a 0 j !!! k2)%Z) 0 j (swap a 0 j));
          [rewrite length_swap; lia|done|].
        intros k Hk. rewrite !Hsw.
        pose proof (Hmax j). pose proof (Hmax k).
        pose proof (Hcross 0 k2). pose proof (Hcross j k2).
        pose proof (Hcross k k2).
        repeat case_decide; lia. }
      split; [|split; [intros; apply Hheap'; lia|split]].
      * eapply frame_perm_trans; [done|]. eapply frame_perm_trans; [done|].
        apply (frame_perm_widen 0 j 0 n); [lia..|rewrite length_swap; lia|done].
      * intros i1 i2 H1 H2 H3. rewrite !Hout_hi by lia. rewrite !Hsw.
        pose proof (Hcross 0 i2). pose proof (Hs i1 i2).
        repeat case_decide; lia.
      * intros k1 k2 Hk1 Hk2. rewrite (Hout_hi k2) by lia. apply Hout_lo; lia.
  - exists out. split; [done|].
    assert (length out = n) as Hlen by apply Hf.
    split; [apply (frame_perm_Permutation 0 n); [lia|done|done]|].
    rewrite Hlen. intros i j Hi Hij Hj.
    destruct (decide (i = 0)) as [->|].
    + destruct (decide (j = 0)) as [->|]; [done|]. apply Hcross; lia.
    + apply Hs; lia.
Qed.
End HeapSort.

Lemma quicksort_inplace_spec arr :
  ∃ out, Quicksort.quicksort_inplace arr (length arr) = Some out ∧
         out ≡ₚ arr ∧ sorted_range 0 (length out) out.
Proof.
  unfold Quicksort.quicksort_inplace. case_decide as Hn.
  - destruct (Quicksort.quicksort_range_spec (length arr) arr 0 (length arr - 1))
      as (out & Hout & Hf & Hs); [lia..|].
    replace (S (length arr - 1)) with (length arr) in * by lia.
    exists out. split; [done|].
    assert (length out = length arr) as -> by apply Hf.
    split; [|done]. by apply (frame_perm_Permutation 0 (length arr)); [lia|lia|].
  - exists arr. split; [done|]. split; [done|].
    intros i j ???. by replace j with i by lia.
Qed.

Lemma quicksort_three_way_spec arr :
  ∃ out, ThreeWay.quicksort_three_way arr (length arr) = Some out ∧
         out ≡ₚ arr ∧ sorted_range 0 (length out) out.
Proof.
  unfold ThreeWay.quicksort_three_way. case_decide as Hn.
  - exists arr. split; [done|]. split; [done|].
    intros i j ???. by replace j with i by lia.
  - destruct (ThreeWay.three_way_partition_sort_spec (length arr) arr 0 (length arr - 1))
      as (out & Hout & Hf & Hs); [lia..|].
    replace (S (length arr - 1)) with (length arr) in * by lia.
    exists out. split; [done|].
    assert (length out = length arr) as -> by apply Hf.
    split; [|done]. by apply (frame_perm_Permutation 0 (length arr)); [lia|lia|].
Qed.

(** * Sorting by a key, stably *)

Section Keys.
Context {A : Type} (key : A → Z).

Definition key_le (x y : A) : Prop := (key x ≤ key y)%Z.

#[global] Instance key_le_dec : RelDecision key_le.
Proof. intros x y. unfold key_le. apply _. Defined.

#[global] Instance key_le_total : Total key_le.
Proof. intros x y. unfold key_le. lia. Qed.

#[global] Instance key_le_trans : Transitive key_le.
Proof. intros x y z. unfold key_le. lia. Qed.

(** The keys of [l] are in non-decreasing order. *)
Definition sorted_by (l : list A) : Prop := StronglySorted key_le l.

(** [l'] keeps the elements of [l] that have a same key in the order they
    have in [l]. *)
Definition stable_by (l l' : list A) : Prop :=
  ∀ k : Z, filter (λ x, key x = k) l' = filter (λ x, key x = k) l.

Lemma sorted_by_fmap l : sorted_by l ↔ StronglySorted Z.le (key <$> l).
Proof.
  unfold sorted_by. induction l as [|x l IH]; simpl.
  - split; constructor.
  - split; inversion_clear 1 as [|?? Hs Hall]; constructor; try (by apply IH).
    + rewrite Forall_fmap. by eapply Forall_impl.
    + fold (fmap (M:=list) key l) in Hall. rewrite Forall_fmap in Hall.
      by eapply Forall_impl.
Qed.

Lemma sorted_by_nondecreasing l : sorted_by l → nondecreasing (key <$> l).
Proof.
  intros. apply nondecreasing_Sorted, StronglySorted_Sorted. by apply sorted_by_fmap.
Qed.

Lemma stable_by_refl l : stable_by l l.
Proof. done. Qed.

Lemma stable_by_trans l1 l2 l3 :
  stable_by l1 l2 → stable_by l2 l3 → stable_by l1 l3.
Proof. intros H1 H2 k. by rewrite H2. Qed.

Lemma stable_by_app l1 l1' l2 l2' :
  stable_by l1 l1' → stable_by l2 l2' → stable_by (l1 ++ l2) (l1' ++ l2').
Proof. intros H1 H2 k. by rewrite !filter_app, H1, H2. Qed.

Lemma filter_key_sorted_lt l k x :
  sorted_by (x :: l) → (k < key x)%Z → filter (λ y, key y = k) (x :: l) = [].
Proof.
  intros Hs Hk. apply StronglySorted_inv in Hs as [_ Hall].
  rewrite filter_cons_False by lia.
  induction l as [|y l IH]; [done|].
  apply Forall_cons in Hall as [Hy Hall]. unfold key_le in Hy.
  rewrite filter_cons_False by lia. by apply IH.
Qed.

(** Merging with ties resolved in favour of the left run keeps equal keys in
    the order "left run first". *)
Lemma list_merge_stable l1 l2 k :
  sorted_by l1 →
  filter (λ x, key x = k) (list_merge key_le l1 l2)
  = filter (λ x, key x = k) l1 ++ filter (λ x, key x = k) l2.
Proof.
  revert l2. induction l1 as [|x l1 IH1]; intros l2 Hs1.
  { by rewrite list_merge_nil_l. }
  induction l2 as [|y l2 IH2].
  { by rewrite list_merge_nil_r, app_nil_r. }
  rewrite list_merge_cons. case_decide as Hxy.
  - rewrite !filter_cons. case_decide.
    + simpl. f_equal. rewrite IH1; [|by apply StronglySorted_inv in Hs1 as [? _]].
      by rewrite filter_cons.
    + rewrite IH1; [|by apply StronglySorted_inv in Hs1 as [? _]].
      by rewrite filter_cons.
  - unfold key_le in Hxy. rewrite (filter_cons _ y). case_decide.
    + rewrite IH2. rewrite (filter_key_sorted_lt l1 k x) by (done || lia).
      simpl. by rewrite filter_cons_True.
    + rewrite IH2. by rewrite (filter_cons_False _ y).
Qed.

Lemma list_merge_sorted l1 l2 :
  sorted_by l1 → sorted_by l2 → sorted_by (list_merge key_le l1 l2).
Proof.
  intros H1 H2. apply Sorted_StronglySorted; [apply _|].
  apply Sorted_list_merge; [apply _|by apply StronglySorted_Sorted..].
Qed.
End Keys.

(** * Merge sort (mergesort.c) *)

Module Mergesort.
Section Mergesort.
Context {A : Type} `{!Inhabited A} (key : A → Z).

(** [ok n] tells whether the [n]-th call of [malloc] succeeds. *)
Variable ok : nat → bool.

(** [for (int i = 0; i < size; i++) buf[i] = arr[from + i];] on a buffer
    that [malloc] has just returned. *)
Definition copy_out (arr : list A) (from size : nat) : list A :=
  for_up 0 size (λ buf i, <[i := arr !!! (from + i)]> buf)
    (replicate size inhabitant).

(** The three loops of [merge] work on the state [(arr, i, j, k)]. *)
Definition merge_state : Type := list A * nat * nat * nat.

Definition merge_both_cond (left_size right_size : nat) (st : merge_state) : bool :=
  let '(arr, i, j, k) := st in
  bool_decide (i < left_size) && bool_decide (j < right_size).

Definition merge_both_body (left_arr right_arr : list A) (st : merge_state)
  : merge_state :=
  let '(arr, i, j, k) := st in
  if decide (key (left_arr !!! i) ≤ key (right_arr !!! j))%Z
  then (<[k := left_arr !!! i]> arr, S i, j, S k)
  else (<[k := right_arr !!! j]> arr, i, S j, S k).

Definition merge_left_cond (left_size : nat) (st : merge_state) : bool :=
  let '(arr, i, j, k) := st in bool_decide (i < left_size).

Definition merge_left_body (left_arr : list A) (st : merge_state) : merge_state :=
  let '(arr, i, j, k) := st in (<[k := left_arr !!! i]> arr, S i, j, S k).

Definition merge_right_cond (right_size : nat) (st : merge_state) : bool :=
  let '(arr, i, j, k) := st in bool_decide (j < right_size).

Definition merge_right_body (right_arr : list A) (st : merge_state) : merge_state :=
  let '(arr, i, j, k) := st in (<[k := right_arr !!! j]> arr, i, S j, S k).

(** [void merge(int arr[], int left, int mid, int right)], started when [n]
    allocations have been made: the array after the call and the new
    allocation count.  When an allocation fails, the function prints a
    message and returns. *)
Definition merge (arr : list A) (left mid right : nat) (n : nat)
  : option (list A * nat) :=
  let left_size := mid - left + 1 in
  let right_size := right - mid in
  let left_ok := ok n in
  let right_ok := ok (S n) in
  if negb left_ok || negb right_ok then Some (arr, S (S n))
  else
    let left_arr := copy_out arr left left_size in
    let right_arr := copy_out arr (mid + 1) right_size in
    st ← while (left_size + right_size) (merge_both_cond left_size right_size)
           (merge_both_body left_arr right_arr) (arr, 0, 0, left);
    st ← while left_size (merge_left_cond left_size) (merge_left_body left_arr) st;
    st ← while right_size (merge_right_cond right_size) (merge_right_body right_arr) st;
    let '(arr, _, _, _) := st in
    Some (arr, S (S n)).

(** [void mergesort_recursive(int arr[], int left, int right)] *)
Fixpoint mergesort_recursive (fuel : nat) (arr : list A) (left right : nat)
  (n : nat) : option (list A * nat) :=
  if decide (left < right) then
    match fuel with
    | O => None
    | S fuel =>
      let mid := left + (right - left) / 2 in
      '(arr, n) ← mergesort_recursive fuel arr left mid n;
      '(arr, n) ← mergesort_recursive fuel arr (mid + 1) right n;
      merge arr left mid right n
    end
  else Some (arr, n).

(** [void mergesort(int arr[], int size)] *)
Definition mergesort (arr : list A) (size : nat) (n : nat)
  : option (list A * nat) :=
  if decide (1 < size) then mergesort_recursive size arr 0 (size - 1) n
  else Some (arr, n).

Lemma copy_out_seg arr from size :
  from + size ≤ length arr → copy_out arr from size = seg from (from + size) arr.
Proof.
  intros Hlen. unfold copy_out.
  pose (I := λ (i : nat) (buf : list A),
    length buf = size ∧ take i buf = seg from (from + i) arr).
  assert (I size (for_up 0 size (λ buf i, <[i := arr !!! (from + i)]> buf)
                    (replicate size inhabitant))) as [Hl Ht].
  { apply for_up_rule; [lia| |].
    - split; [by rewrite length_replicate|].
      unfold seg. by rewrite Nat.add_0_r, Nat.sub_diag, !take_0.
    - intros j buf Hj [Hl Ht]. unfold I. cbv beta. split; [by rewrite length_insert|].
      rewrite (take_S_r _ _ (arr !!! (from + j))).
      2:{ apply list_lookup_insert_eq. lia. }
      rewrite take_insert_ge by lia. rewrite Ht.
      replace (from + S j) with (S (from + j)) by lia.
      rewrite (seg_split from (from + j) (S (from + j))) by lia.
      f_equal. rewrite seg_singleton; [done|lia]. }
  rewrite <- Ht. rewrite take_ge; [done|lia].
Qed.

Lemma seg_insert_snoc (a : list A) lo k x :
  lo ≤ k → k < length a → seg lo (S k) (<[k := x]> a) = seg lo k a ++ [x].
Proof.
  intros Hlo Hk. rewrite (seg_split lo k (S k)) by lia. f_equal.
  - apply seg_ext; [lia|rewrite length_insert; lia|].
    intros j Hj. rewrite list_lookup_total_insert_ne; [done|lia].
  - rewrite seg_singleton by (rewrite length_insert; lia).
    by rewrite list_lookup_total_insert_eq.
Qed.

(** What the three loops of [merge] maintain: [arr[left .. k-1]] holds the
    elements merged so far. *)
Definition merge_inv (arr : list A) (left right : nat) (L R : list A)
  (st : merge_state) : Prop :=
  let '(a, i, j, k) := st in
  k = left + i + j ∧ i ≤ length L ∧ j ≤ length R ∧
  length a = length arr ∧
  take left a = take left arr ∧ drop (S right) a = drop (S right) arr ∧
  seg left k a ++ list_merge (key_le key) (drop i L) (drop j R)
  = list_merge (key_le key) L R.

Lemma merge_spec arr left mid right n :
  left ≤ mid → mid < right → right < length arr →
  ∃ out, merge arr left mid right n = Some (out, S (S n)) ∧
    length out = length arr ∧
    take left out = take left arr ∧ drop (S right) out = drop (S right) arr ∧
    seg left (S right) out =
      if ok n && ok (S n)
      then list_merge (key_le key) (seg left (S mid) arr) (seg (S mid) (S right) arr)
      else seg left (S right) arr.
Proof.
  intros Hlm Hmr Hr. unfold merge.
  destruct (ok n) eqn:Hok1; destruct (ok (S n)) eqn:Hok2; simpl;
    try (exists arr; by rewrite ?Hok1, ?Hok2).
  rewrite !copy_out_seg by lia.
  replace (left + (mid - left + 1)) with (S mid) by lia.
  replace (mid + 1 + (right - mid)) with (S right) by lia.
  replace (mid + 1) with (S mid) by lia.
  set (L := seg left (S mid) arr). set (R := seg (S mid) (S right) arr).
  assert (HL : length L = mid - left + 1) by (unfold L; rewrite seg_length; lia).
  assert (HR : length R = right - mid) by (unfold R; rewrite seg_length; lia).
  rewrite <- HL, <- HR.
  (* first loop *)
  destruct (while_rule (merge_inv arr left right L R)
              (λ '(a, i, j, k), length L + length R - i - j)
              (merge_both_cond (length L) (length R)) (merge_both_body L R)
              (length L + length R) (arr, 0, 0, left))
    as ([[[a1 i1] j1] k1] & -> & HI1 & Hc1).
  { split; [lia|]. split; [lia|]. split; [lia|]. do 3 (split; [done|]).
    unfold seg. rewrite Nat.sub_diag. reflexivity. }
  { lia. }
  { intros [[[a i] j] k] (-> & Hi & Hj & Hlen & Ht & Hd & Hm) Hc. simpl in Hc.
    apply andb_true_iff in Hc as [Hci Hcj].
    apply bool_decide_eq_true in Hci, Hcj.
    assert (HdL := drop_S L (L !!! i) i (list_lookup_lookup_total_lt L i Hci)).
    assert (HdR := drop_S R (R !!! j) j (list_lookup_lookup_total_lt R j Hcj)).
    rewrite HdL, HdR, list_merge_cons in Hm. unfold merge_both_body.
    destruct (decide (key (L !!! i) ≤ key (R !!! j))%Z) as [Hle|Hle];
      [rewrite decide_True in Hm by done|rewrite decide_False in Hm by done];
      (split; [|simpl; lia]);
      (split; [lia|]); (split; [lia|]); (split; [lia|]);
      (split; [by rewrite length_insert|]);
      (split; [rewrite take_insert_ge by lia; done|]);
      (split; [rewrite drop_insert_lt by lia; done|]).
    - replace (left + S i + j) with (S (left + i + j)) by lia.
      rewrite seg_insert_snoc by lia. by rewrite <- app_assoc, HdR.
    - replace (left + i + S j) with (S (left + i + j)) by lia.
      rewrite seg_insert_snoc by lia. by rewrite <- app_assoc, HdL. }
  simpl in Hc1. simpl.
  (* second loop *)
  apply andb_false_iff in Hc1.
  rewrite !bool_decide_eq_false in Hc1.
  destruct (while_rule
              (λ st, merge_inv arr left right L R st ∧
                     let '(a, i, j, k) := st in i < length L → j = length R)
              (λ '(a, i, j, k), length L - i)
              (merge_left_cond (length L)) (merge_left_body L)
              (length L) (a1, i1, j1, k1))
    as ([[[a2 i2] j2] k2] & -> & [HI2 _] & Hc2).
  { split; [done|]. destruct HI1 as (_ & ? & ? & _). lia. }
  { lia. }
  { intros [[[a i] j] k] [(-> & Hi & Hj & Hlen & Ht & Hd & Hm) Hij] Hc. simpl in Hc.
    apply bool_decide_eq_true in Hc. specialize (Hij Hc). subst j.
    rewrite (drop_S L (L !!! i) i) in Hm by (apply list_lookup_lookup_total_lt; lia).
    rewrite drop_all, list_merge_nil_r in Hm.
    unfold merge_left_body. split; [|simpl; lia]. split; [|done].
    split; [lia|]. split; [lia|]. split; [lia|].
    split; [by rewrite length_insert|].
    split; [rewrite take_insert_ge by lia; done|].
    split; [rewrite drop_insert_lt by lia; done|].
    replace (left + S i + length R) with (S (left + i + length R)) by lia.
    rewrite seg_insert_snoc by lia.
    by rewrite drop_all, list_merge_nil_r, <- app_assoc. }
  simpl in Hc2. apply bool_decide_eq_false in Hc2. simpl.
  (* third loop *)
  destruct (while_rule
              (λ st, merge_inv arr left right L R st ∧
                     let '(a, i, j, k) := st in i = length L)
              (λ '(a, i, j, k), length R - j)
              (merge_right_cond (length R)) (merge_right_body R)
              (length R) (a2, i2, j2, k2))
    as ([[[a3 i3] j3] k3] & -> & [HI3 ->] & Hc3).
  { split; [done|]. destruct HI2 as (_ & ? & ? & _). lia. }
  { lia. }
  { intros [[[a i] j] k] [(-> & Hi & Hj & Hlen & Ht & Hd & Hm) ->] Hc. simpl in Hc.
    apply bool_decide_eq_true in Hc.
    rewrite (drop_S R (R !!! j) j) in Hm by (apply list_lookup_lookup_total_lt; lia).
    rewrite drop_all, list_merge_nil_l in Hm.
    unfold merge_right_body. split; [|simpl; lia]. split; [|done].
    split; [lia|]. split; [lia|]. split; [lia|].
    split; [by rewrite length_insert|].
    split; [rewrite take_insert_ge by lia; done|].
    split; [rewrite drop_insert_lt by lia; done|].
    replace (left + length L + S j) with (S (left + length L + j)) by lia.
    rewrite seg_insert_snoc by lia.
    by rewrite drop_all, list_merge_nil_l, <- app_assoc. }
  simpl in Hc3. apply bool_decide_eq_false in Hc3. simpl.
  destruct HI3 as (-> & Hi & Hj & Hlen & Ht & Hd & Hm).
  assert (j3 = length R) as -> by lia.
  rewrite !drop_all, list_merge_nil_l, app_nil_r in Hm.
  replace (left + length L + length R) with (S right) in Hm by lia.
  exists a3. simpl. done.
Qed.

Lemma frame_perm_seg_outside lo hi lo' hi' (a b : list A) :
  frame_perm lo hi a b → hi' ≤ length a → hi' ≤ lo ∨ hi ≤ lo' →
  seg lo' hi' b = seg lo' hi' a.
Proof.
  intros Hf Hlen Hdisj. assert (length b = length a) as Hl by apply Hf.
  apply seg_ext; [lia..|]. intros k Hk.
  apply (frame_perm_lookup lo hi); [done|lia].
Qed.

Lemma mergesort_recursive_spec fuel arr left right n :
  left ≤ right → right < length arr → right - left ≤ fuel →
  ∃ out n', mergesort_recursive fuel arr left right n = Some (out, n') ∧
    frame_perm left (S right) arr out ∧
    ((∀ m, ok m = true) →
     sorted_by key (seg left (S right) out) ∧
     stable_by key (seg left (S right) arr) (seg left (S right) out)).
Proof.
  revert arr left right n.
  induction fuel as [|fuel IH]; intros arr left right n Hlr Hr Hfuel.
  - simpl. case_decide; [lia|]. assert (right = left) as -> by lia.
    exists arr, n. split; [done|]. split; [apply frame_perm_refl|].
    intros _. split; [|done]. rewrite seg_singleton by lia.
    repeat constructor.
  - cbn [mergesort_recursive]. case_decide as Hlt.
    2:{ assert (right = left) as -> by lia.
        exists arr, n. split; [done|]. split; [apply frame_perm_refl|].
        intros _. split; [|done]. rewrite seg_singleton by lia.
        repeat constructor. }
    pose proof (Nat.div_mod_eq (right - left) 2) as Hdiv.
    pose proof (Nat.mod_upper_bound (right - left) 2 ltac:(done)) as Hmod.
    set (mid := left + (right - left) / 2) in *.
    assert (left ≤ mid < right) as Hmid by (unfold mid; lia).
    destruct (IH arr left mid n) as (arr1 & n1 & -> & Hf1 & Hs1); [lia..|].
    simpl.
    assert (length arr1 = length arr) as Hlen1 by apply Hf1.
    destruct (IH arr1 (mid + 1) right n1) as (arr2 & n2 & -> & Hf2 & Hs2); [lia..|].
    simpl. replace (mid + 1) with (S mid) in * by lia.
    assert (length arr2 = length arr1) as Hlen2 by apply Hf2.
    destruct (merge_spec arr2 left mid right n2)
      as (out & -> & Hlen & Ht & Hd & Hseg); [lia..|].
    exists out, (S (S n2)). split; [done|].
    assert (HL : seg left (S mid) arr2 = seg left (S mid) arr1).
    { apply (frame_perm_seg_outside (S mid) (S right)); [done|lia|lia]. }
    assert (HR : seg (S mid) (S right) arr1 = seg (S mid) (S right) arr).
    { apply (frame_perm_seg_outside left (S mid)); [done|lia|lia]. }
    assert (Hf12 : frame_perm left (S right) arr arr2).
    { eapply frame_perm_trans.
      - apply (frame_perm_widen left (S mid) left (S right)); [lia..|done].
      - apply (frame_perm_widen (S mid) (S right) left (S right)); [lia..|done]. }
    split.
    + split; [lia|]. split.
      { rewrite Ht. apply Hf12. }
      split.
      { rewrite Hd. apply Hf12. }
      etrans; [|apply Hf12]. rewrite Hseg.
      destruct (ok n2 && ok (S n2)); [|done].
      rewrite merge_Permutation. by rewrite <- seg_split by lia.
    + intros Hok. rewrite Hseg, !Hok. simpl.
      destruct (Hs1 Hok) as [Hsort1 Hst1]. destruct (Hs2 Hok) as [Hsort2 Hst2].
      rewrite HL. split.
      * by apply list_merge_sorted.
      * intros k. rewrite list_merge_stable by done.
        rewrite Hst1, Hst2, HR. rewrite <- filter_app.
        by rewrite <- seg_split by lia.
Qed.

Lemma mergesort_spec arr n :
  ∃ out n', mergesort arr (length arr) n = Some (out, n') ∧
    out ≡ₚ arr ∧
    ((∀ m, ok m = true) → sorted_by key out ∧ stable_by key arr out).
Proof.
  unfold mergesort. case_decide as Hn.
  - destruct (mergesort_recursive_spec (length arr) arr 0 (length arr - 1) n)
      as (out & n' & -> & Hf & Hs); [lia..|].
    replace (S (length arr - 1)) with (length arr) in * by lia.
    exists out, n'. split; [done|].
    assert (length out = length arr) as Hlen by apply Hf.
    split; [by apply (frame_perm_Permutation 0 (length arr)); [lia|lia|]|].
    intros Hok. specialize (Hs Hok).
    rewrite <- Hlen in Hs at 1 3. by rewrite !seg_whole in Hs.
  - exists arr, n. split; [done|]. split; [done|]. intros _. split; [|done].
    destruct arr as [|x [|y arr]]; [repeat constructor..|simpl in Hn; lia].
Qed.
End Mergesort.
End Mergesort.

(** * Distribution passes: histogram, prefix sums, placement *)

Lemma filter_ext_elem {A} (P1 P2 : A → Prop)
    `{!∀ x, Decision (P1 x), !∀ x, Decision (P2 x)} (l : list A) :
  (∀ x, x ∈ l → P1 x ↔ P2 x) → filter P1 l = filter P2 l.
Proof.
  induction l as [|a l IH]; intros Hext; [done|].
  rewrite !filter_cons.
  rewrite IH by (intros; apply Hext; by right).
  apply decide_ext. apply Hext. by left.
Qed.

Lemma filter_filter_elem {A} (P1 P2 : A → Prop)
    `{!∀ x, Decision (P1 x), !∀ x, Decision (P2 x)} (l : list A) :
  (∀ x, x ∈ l → P1 x → P2 x) → filter P1 (filter P2 l) = filter P1 l.
Proof.
  intros Himp. rewrite list_filter_filter. apply filter_ext_elem.
  intros x Hx. split; [by intros [? _]|]. intros. split; [done|by apply Himp].
Qed.

Lemma filter_none {A} (P : A → Prop) `{!∀ x, Decision (P x)} (l : list A) :
  (∀ x, x ∈ l → ¬ P x) → filter P l = [].
Proof.
  induction l as [|a l IH]; intros Hno; [done|].
  rewrite filter_cons_False by (apply Hno; by left).
  apply IH. intros. apply Hno. by right.
Qed.

Lemma filter_all {A} (P : A → Prop) `{!∀ x, Decision (P x)} (l : list A) :
  (∀ x, x ∈ l → P x) → filter P l = l.
Proof.
  induction l as [|a l IH]; intros Hall; [done|].
  rewrite filter_cons_True by (apply Hall; by left).
  f_equal. apply IH. intros. apply Hall. by right.
Qed.

Lemma StronglySorted_weaken {A} (R1 R2 : relation A) (l : list A) :
  (∀ x y, x ∈ l → y ∈ l → R1 x y → R2 x y) →
  StronglySorted R1 l → StronglySorted R2 l.
Proof.
  intros Himp Hs. induction Hs as [|x l Hs IH Hall]; constructor.
  - apply IH. intros y z Hy Hz. apply Himp; by right.
  - rewrite Forall_forall in *. intros y Hy. apply Himp; [by left|by right|].
    by apply Hall.
Qed.

Section Distribution.
Context {A : Type} `{!Inhabited A}.
(** [d x] is the bucket of [x], [K] the number of buckets. *)
Context (d : A → nat) (K : nat).
Implicit Types arr out : list A.
Implicit Types c : list nat.

(** The elements of [arr] by increasing bucket, each bucket in the order of
    [arr]: what a stable distribution pass produces. *)
Definition buckets_upto (arr : list A) (m : nat) : list A :=
  concat ((λ b, filter (λ x, d x = b) arr) <$> seq 0 m).

Definition buckets (arr : list A) : list A := buckets_upto arr K.

(** The number of elements of [arr] in the buckets below [b]. *)
Definition below (arr : list A) (b : nat) : nat :=
  length (filter (λ x, d x < b) arr).

Definition tally_of (arr : list A) (b : nat) : nat :=
  length (filter (λ x, d x = b) arr).

Lemma buckets_upto_S arr m :
  buckets_upto arr (S m) = buckets_upto arr m ++ filter (λ x, d x = m) arr.
Proof.
  unfold buckets_upto. rewrite seq_S, fmap_app, concat_app. simpl.
  by rewrite app_nil_r.
Qed.

Lemma below_S arr b : below arr (S b) = below arr b + tally_of arr b.
Proof.
  unfold below, tally_of. induction arr as [|x arr IH]; [done|].
  rewrite !filter_cons. repeat case_decide; simpl; lia.
Qed.

Lemma below_mono arr b b' : b ≤ b' → below arr b ≤ below arr b'.
Proof.
  induction 1 as [|b' _ IH]; [done|]. rewrite below_S. lia.
Qed.

Lemma below_all arr : Forall (λ x, d x < K) arr → below arr K = length arr.
Proof.
  intros Hall. unfold below. f_equal. apply filter_all.
  by apply Forall_forall.
Qed.

Lemma buckets_upto_length arr m : length (buckets_upto arr m) = below arr m.
Proof.
  induction m as [|m IH].
  - unfold below. rewrite filter_none; [done|]. intros; lia.
  - by rewrite buckets_upto_S, length_app, IH, below_S.
Qed.

Lemma buckets_upto_filter arr m b :
  filter (λ x, d x = b) (buckets_upto arr m)
  = if decide (b < m) then filter (λ x, d x = b) arr else [].
Proof.
  induction m as [|m IH]; [by rewrite decide_False by lia|].
  rewrite buckets_upto_S, filter_app, IH, list_filter_filter.
  destruct (decide (b = m)) as [->|Hne].
  - rewrite decide_False, decide_True by lia. simpl.
    apply list_filter_iff. intros x. split; [by intros [? _]|done].
  - rewrite (filter_none (λ a, d a = b ∧ d a = m)) by (intros; lia).
    rewrite app_nil_r. repeat case_decide; (done || lia).
Qed.

Lemma buckets_upto_bound arr m x : x ∈ buckets_upto arr m → d x < m ∧ x ∈ arr.
Proof.
  induction m as [|m IH]; [by intros ?%elem_of_nil|].
  rewrite buckets_upto_S, elem_of_app, list_elem_of_filter.
  intros [Hx|[? ?]]; [|split; [lia|done]].
  destruct (IH Hx). split; [lia|done].
Qed.

Lemma buckets_upto_sorted arr m :
  StronglySorted (λ x y, d x ≤ d y) (buckets_upto arr m).
Proof.
  induction m as [|m IH]; [constructor|].
  rewrite buckets_upto_S. apply StronglySorted_app_2; [|done|].
  - intros x y [Hx _]%buckets_upto_bound [Hy _]%list_elem_of_filter. lia.
  - assert (Hall : Forall (λ x, d x = m) (filter (λ x, d x = m) arr)).
    { apply Forall_forall. by intros y [Hy _]%list_elem_of_filter. }
    induction Hall as [|x l Hx Hall IHl]; constructor; [done|].
    eapply Forall_impl; [done|]. simpl. intros; lia.
Qed.

Lemma buckets_upto_Permutation arr m :
  buckets_upto arr m ≡ₚ filter (λ x, d x < m) arr.
Proof.
  induction m as [|m IH].
  - rewrite filter_none; [done|]. intros; lia.
  - rewrite buckets_upto_S, IH. clear IH.
    induction arr as [|x arr IHa]; [done|].
    rewrite !filter_cons. repeat case_decide; try lia; simpl.
    + by rewrite IHa.
    + rewrite <- Permutation_middle. by rewrite IHa.
    + done.
Qed.

Lemma buckets_Permutation arr : Forall (λ x, d x < K) arr → buckets arr ≡ₚ arr.
Proof.
  intros Hall. unfold buckets. rewrite buckets_upto_Permutation.
  rewrite filter_all; [done|]. by apply Forall_forall.
Qed.

Lemma buckets_sorted arr : sorted_by (λ x, Z.of_nat (d x)) (buckets arr).
Proof.
  eapply StronglySorted_weaken; [|apply buckets_upto_sorted].
  intros x y _ _. unfold key_le. lia.
Qed.

Lemma buckets_stable arr :
  Forall (λ x, d x < K) arr → stable_by (λ x, Z.of_nat (d x)) arr (buckets arr).
Proof.
  intros Hall k. unfold buckets.
  destruct (decide (0 ≤ k)%Z) as [Hk|Hk].
  - rewrite (list_filter_iff _ (λ x, d x = Z.to_nat k)) by (intros; lia).
    rewrite (list_filter_iff _ (λ x, d x = Z.to_nat k) arr) by (intros; lia).
    rewrite buckets_upto_filter. case_decide; [done|].
    symmetry. apply filter_none. rewrite Forall_forall in Hall.
    intros x Hx. specialize (Hall x Hx). lia.
  - rewrite !filter_none; [done|intros; lia..].
Qed.

Lemma tally_of_app arr1 arr2 b :
  tally_of (arr1 ++ arr2) b = tally_of arr1 b + tally_of arr2 b.
Proof. unfold tally_of. by rewrite filter_app, length_app. Qed.

Lemma tally_of_take_S arr i b :
  i < length arr →
  tally_of (take (S i) arr) b
  = tally_of (take i arr) b + (if decide (d (arr !!! i) = b) then 1 else 0).
Proof.
  intros Hi. rewrite (take_S_r arr i (arr !!! i)) by by apply list_lookup_lookup_total_lt.
  rewrite tally_of_app. f_equal. unfold tally_of.
  rewrite filter_cons. by case_decide.
Qed.

Lemma tally_of_take_le arr i b : tally_of (take i arr) b ≤ tally_of arr b.
Proof.
  rewrite <- (take_drop i arr) at 2. rewrite tally_of_app. lia.
Qed.

(** The histogram loop: [count[d(arr[i])]++] for [i] from [0] to [size - 1]. *)
Lemma tally_loop arr size :
  size ≤ length arr →
  let c := for_up 0 size (λ c i, <[d (arr !!! i) := S (c !!! d (arr !!! i))]> c)
             (replicate K 0) in
  length c = K ∧ ∀ b, b < K → c !!! b = tally_of (take size arr) b.
Proof.
  intros Hsize.
  apply (for_up_rule (λ i c, length c = K ∧
           ∀ b, b < K → c !!! b = tally_of (take i arr) b)); [lia| |].
  - split; [by rewrite length_replicate|]. intros b Hb.
    by rewrite lookup_total_replicate_2.
  - intros i c Hi [Hlen Hc]. split; [by rewrite length_insert|].
    intros b Hb. rewrite tally_of_take_S by lia.
    destruct (decide (d (arr !!! i) = b)) as [->|Hne].
    + rewrite list_lookup_total_insert_eq by lia. rewrite Hc by done. lia.
    + rewrite list_lookup_total_insert_ne by done. rewrite Hc by done. lia.
Qed.

(** The prefix-sum loop: [count[i] += count[i - 1]] for [i] from [1] to
    [K - 1]. *)
Lemma prefix_loop arr c0 :
  0 < K → length c0 = K → (∀ b, b < K → c0 !!! b = tally_of arr b) →
  let c := for_up 1 K (λ c i, <[i := c !!! i + c !!! (i - 1)]> c) c0 in
  length c = K ∧ ∀ b, b < K → c !!! b = below arr (S b).
Proof.
  intros HK Hlen0 Hc0.
  cut (let c := for_up 1 K (λ c i, <[i := c !!! i + c !!! (i - 1)]> c) c0 in
       length c = K ∧ (∀ b, b < K → b < K → c !!! b = below arr (S b)) ∧
       (∀ b, K ≤ b < K → c !!! b = tally_of arr b)).
  { intros (? & ? & _). split; [done|]. auto. }
  apply (for_up_rule (λ i c, length c = K ∧
           (∀ b, b < i → b < K → c !!! b = below arr (S b)) ∧
           (∀ b, i ≤ b < K → c !!! b = tally_of arr b))); [lia| |].
  - split; [done|]. split.
    + intros b Hb _. assert (b = 0) as -> by lia.
      rewrite Hc0 by done. rewrite below_S.
      unfold below. rewrite filter_none; [done|intros; lia].
    + intros b Hb. apply Hc0. lia.
  - intros i c Hi (Hlen & Hlo & Hhi). split; [by rewrite length_insert|]. split.
    + intros b Hb HbK. destruct (decide (b = i)) as [->|Hne].
      * rewrite list_lookup_total_insert_eq by lia.
        rewrite Hhi by lia. rewrite Hlo by lia.
        replace (S (i - 1)) with i by lia. rewrite (below_S arr i). lia.
      * rewrite list_lookup_total_insert_ne by done. apply Hlo; lia.
    + intros b Hb. rewrite list_lookup_total_insert_ne by lia. apply Hhi. lia.
Qed.

Lemma seg_insert_head (l : list A) p hi x :
  p < hi → hi ≤ length l → seg p hi (<[p := x]> l) = x :: seg (S p) hi l.
Proof.
  intros Hp Hhi. rewrite (seg_split p (S p) hi) by lia.
  rewrite seg_singleton by (rewrite length_insert; lia).
  rewrite list_lookup_total_insert_eq by lia. simpl. f_equal.
  apply seg_ext; [lia|rewrite length_insert; lia|].
  intros k Hk. rewrite list_lookup_total_insert_ne; [done|lia].
Qed.

Lemma seg_insert_outside (l : list A) lo hi p x :
  p < lo ∨ hi ≤ p → hi ≤ length l → seg lo hi (<[p := x]> l) = seg lo hi l.
Proof.
  intros Hp Hhi. apply seg_ext; [lia|rewrite length_insert; lia|].
  intros k Hk. rewrite list_lookup_total_insert_ne; [done|lia].
Qed.

(** The placement loop, scanning the source from its last to its first
    index: whatever the body, provided it decrements the counter of the
    bucket and writes the element at the decremented position. *)
Lemma place_loop arr (step : list nat * list A → nat → list nat * list A) c0 out0 :
  Forall (λ x, d x < K) arr →
  length c0 = K → (∀ b, b < K → c0 !!! b = below arr (S b)) →
  length out0 = length arr →
  (∀ c out i, length c = K → i < length arr →
     step (c, out) i =
       (<[d (arr !!! i) := c !!! d (arr !!! i) - 1]> c,
        <[c !!! d (arr !!! i) - 1 := arr !!! i]> out)) →
  (for_down (length arr) 0 step (c0, out0)).2 = buckets arr.
Proof.
  intros Hall Hlen0 Hc0 Hout0 Hstep.
  assert (Hd : ∀ i, i < length arr → d (arr !!! i) < K).
  { intros i Hi. rewrite Forall_forall in Hall. apply Hall.
    apply list_elem_of_lookup. exists i. by apply list_lookup_lookup_total_lt. }
  pose (J := λ (i : nat) (st : list nat * list A),
    length st.1 = K ∧ length st.2 = length arr ∧
    ∀ b, b < K →
      st.1 !!! b = below arr b + tally_of (take i arr) b ∧
      seg (st.1 !!! b) (below arr (S b)) st.2 = filter (λ x, d x = b) (drop i arr)).
  assert (J 0 (for_down (length arr) 0 step (c0, out0))) as (Hlc & Hlo & Hfin).
  { apply for_down_rule; [lia| |].
    - split; [done|]. split; [done|]. simpl. intros b Hb. split.
      + rewrite Hc0 by done. rewrite below_S, firstn_all. done.
      + rewrite drop_all. unfold seg. rewrite Hc0 by done.
        by rewrite Nat.sub_diag.
    - intros i [c out] Hi (Hlc & Hlo & HJ). simpl in Hlc, Hlo, HJ.
      rewrite Hstep by (done || lia). unfold J. simpl.
      split; [by rewrite length_insert|]. split; [by rewrite length_insert|].
      set (x := arr !!! i). set (b0 := d x).
      assert (b0 < K) as Hb0 by (apply Hd; lia).
      destruct (HJ b0 Hb0) as [Hc_b0 Hseg_b0].
      rewrite tally_of_take_S in Hc_b0 by lia. fold x in Hc_b0. fold b0 in Hc_b0.
      rewrite decide_True in Hc_b0 by done.
      pose proof (tally_of_take_le arr (S i) b0) as Hle.
      rewrite tally_of_take_S in Hle by lia. fold x in Hle. fold b0 in Hle.
      rewrite decide_True in Hle by done.
      pose proof (below_S arr b0) as HbS.
      pose proof (below_mono arr (S b0) K ltac:(lia)) as HbK.
      rewrite (below_all arr Hall) in HbK.
      intros b Hb. destruct (decide (b = b0)) as [->|Hne].
      + rewrite list_lookup_total_insert_eq by lia. split; [lia|].
        rewrite seg_insert_head by lia.
        replace (S (c !!! b0 - 1)) with (c !!! b0) by lia. rewrite Hseg_b0.
        rewrite (drop_S arr x i) by (apply list_lookup_lookup_total_lt; lia).
        by rewrite filter_cons_True.
      + rewrite list_lookup_total_insert_ne by done.
        destruct (HJ b Hb) as [Hc_b Hseg_b].
        rewrite tally_of_take_S in Hc_b by lia. fold x in Hc_b. fold b0 in Hc_b.
        rewrite decide_False in Hc_b by done.
        split; [lia|].
        pose proof (below_S arr b) as HbS'.
        pose proof (below_mono arr (S b) K ltac:(lia)) as HbK'.
        rewrite (below_all arr Hall) in HbK'.
        rewrite seg_insert_outside; [|..|lia].
        * rewrite Hseg_b.
          rewrite (drop_S arr x i) by (apply list_lookup_lookup_total_lt; lia).
          by rewrite filter_cons_False.
        * destruct (decide (b < b0)).
          -- right. pose proof (below_mono arr (S b) b0 ltac:(lia)). lia.
          -- left. pose proof (below_mono arr (S b0) b ltac:(lia)). lia. }
  destruct (for_down (length arr) 0 step (c0, out0)) as [c out]. simpl in *.
  assert (Hupto : ∀ m, m ≤ K → seg 0 (below arr m) out = buckets_upto arr m).
  { induction m as [|m IH]; intros Hm.
    - unfold below. rewrite filter_none by (intros; lia). done.
    - rewrite (seg_split 0 (below arr m) (below arr (S m)));
        [|lia|apply below_mono; lia].
      rewrite IH by lia. rewrite buckets_upto_S. f_equal.
      destruct (Hfin m ltac:(lia)) as [Hc Hseg].
      rewrite take_0 in Hc. unfold tally_of in Hc at 1. simpl in Hc.
      rewrite Nat.add_0_r in Hc. by rewrite <- Hc, Hseg. }
  unfold buckets. rewrite <- Hupto by done.
  rewrite (below_all arr Hall), <- Hlo. by rewrite seg_whole.
Qed.
End Distribution.

(** * Composing stable passes (least significant digit first) *)

Section Passes.
Context {A : Type}.
Implicit Types f g : A → Z.

Lemma sorted_by_filter f (P : A → Prop) `{!∀ x, Decision (P x)} (l : list A) :
  sorted_by f l → sorted_by f (filter P l).
Proof.
  induction 1 as [|x l Hs IH Hall]; [constructor|].
  rewrite filter_cons. case_decide; [|done]. constructor; [done|].
  rewrite Forall_forall in *. intros y [_ Hy]%list_elem_of_filter. by apply Hall.
Qed.

Lemma sorted_by_ext f g (l : list A) :
  (∀ x, x ∈ l → f x = g x) → sorted_by f l → sorted_by g l.
Proof.
  intros Hext. apply StronglySorted_weaken. intros x y Hx Hy. unfold key_le.
  by rewrite !Hext.
Qed.

Lemma stable_by_ext f g (l l' : list A) :
  l' ≡ₚ l → (∀ x, x ∈ l → f x = g x) → stable_by f l l' → stable_by g l l'.
Proof.
  intros Hp Hext Hst k.
  trans (filter (λ x, f x = k) l').
  { apply filter_ext_elem. intros x Hx. rewrite Hext; [done|]. by rewrite <- Hp. }
  rewrite Hst. apply filter_ext_elem. intros x Hx. by rewrite Hext.
Qed.

(** A list sorted on [g] whose runs of equal [g] are sorted on [f2] is
    sorted on any key [f] that orders by [g] first and by [f2] next. *)
Lemma sorted_by_refine g f2 f (l : list A) :
  sorted_by g l →
  (∀ k, sorted_by f2 (filter (λ x, g x = k) l)) →
  (∀ x y, x ∈ l → y ∈ l → (g x < g y)%Z → (f x ≤ f y)%Z) →
  (∀ x y, x ∈ l → y ∈ l → g x = g y → (f2 x ≤ f2 y)%Z → (f x ≤ f y)%Z) →
  sorted_by f l.
Proof.
  induction 1 as [|x l Hs IH Hall]; intros Hruns Hlt Heq; [constructor|].
  constructor.
  - apply IH.
    + intros k. specialize (Hruns k). rewrite filter_cons in Hruns.
      case_decide; [|done]. by apply StronglySorted_inv in Hruns as [? _].
    + intros y z Hy Hz. apply Hlt; by right.
    + intros y z Hy Hz. apply Heq; by right.
  - rewrite Forall_forall in *. intros y Hy. specialize (Hall y Hy).
    unfold key_le in *.
    destruct (decide (g x = g y)) as [Hg|Hg].
    + apply Heq; [by left|by right|done|].
      specialize (Hruns (g x)). rewrite filter_cons_True in Hruns by done.
      apply StronglySorted_inv in Hruns as [_ Hruns].
      rewrite Forall_forall in Hruns. apply Hruns.
      apply list_elem_of_filter. done.
    + apply Hlt; [by left|by right|lia].
Qed.

(** One more pass of a least-significant-digit-first sort: [l1] is [l0]
    stably sorted on the low key [f2], [l2] is [l1] stably sorted on the
    next digit [g]; then [l2] is [l0] stably sorted on the combined key
    [f]. *)
Lemma lsd_step f2 g f (G F2 : Z → Z) (l0 l1 l2 : list A) :
  l1 ≡ₚ l0 → l2 ≡ₚ l1 →
  sorted_by f2 l1 → stable_by f2 l0 l1 →
  sorted_by g l2 → stable_by g l1 l2 →
  (∀ x, x ∈ l0 → g x = G (f x) ∧ f2 x = F2 (f x)) →
  (∀ x y, x ∈ l0 → y ∈ l0 → (g x < g y)%Z → (f x ≤ f y)%Z) →
  (∀ x y, x ∈ l0 → y ∈ l0 → g x = g y → (f2 x ≤ f2 y)%Z → (f x ≤ f y)%Z) →
  sorted_by f l2 ∧ stable_by f l0 l2.
Proof.
  intros Hp1 Hp2 Hs1 Hst1 Hs2 Hst2 Hdet Hlt Heq. split.
  - apply (sorted_by_refine g f2); [done|..].
    + intros k. rewrite Hst2. by apply sorted_by_filter.
    + intros x y Hx Hy. rewrite Hp2, Hp1 in Hx, Hy. by apply Hlt.
    + intros x y Hx Hy. rewrite Hp2, Hp1 in Hx, Hy. by apply Heq.
  - intros k.
    rewrite <- (filter_filter_elem (λ x, f x = k) (λ x, g x = G k) l2).
    2:{ intros x Hx <-. rewrite Hp2, Hp1 in Hx. by apply Hdet. }
    rewrite Hst2.
    rewrite (filter_filter_elem (λ x, f x = k) (λ x, g x = G k) l1).
    2:{ intros x Hx <-. rewrite Hp1 in Hx. by apply Hdet. }
    rewrite <- (filter_filter_elem (λ x, f x = k) (λ x, f2 x = F2 k) l1).
    2:{ intros x Hx <-. rewrite Hp1 in Hx. by apply Hdet. }
    rewrite Hst1.
    apply filter_filter_elem. intros x Hx <-. by apply Hdet.
Qed.
End Passes.

(** * Machine integers *)

(** The value of an [int] computation, wrapped around to 32 bits (two's
    complement). *)
Definition wrap32 (z : Z) : Z := ((z + 2 ^ 31) `mod` 2 ^ 32 - 2 ^ 31)%Z.

(** * LSD radix sort (radix_sort.c) *)

Module RadixSort.

(** [#define RADIX 10] *)
Definition RADIX : nat := 10.

Section RadixSort.
Context {A : Type} `{!Inhabited A} (key : A → Z).

(** [ok n] tells whether the [n]-th call of [malloc] succeeds. *)
Variable ok : nat → bool.

(** [int find_max(const int arr[], int size)] *)
Definition find_max (arr : list A) (size : nat) : Z :=
  for_up 1 size
    (λ max i, if decide (key (arr !!! i) > max)%Z then key (arr !!! i) else max)
    (key (arr !!! 0)).

(** [(v / exp) % RADIX], used as an index into [count].  C division
    truncates ([Z.quot], [Z.rem]); a negative index is out of the bounds of
    [count], which the non-negative inputs of the function exclude. *)
Definition digit (v exp : Z) : nat :=
  Z.to_nat (Z.rem (Z.quot v exp) (Z.of_nat RADIX)).

(** [void counting_sort_by_digit(int arr[], int size, int exp)], started
    when [n] allocations have been made.  When [malloc] fails the function
    prints a message and returns. *)
Definition counting_sort_by_digit (arr : list A) (size : nat) (exp : Z) (n : nat)
  : list A * nat :=
  if ok n then
    let output := replicate size inhabitant in
    let count := replicate RADIX 0 in
    let count :=
      for_up 0 size (λ count i,
        let digit := digit (key (arr !!! i)) exp in
        <[digit := S (count !!! digit)]> count) count in
    let count :=
      for_up 1 RADIX (λ count i, <[i := count !!! i + count !!! (i - 1)]> count)
        count in
    let '(count, output) :=
      for_down size 0 (λ '(count, output) i,
        let digit := digit (key (arr !!! i)) exp in
        let count := <[digit := count !!! digit - 1]> count in
        (count, <[count !!! digit := arr !!! i]> output)) (count, output) in
    (* memcpy(arr, output, size * sizeof(int)) *)
    (take size output ++ drop size arr, S n)
  else (arr, S n).

(** The loop [for (int exp = 1; max / exp > 0; exp *= RADIX)] of
    [radix_sort], on the state [(arr, exp, n)]. *)
Definition pass_cond (max : Z) (st : list A * Z * nat) : bool :=
  let '(arr, exp, n) := st in bool_decide (Z.quot max exp > 0)%Z.

(** The body of the loop, followed by [exp *= RADIX].  The product is an
    [int] expression: when it exceeds [INT_MAX] the run has no result. *)
Definition pass_body (size : nat) (st : list A * Z * nat)
  : option (list A * Z * nat) :=
  let '(arr, exp, n) := st in
  let '(arr, n) := counting_sort_by_digit arr size exp n in
  exp ← int_value (exp * Z.of_nat RADIX);
  Some (arr, exp, n).

(** [void radix_sort(int arr[], int size)].  The result is [None] when the
    loop has not ended within [fuel] passes, or when [exp *= RADIX] has
    overflowed. *)
Definition radix_sort (fuel : nat) (arr : list A) (size : nat) (n : nat)
  : option (list A * nat) :=
  if decide (size ≤ 1) then Some (arr, n)
  else
    let max := find_max arr size in
    '(arr, _, n) ← whileM fuel (pass_cond max) (pass_body size) (arr, 1%Z, n);
    Some (arr, n).

(** ** One pass *)

Lemma digit_lt v exp : digit v exp < RADIX.
Proof.
  unfold digit, RADIX.
  pose proof (Z.rem_bound_abs (Z.quot v exp) 10 ltac:(done)). lia.
Qed.

Lemma digit_nonneg v exp :
  (0 ≤ v)%Z → (0 < exp)%Z → Z.of_nat (digit v exp) = ((v / exp) `mod` 10)%Z.
Proof.
  intros Hv He. unfold digit, RADIX.
  rewrite Z.quot_div_nonneg by lia.
  assert (0 ≤ v / exp)%Z by (apply Z.div_pos; lia).
  rewrite Z.rem_mod_nonneg by lia.
  pose proof (Z.mod_pos_bound (v / exp) 10 ltac:(done)). lia.
Qed.

Lemma counting_sort_by_digit_spec arr exp n :
  counting_sort_by_digit arr (length arr) exp n
  = (if ok n then buckets (λ x, digit (key x) exp) RADIX arr else arr, S n).
Proof.
  unfold counting_sort_by_digit. destruct (ok n); [|done].
  set (d := λ x, digit (key x) exp).
  assert (Hall : Forall (λ x, d x < RADIX) arr).
  { apply Forall_forall. intros x _. apply digit_lt. }
  destruct (tally_loop d RADIX arr (length arr) ltac:(done)) as [Hl1 Hc1].
  rewrite firstn_all in Hc1.
  set (c1 := for_up 0 _ _ _) in *.
  destruct (prefix_loop d RADIX arr c1) as [Hl2 Hc2]; [unfold RADIX; lia|done..|].
  set (c2 := for_up 1 _ _ _) in *.
  pose proof (place_loop d RADIX arr
    (λ '(count, output) i,
       let digit := digit (key (arr !!! i)) exp in
       let count := <[digit := count !!! digit - 1]> count in
       (count, <[count !!! digit := arr !!! i]> output))
    c2 (replicate (length arr) inhabitant)) as Hplace.
  cbv zeta. cbv zeta in Hplace.
  destruct (for_down (length arr) 0 _ _) as [c3 out] eqn:Hfd.
  simpl in Hplace. rewrite Hplace.
  - f_equal. rewrite drop_all, app_nil_r. apply take_ge.
    by rewrite (Permutation_length (buckets_Permutation d RADIX arr Hall)).
  - done.
  - done.
  - done.
  - by rewrite length_replicate.
  - intros c o i Hlen Hi. f_equal.
    rewrite list_lookup_total_insert_eq; [done|].
    rewrite Hlen. apply digit_lt.
Qed.

(** ** The digit passes *)

(** The value of [exp] at the [q]-th evaluation of the loop test. *)
Definition exp_at (q : nat) : Z := (10 ^ Z.of_nat q)%Z.

Lemma exp_at_pos q : (0 < exp_at q)%Z.
Proof. unfold exp_at. apply Z.pow_pos_nonneg; lia. Qed.

Lemma exp_at_S q : exp_at (S q) = (exp_at q * 10)%Z.
Proof. unfold exp_at. rewrite Nat2Z.inj_succ, Z.pow_succ_r by lia. lia. Qed.

Lemma exp_at_mono q q' : q ≤ q' → (exp_at q ≤ exp_at q')%Z.
Proof. intros. unfold exp_at. apply Z.pow_le_mono_r; lia. Qed.

(** [exp *= RADIX] fits in an [int] up to [10^9], and not after. *)
Lemma exp_at_next q : q ≤ 8 → int_value (exp_at q * Z.of_nat RADIX) = Some (exp_at (S q)).
Proof.
  intros Hq. rewrite exp_at_S. apply int_value_Some.
  pose proof (exp_at_pos q). pose proof (exp_at_mono (S q) 9 ltac:(lia)) as Hle.
  rewrite exp_at_S in Hle. change (exp_at 9) with 1000000000%Z in Hle.
  unfold RADIX, INT_MAX. lia.
Qed.

Lemma exp_at_overflow : int_value (exp_at 9 * Z.of_nat RADIX) = None.
Proof. by vm_compute. Qed.

(** The key the array is sorted on when the loop test is evaluated for the
    [q]-th time: the [q] low decimal digits. *)
Definition low_digits (q : nat) (x : A) : Z := (key x `mod` exp_at q)%Z.

(** The values for which the loop ends before [exp *= RADIX] overflows:
    those of at most nine decimal digits. *)
Definition in_range (x : A) : Prop := (0 ≤ key x < 10 ^ 9)%Z.

Lemma lsd_digit_facts (e k k' : Z) :
  (0 < e)%Z → (0 ≤ k)%Z → (0 ≤ k')%Z →
  let D := λ k, ((k / e) `mod` 10)%Z in
  D k = (((k `mod` (e * 10)) / e) `mod` 10)%Z ∧
  (k `mod` e = (k `mod` (e * 10)) `mod` e)%Z ∧
  ((D k < D k')%Z → (k `mod` (e * 10) ≤ k' `mod` (e * 10))%Z) ∧
  (D k = D k' → (k `mod` e ≤ k' `mod` e)%Z →
   (k `mod` (e * 10) ≤ k' `mod` (e * 10))%Z).
Proof.
  intros He Hk Hk' D. unfold D.
  rewrite !(Z.rem_mul_r _ e 10) by lia.
  pose proof (Z.mod_pos_bound k e He). pose proof (Z.mod_pos_bound k' e He).
  pose proof (Z.mod_pos_bound (k / e) 10 ltac:(done)).
  pose proof (Z.mod_pos_bound (k' / e) 10 ltac:(done)).
  set (lo := (k `mod` e)%Z) in *. set (lo' := (k' `mod` e)%Z) in *.
  set (dk := ((k / e) `mod` 10)%Z) in *. set (dk' := ((k' / e) `mod` 10)%Z) in *.
  split; [|split; [|split]].
  - rewrite (Z.mul_comm e dk), Z.div_add by lia.
    rewrite (Z.div_small lo e) by lia. simpl. symmetry. apply Z.mod_small. lia.
  - rewrite (Z.mul_comm e dk), Z.mod_add by lia. symmetry. apply Z.mod_small. lia.
  - intros. nia.
  - intros. nia.
Qed.

Lemma find_max_spec arr :
  0 < length arr →
  (∀ x, x ∈ arr → (key x ≤ find_max arr (length arr))%Z) ∧
  ∃ x, x ∈ arr ∧ key x = find_max arr (length arr).
Proof.
  intros Hlen. unfold find_max.
  pose (I := λ (i : nat) (m : Z),
    (∀ j, j < i → (key (arr !!! j) ≤ m)%Z) ∧ ∃ j, j < i ∧ key (arr !!! j) = m).
  assert (I (length arr) (for_up 1 (length arr)
    (λ max i, if decide (key (arr !!! i) > max)%Z then key (arr !!! i) else max)
    (key (arr !!! 0)))) as [Hle (j & Hj & Hmax)].
  { apply for_up_rule; [lia| |].
    - split; [|exists 0; split; [lia|done]].
      intros j Hj. by replace j with 0 by lia.
    - intros i m Hi [Hle (j & Hj & Hm)]. unfold I. case_decide.
      + split; [|exists i; split; [lia|done]].
        intros j' Hj'. destruct (decide (j' = i)) as [->|]; [done|].
        specialize (Hle j' ltac:(lia)). lia.
      + split; [|exists j; split; [lia|done]].
        intros j' Hj'. destruct (decide (j' = i)) as [->|]; [lia|].
        apply Hle. lia. }
  split.
  - intros x (i & Hi)%list_elem_of_lookup.
    rewrite <- (list_lookup_total_correct _ _ _ Hi). apply Hle.
    by apply lookup_lt_Some in Hi.
  - exists (arr !!! j). split; [|done]. apply list_elem_of_lookup. exists j.
    by apply list_lookup_lookup_total_lt.
Qed.

Definition all_ok : Prop := ∀ m, ok m = true.

(** What holds of the array [a] when the loop test is evaluated for the
    [q]-th time, [arr0] being the input of [radix_sort]. *)
Definition pass_inv (arr0 : list A) (q : nat) (a : list A) : Prop :=
  a ≡ₚ arr0 ∧
  (all_ok → sorted_by (low_digits q) a ∧ stable_by (low_digits q) arr0 a).

Lemma pass_step arr0 q a n :
  Forall (λ x, 0 ≤ key x)%Z arr0 →
  pass_inv arr0 q a →
  pass_inv arr0 (S q) (counting_sort_by_digit a (length arr0) (exp_at q) n).1.
Proof.
  intros Hrange [Hperm Hinv]. pose proof (exp_at_pos q) as He.
  rewrite <- (Permutation_length Hperm), counting_sort_by_digit_spec. simpl.
  set (e := exp_at q) in *. set (d := λ x, digit (key x) e).
  assert (Hall : Forall (λ x, d x < RADIX) a).
  { apply Forall_forall. intros x _. apply digit_lt. }
  destruct (ok n) eqn:Hokn.
  2:{ split; [done|]. intros Hok. rewrite Hok in Hokn. done. }
  split; [by rewrite buckets_Permutation|].
  intros Hok. destruct (Hinv Hok) as [Hs Hst].
  rewrite Forall_forall in Hrange.
  assert (Hg : ∀ x, x ∈ arr0 → Z.of_nat (d x) = ((key x / e) `mod` 10)%Z).
  { intros x Hx. apply digit_nonneg; [apply Hrange, Hx|done]. }
  assert (Hlo : ∀ x, low_digits q x = (key x `mod` e)%Z) by done.
  assert (Hhi : ∀ x, low_digits (S q) x = (key x `mod` (e * 10))%Z).
  { intros x. unfold low_digits. by rewrite exp_at_S. }
  apply (lsd_step (low_digits q) (λ x, Z.of_nat (d x)) (low_digits (S q))
           (λ c, ((c / e) `mod` 10)%Z) (λ c, (c `mod` e)%Z) arr0 a);
    [done|by apply buckets_Permutation|done|done|apply buckets_sorted
    |by apply buckets_stable|..].
  - intros x Hx. rewrite Hg, Hlo, Hhi by done.
    destruct (lsd_digit_facts e (key x) 0 He) as (? & ? & _);
      [apply Hrange, Hx|done|done].
  - intros x y Hx Hy. rewrite !Hg, !Hhi by done.
    destruct (lsd_digit_facts e (key x) (key y) He) as (_ & _ & ? & _);
      [apply Hrange, Hx|apply Hrange, Hy|done].
  - intros x y Hx Hy. rewrite !Hg, !Hlo, !Hhi by done.
    destruct (lsd_digit_facts e (key x) (key y) He) as (_ & _ & _ & ?);
      [apply Hrange, Hx|apply Hrange, Hy|done].
Qed.

(** The loop on values below [10^9]: it has ended when its test has been
    evaluated ten times, before [exp *= RADIX] can overflow. *)
Lemma pass_loop arr0 max k :
  Forall in_range arr0 →
  (0 ≤ max < 10 ^ 9)%Z → (∀ x, x ∈ arr0 → (key x ≤ max)%Z) →
  ∀ q a n fuel, q + k = 9 → k ≤ fuel → pass_inv arr0 q a →
  ∃ a' e' n',
    whileM fuel (pass_cond max) (pass_body (length arr0)) (a, exp_at q, n)
      = Some (a', e', n') ∧
    a' ≡ₚ arr0 ∧ (all_ok → sorted_by key a' ∧ stable_by key arr0 a').
Proof.
  intros Hrange Hmax0 Hmax.
  assert (Hnonneg : Forall (λ x, 0 ≤ key x)%Z arr0).
  { eapply Forall_impl; [done|]. by intros x [? _]. }
  assert (Hdone : ∀ q a, (Z.quot max (exp_at q) ≤ 0)%Z → pass_inv arr0 q a →
            a ≡ₚ arr0 ∧ (all_ok → sorted_by key a ∧ stable_by key arr0 a)).
  { intros q a Hq [Hperm Hinv]. split; [done|]. intros Hok.
    destruct (Hinv Hok) as [Hs Hst].
    assert (Hext : ∀ x, x ∈ arr0 → low_digits q x = key x).
    { intros x Hx. rewrite Forall_forall in Hrange.
      pose proof (exp_at_pos q) as He.
      rewrite Z.quot_div_nonneg in Hq by lia.
      assert (max < exp_at q)%Z.
      { destruct (decide (max < exp_at q)%Z); [done|].
        pose proof (Z.div_le_mono (exp_at q) max (exp_at q)
                      ltac:(lia) ltac:(lia)) as Hd.
        rewrite Z.div_same in Hd by lia. lia. }
      unfold low_digits. apply Z.mod_small.
      specialize (Hmax x Hx). destruct (Hrange x Hx). lia. }
    split.
    - apply (sorted_by_ext (low_digits q)); [|done].
      intros x Hx. apply Hext. by rewrite <- Hperm.
    - by apply (stable_by_ext (low_digits q)). }
  induction k as [|k IH]; intros q a n fuel Hqk Hfuel Hinv.
  - assert (q = 9) as -> by lia.
    assert (Hc : (Z.quot max (exp_at 9) ≤ 0)%Z).
    { change (exp_at 9) with (10 ^ 9)%Z. rewrite Z.quot_small; lia. }
    exists a, (exp_at 9), n. split; [|by apply (Hdone 9)].
    destruct fuel; cbn [whileM pass_cond]; by rewrite bool_decide_eq_false_2 by lia.
  - destruct (decide (Z.quot max (exp_at q) > 0)%Z) as [Hc|Hc].
    + destruct fuel as [|fuel]; [lia|]. cbn [whileM pass_cond].
      rewrite bool_decide_eq_true_2 by done. cbn [pass_body].
      pose proof (pass_step arr0 q a n Hnonneg Hinv) as Hstep.
      destruct (counting_sort_by_digit a (length arr0) (exp_at q) n)
        as [a1 n1] eqn:Hpass.
      simpl in Hstep. rewrite exp_at_next by lia. cbn [mbind option_bind].
      apply (IH (S q) a1 n1 fuel); [lia|lia|done].
    + exists a, (exp_at q), n. split; [|apply (Hdone q); [lia|done]].
      destruct fuel; cbn [whileM pass_cond]; by rewrite bool_decide_eq_false_2 by lia.
Qed.

Theorem radix_sort_spec arr n :
  Forall in_range arr →
  ∃ out n', (∀ fuel, 9 ≤ fuel →
               radix_sort fuel arr (length arr) n = Some (out, n')) ∧
    out ≡ₚ arr ∧ (all_ok → sorted_by key out ∧ stable_by key arr out).
Proof.
  intros Hrange. unfold radix_sort. case_decide as Hsize.
  { exists arr, n. split; [done|]. split; [done|]. intros _. split; [|done].
    destruct arr as [|x [|y arr]]; [repeat constructor..|simpl in Hsize; lia]. }
  destruct (find_max_spec arr) as [Hmax (x & Hx & Hxmax)]; [lia|].
  set (max := find_max arr (length arr)) in *.
  assert (0 ≤ max < 10 ^ 9)%Z as Hmax0.
  { rewrite Forall_forall in Hrange. destruct (Hrange x Hx). lia. }
  destruct (pass_loop arr max 9 Hrange Hmax0 Hmax 0 arr n 9)
    as (out & e' & n' & Hw & Hperm & Hs); [done|done| |].
  { split; [done|]. intros _. split; [|done].
    apply (sorted_by_ext (λ _, 0%Z)).
    - intros y Hy. unfold low_digits. change (exp_at 0) with 1%Z. by rewrite Z.mod_1_r.
    - clear. induction arr as [|y arr IH]; constructor; [done|].
      apply Forall_forall. intros z _. unfold key_le. done. }
  exists out, n'. split; [|done].
  intros fuel Hfuel. change (exp_at 0) with 1%Z in Hw.
  by rewrite (whileM_fuel_mono 9 fuel _ _ _ _ Hw Hfuel).
Qed.

(** ** Values from [10^9] on

    When the largest value has ten decimal digits, the loop test still holds
    at [exp = 10^9]; the pass for the tenth digit is made, and the
    [exp *= RADIX] that follows it overflows. *)

Lemma overflow_loop max size k :
  (10 ^ 9 ≤ max)%Z →
  ∀ q a n fuel, q + k = 9 →
    whileM fuel (pass_cond max) (pass_body size) (a, exp_at q, n) = None.
Proof.
  intros Hmax.
  assert (Hc : ∀ q, q ≤ 9 → (Z.quot max (exp_at q) > 0)%Z).
  { intros q Hq. pose proof (exp_at_pos q).
    pose proof (exp_at_mono q 9 Hq) as Hle. change (exp_at 9) with (10 ^ 9)%Z in Hle.
    rewrite Z.quot_div_nonneg by lia.
    pose proof (Z.div_le_mono (exp_at q) max (exp_at q) ltac:(lia) ltac:(lia)) as Hd.
    rewrite Z.div_same in Hd by lia. lia. }
  induction k as [|k IH]; intros q a n fuel Hqk.
  - assert (q = 9) as -> by lia.
    destruct fuel as [|fuel]; cbn [whileM pass_cond];
      rewrite bool_decide_eq_true_2 by (apply Hc; lia); [done|].
    cbn [pass_body]. destruct (counting_sort_by_digit a size (exp_at 9) n).
    by rewrite exp_at_overflow.
  - destruct fuel as [|fuel]; cbn [whileM pass_cond];
      rewrite bool_decide_eq_true_2 by (apply Hc; lia); [done|].
    cbn [pass_body]. destruct (counting_sort_by_digit a size (exp_at q) n) as [a1 n1].
    rewrite exp_at_next by lia. cbn [mbind option_bind].
    apply IH. lia.
Qed.

Theorem radix_sort_overflow arr fuel n x :
  1 < length arr → x ∈ arr → (10 ^ 9 ≤ key x)%Z →
  radix_sort fuel arr (length arr) n = None.
Proof.
  intros Hsize Hx Hbig. unfold radix_sort. rewrite decide_False by lia.
  destruct (find_max_spec arr) as [Hmax _]; [lia|].
  specialize (Hmax x Hx). cbv zeta.
  pose proof (overflow_loop (find_max arr (length arr)) (length arr) 9
                ltac:(lia) 0 arr n fuel eq_refl) as Hloop.
  change (exp_at 0) with 1%Z in Hloop. by rewrite Hloop.
Qed.
End RadixSort.
End RadixSort.

(** * Counting sort (counting_sort.c) *)

Module CountingSort.
Section CountingSort.

(** [ok n] tells whether the [n]-th allocation ([calloc] or [malloc])
    succeeds. *)
Variable ok : nat → bool.

(** [int find_max(const int arr[], int size)] *)
Definition find_max (arr : list Z) (size : nat) : Z :=
  for_up 1 size
    (λ max i, if decide (arr !!! i > max)%Z then arr !!! i else max)
    (arr !!! 0).

(** [int *count = calloc(nmemb, sizeof(int))] for an [int] expression
    [nmemb]: the conversion of a negative [nmemb] to [size_t] asks for more
    than the address space holds, and [calloc] returns [NULL]; otherwise the
    oracle decides. *)
Definition calloc_ok (nmemb : Z) (n : nat) : bool :=
  bool_decide (0 ≤ nmemb)%Z && ok n.

(** [void counting_sort(int arr[], int size)], started when [n] allocations
    have been made.  When an allocation fails the function prints a message
    and returns. *)
Definition counting_sort (arr : list Z) (size : nat) (n : nat) : list Z * nat :=
  if decide (size ≤ 1) then (arr, n)
  else
    let max := find_max arr size in
    let nmemb := wrap32 (max + 1) in
    if negb (calloc_ok nmemb n) then (arr, S n)
    else
      let count := replicate (Z.to_nat nmemb) 0 in
      let count :=
        for_up 0 size (λ count i,
          <[Z.to_nat (arr !!! i) := S (count !!! Z.to_nat (arr !!! i))]> count)
          count in
      (* for (int i = 1; i <= max; i++) *)
      let count :=
        for_up 1 (Z.to_nat (max + 1))
          (λ count i, <[i := count !!! i + count !!! (i - 1)]> count) count in
      if negb (ok (S n)) then (arr, S (S n))
      else
        let output := replicate size 0%Z in
        let '(count, output) :=
          for_down size 0 (λ '(count, output) i,
            let output :=
              <[count !!! Z.to_nat (arr !!! i) - 1 := arr !!! i]> output in
            (<[Z.to_nat (arr !!! i) := count !!! Z.to_nat (arr !!! i) - 1]> count,
             output)) (count, output) in
        (* memcpy(arr, output, size * sizeof(int)) *)
        (take size output ++ drop size arr, S (S n)).

Lemma counting_find_max_spec arr :
  0 < length arr →
  (∀ x, x ∈ arr → (x ≤ find_max arr (length arr))%Z) ∧
  find_max arr (length arr) ∈ arr.
Proof.
  intros Hlen.
  destruct (RadixSort.find_max_spec (λ x : Z, x) arr Hlen) as [Hle (x & Hx & Hmax)].
  split; [done|]. unfold find_max. unfold RadixSort.find_max in Hmax.
  by rewrite <- Hmax.
Qed.

Lemma wrap32_small z : (- 2 ^ 31 ≤ z ≤ INT_MAX)%Z → wrap32 z = z.
Proof.
  unfold wrap32, INT_MAX. intros Hz. rewrite Z.mod_small; lia.
Qed.

Lemma counting_sort_spec arr n :
  Forall (λ x, 0 ≤ x ≤ INT_MAX)%Z arr →
  ∃ out n', counting_sort arr (length arr) n = (out, n') ∧
    out ≡ₚ arr ∧
    (ok n = true → ok (S n) = true → Forall (λ x, x < INT_MAX)%Z arr →
     sorted_by (λ x, x) out ∧ stable_by (λ x, x) arr out).
Proof.
  intros Hpos. unfold counting_sort. case_decide as Hsize.
  { exists arr, n. split; [done|]. split; [done|]. intros _ _ _. split; [|done].
    destruct arr as [|x [|y arr]]; [repeat constructor..|simpl in Hsize; lia]. }
  destruct (counting_find_max_spec arr) as [Hmax Hin]; [lia|].
  set (max := find_max arr (length arr)) in *.
  rewrite Forall_forall in Hpos.
  assert (0 ≤ max)%Z as Hmax0 by by apply Hpos.
  destruct (calloc_ok (wrap32 (max + 1)) n) eqn:Hcalloc; simpl.
  2:{ exists arr, (S n). split; [done|]. split; [done|].
      intros Hok1 _ Hlt. rewrite Forall_forall in Hlt. specialize (Hlt max Hin).
      unfold calloc_ok in Hcalloc. rewrite Hok1, wrap32_small in Hcalloc.
      - rewrite bool_decide_eq_true_2 in Hcalloc by lia. done.
      - unfold INT_MAX in *. lia. }
  destruct (ok (S n)) eqn:Hok2; simpl.
  2:{ exists arr, (S (S n)). split; [done|]. split; [done|]. by intros _ ?. }
  (* both allocations have succeeded *)
  unfold calloc_ok in Hcalloc. apply andb_true_iff in Hcalloc as [Hnm Hok1].
  apply bool_decide_eq_true in Hnm.
  destruct (decide (max < INT_MAX)%Z) as [Hlt|Hge].
  - rewrite wrap32_small by (unfold INT_MAX in *; lia).
    set (K := Z.to_nat (max + 1)).
    assert (Hall : Forall (λ x, Z.to_nat x < K) arr).
    { apply Forall_forall. intros x Hx. specialize (Hmax x Hx).
      specialize (Hpos x Hx). unfold K. lia. }
    destruct (tally_loop Z.to_nat K arr (length arr) ltac:(done)) as [Hl1 Hc1].
    rewrite firstn_all in Hc1.
    set (c1 := for_up 0 _ _ _) in *.
    destruct (prefix_loop Z.to_nat K arr c1) as [Hl2 Hc2]; [unfold K; lia|done..|].
    set (c2 := for_up 1 _ _ _) in *.
    pose proof (place_loop Z.to_nat K arr
      (λ '(count, output) i,
         let output :=
           <[count !!! Z.to_nat (arr !!! i) - 1 := arr !!! i]> output in
         (<[Z.to_nat (arr !!! i) := count !!! Z.to_nat (arr !!! i) - 1]> count,
          output))
      c2 (replicate (length arr) 0%Z) Hall Hl2 Hc2) as Hplace.
    cbv zeta. cbv zeta in Hplace.
    destruct (for_down (length arr) 0 _ _) as [c3 out] eqn:Hfd.
    simpl in Hplace. rewrite Hplace; [|by rewrite length_replicate|done].
    rewrite drop_all, app_nil_r, take_ge.
    2:{ by rewrite (Permutation_length (buckets_Permutation Z.to_nat K arr Hall)). }
    eexists _, _. split; [done|]. split; [by apply buckets_Permutation|].
    intros _ _ _. split.
    + apply (sorted_by_ext (λ x, Z.of_nat (Z.to_nat x))); [|apply buckets_sorted].
      intros x Hx. rewrite buckets_Permutation in Hx by done.
      specialize (Hpos x Hx). lia.
    + apply (stable_by_ext (λ x, Z.of_nat (Z.to_nat x)));
        [by apply buckets_Permutation| |by apply buckets_stable].
      intros x Hx. specialize (Hpos x Hx). lia.
  - (* max = INT_MAX: the wrapped [max + 1] is negative *)
    exfalso. assert (max = INT_MAX) as Heq by (specialize (Hpos max Hin); lia).
    rewrite Heq in Hnm. by vm_compute in Hnm.
Qed.
End CountingSort.
End CountingSort.

(** * Value-partitioning ("functional") quicksort (quicksort.c)

    [quicksort_functional] returns a buffer it allocates and frees the
    buffers of its partitions, so it is modelled on a heap of blocks. *)

Module QuicksortFunctional.

(** The outcome of a run: a value, a fault (a dereference of [NULL] or of a
    freed or too short block), or fuel running out. *)
Inductive result (T : Type) : Type :=
  | Done (x : T)
  | Fault
  | Timeout.
Arguments Done {T} x.
Arguments Fault {T}.
Arguments Timeout {T}.

Section QuicksortFunctional.
Context {A : Type} `{!Inhabited A} (key : A → Z).

(** [ok n] tells whether the [n]-th call of [malloc] succeeds. *)
Variable ok : nat → bool.

(** The heap: the live blocks by address, and the number of [malloc] calls
    made so far, which is also the next address: an address is never used
    again. *)
Record heap : Type := Heap { blocks : gmap nat (list A); next : nat }.

(** A pointer to the start of a block, [None] is [NULL]. *)
Definition ptr : Type := option nat.

Definition M (T : Type) : Type := heap → result (T * heap).

#[local] Instance M_ret : MRet M := λ T x h, Done (x, h).

#[local] Instance M_bind : MBind M := λ T U k m h,
  match m h with
  | Done (x, h') => k x h'
  | Fault => Fault
  | Timeout => Timeout
  end.

(** [malloc(size * sizeof(int))]: the block is not initialised. *)
Definition malloc (size : nat) : M ptr :=
  λ h, let a := next h in
       if ok a
       then Done (Some a, Heap (<[a := replicate size inhabitant]> (blocks h)) (S a))
       else Done (None, Heap (blocks h) (S a)).

(** [free(p)]; [free(NULL)] does nothing. *)
Definition free (p : ptr) : M unit :=
  λ h, match p with
       | None => Done (tt, h)
       | Some a =>
         match blocks h !! a with
         | Some _ => Done (tt, Heap (delete a (blocks h)) (next h))
         | None => Fault
         end
       end.

(** [p[i]] *)
Definition load (p : ptr) (i : nat) : M A :=
  λ h, match p with
       | None => Fault
       | Some a =>
         match blocks h !! a with
         | Some l => match l !! i with Some x => Done (x, h) | None => Fault end
         | None => Fault
         end
       end.

(** [p[i] = v] *)
Definition store (p : ptr) (i : nat) (v : A) : M unit :=
  λ h, match p with
       | None => Fault
       | Some a =>
         match blocks h !! a with
         | Some l =>
           if decide (i < length l)
           then Done (tt, Heap (<[a := <[i := v]> l]> (blocks h)) (next h))
           else Fault
         | None => Fault
         end
       end.

(** [for (int i = lo; i < hi; i++) s = body s i] *)
Definition for_upM {St} (lo hi : nat) (body : St → nat → M St) (s : St) : M St :=
  foldl (λ acc i, s ← acc; body s i) (mret s) (seq lo (hi - lo)).

(** [memcpy(dst, src, size * sizeof(int))] *)
Definition memcpy (dst src : ptr) (size : nat) : M unit :=
  for_upM 0 size (λ _ i, x ← load src i; store dst i x) tt.

(** The copy loops of [merge_arrays]:
    [for (int i = 0; i < size; i++) result[idx++] = arr[i];] *)
Definition append_loop (result : ptr) (idx : nat) (arr : ptr) (size : nat) : M nat :=
  for_upM 0 size (λ idx i, x ← load arr i; _ ← store result idx x; mret (S idx)) idx.

(** [int* merge_arrays(int* arr1, int size1, int* arr2, int size2,
                       int* arr3, int size3)] *)
Definition merge_arrays (arr1 : ptr) (size1 : nat) (arr2 : ptr) (size2 : nat)
    (arr3 : ptr) (size3 : nat) : M ptr :=
  let total_size := size1 + size2 + size3 in
  result ← malloc total_size;
  if result is None then mret None
  else
    idx ← append_loop result 0 arr1 size1;
    idx ← append_loop result idx arr2 size2;
    idx ← append_loop result idx arr3 size3;
    mret result.

(** The counting loop of [quicksort_functional], on the state
    [(less_count, equal_count, greater_count)]. *)
Definition count_body (arr : ptr) (pivot : Z) (st : nat * nat * nat) (i : nat)
  : M (nat * nat * nat) :=
  let '(less_count, equal_count, greater_count) := st in
  x ← load arr i;
  if decide (key x < pivot)%Z then mret (S less_count, equal_count, greater_count)
  else if decide (key x = pivot) then mret (less_count, S equal_count, greater_count)
  else mret (less_count, equal_count, S greater_count).

(** The filling loop, on the state [(less_idx, equal_idx, greater_idx)]. *)
Definition fill_body (arr less equal greater : ptr) (pivot : Z)
    (st : nat * nat * nat) (i : nat) : M (nat * nat * nat) :=
  let '(less_idx, equal_idx, greater_idx) := st in
  x ← load arr i;
  if decide (key x < pivot)%Z then
    _ ← store less less_idx x; mret (S less_idx, equal_idx, greater_idx)
  else if decide (key x = pivot) then
    _ ← store equal equal_idx x; mret (less_idx, S equal_idx, greater_idx)
  else
    _ ← store greater greater_idx x; mret (less_idx, equal_idx, S greater_idx).

Definition is_null (p : ptr) : bool := if p is None then true else false.

(** [int* quicksort_functional(int arr[], int size)] *)
Fixpoint quicksort_functional (fuel : nat) (arr : ptr) (size : nat) : M ptr :=
  if decide (size ≤ 1) then
    result ← malloc size;
    if is_null result then mret None
    else
      _ ← memcpy result arr size;
      mret result
  else
    match fuel with
    | O => (λ _, Timeout) : M ptr
    | S fuel =>
      x ← load arr (size / 2);
      let pivot := key x in
      '(less_count, equal_count, greater_count) ←
        for_upM 0 size (count_body arr pivot) (0, 0, 0);
      less ← malloc less_count;
      equal ← malloc equal_count;
      greater ← malloc greater_count;
      if bool_decide (0 < less_count) && is_null less
         || bool_decide (0 < equal_count) && is_null equal
         || bool_decide (0 < greater_count) && is_null greater
      then
        _ ← free less;
        _ ← free equal;
        _ ← free greater;
        mret None
      else
        _ ← for_upM 0 size (fill_body arr less equal greater pivot) (0, 0, 0);
        sorted_less ← quicksort_functional fuel less less_count;
        sorted_greater ← quicksort_functional fuel greater greater_count;
        result ← merge_arrays sorted_less less_count equal equal_count
                   sorted_greater greater_count;
        _ ← free less;
        _ ← free equal;
        _ ← free greater;
        _ ← (if decide (sorted_less ≠ less) then free sorted_less else mret tt);
        _ ← (if decide (sorted_greater ≠ greater) then free sorted_greater
             else mret tt);
        mret result
    end.


(** ** Running the operations *)

Lemma run_bind {T U} (m : M T) (k : T → M U) h x h' :
  m h = Done (x, h') → (m ≫= k) h = k x h'.
Proof. unfold mbind, M_bind. by intros ->. Qed.

Lemma run_ret {T} (x : T) h : mret (M:=M) x h = Done (x, h).
Proof. done. Qed.

Lemma malloc_run size h :
  malloc size h =
    if ok (next h)
    then Done (Some (next h),
               Heap (<[next h := replicate size inhabitant]> (blocks h)) (S (next h)))
    else Done (None, Heap (blocks h) (S (next h))).
Proof. done. Qed.

Lemma load_run a i h l x :
  blocks h !! a = Some l → l !! i = Some x → load (Some a) i h = Done (x, h).
Proof. unfold load. by intros -> ->. Qed.

Lemma store_run a i v h l :
  blocks h !! a = Some l → i < length l →
  store (Some a) i v h = Done (tt, Heap (<[a := <[i := v]> l]> (blocks h)) (next h)).
Proof. unfold store. intros -> ?. by rewrite decide_True. Qed.

Lemma free_run a h l :
  blocks h !! a = Some l →
  free (Some a) h = Done (tt, Heap (delete a (blocks h)) (next h)).
Proof. unfold free. by intros ->. Qed.

Lemma for_upM_rule {St} (I : nat → St → heap → Prop) lo hi
    (body : St → nat → M St) s h :
  lo ≤ hi →
  I lo s h →
  (∀ j s h, lo ≤ j < hi → I j s h →
            ∃ s' h', body s j h = Done (s', h') ∧ I (S j) s' h') →
  ∃ s' h', for_upM lo hi body s h = Done (s', h') ∧ I hi s' h'.
Proof.
  intros Hle H0 Hstep. unfold for_upM.
  assert (Hgen : ∀ n, lo + n ≤ hi →
            ∃ s' h', foldl (λ acc i, s ← acc; body s i) (mret s) (seq lo n) h
                     = Done (s', h') ∧ I (lo + n) s' h').
  { induction n as [|n IH]; intros Hn.
    - simpl. exists s, h. split; [done|]. by rewrite Nat.add_0_r.
    - rewrite seq_S, foldl_snoc.
      destruct IH as (s1 & h1 & Hrun & HI); [lia|].
      rewrite (run_bind _ _ _ _ _ Hrun).
      replace (lo + S n) with (S (lo + n)) by lia. apply Hstep; [lia|done]. }
  specialize (Hgen (hi - lo)). replace (lo + (hi - lo)) with hi in Hgen by lia.
  apply Hgen. lia.
Qed.

(** ** The loops of [quicksort_functional] *)

Definition lt_pivot (pivot : Z) (x : A) : Prop := (key x < pivot)%Z.
Definition eq_pivot (pivot : Z) (x : A) : Prop := key x = pivot.
Definition gt_pivot (pivot : Z) (x : A) : Prop := (pivot < key x)%Z.

#[local] Instance lt_pivot_dec pivot x : Decision (lt_pivot pivot x).
Proof. unfold lt_pivot. apply _. Defined.
#[local] Instance eq_pivot_dec pivot x : Decision (eq_pivot pivot x).
Proof. unfold eq_pivot. apply _. Defined.
#[local] Instance gt_pivot_dec pivot x : Decision (gt_pivot pivot x).
Proof. unfold gt_pivot. apply _. Defined.

Lemma filter_take_S (P : A → Prop) `{!∀ x, Decision (P x)} (l : list A) i x :
  l !! i = Some x →
  filter P (take (S i) l) = filter P (take i l) ++ (if decide (P x) then [x] else []).
Proof.
  intros Hx. rewrite (take_S_r l i x) by done. rewrite filter_app.
  by f_equal.
Qed.

Lemma count_loop a pivot h l :
  blocks h !! a = Some l →
  for_upM 0 (length l) (count_body (Some a) pivot) (0, 0, 0) h
  = Done ((length (filter (lt_pivot pivot) l),
           length (filter (eq_pivot pivot) l),
           length (filter (gt_pivot pivot) l)), h).
Proof.
  intros Ha.
  destruct (for_upM_rule
    (λ i st h', h' = h ∧
       st = (length (filter (lt_pivot pivot) (take i l)),
             length (filter (eq_pivot pivot) (take i l)),
             length (filter (gt_pivot pivot) (take i l))))
    0 (length l) (count_body (Some a) pivot) (0, 0, 0) h)
    as (st & h' & Hrun & -> & ->); [lia|done| |by rewrite firstn_all in Hrun].
  intros j st h' Hj [-> ->].
  destruct (lookup_lt_is_Some_2 l j ltac:(lia)) as [x Hx].
  unfold count_body. rewrite (run_bind _ _ _ _ _ (load_run a j h l x Ha Hx)).
  rewrite !(filter_take_S _ l j x Hx), !length_app.
  unfold lt_pivot, eq_pivot, gt_pivot.
  eexists _, h. split; [|split; [done|reflexivity]].
  repeat case_decide; try lia; rewrite run_ret; simpl; do 2 f_equal;
    repeat f_equal; lia.
Qed.

Lemma length_filter_take (P : A → Prop) `{!∀ x, Decision (P x)} (l : list A) i :
  length (filter P (take i l)) ≤ length (filter P l).
Proof.
  rewrite <- (take_drop i l) at 2. rewrite filter_app, length_app. lia.
Qed.

Lemma take_insert_snoc (l : list A) i x :
  i < length l → take (S i) (<[i := x]> l) = take i l ++ [x].
Proof.
  intros Hi. rewrite (take_S_r _ i x) by by apply list_lookup_insert_eq.
  by rewrite take_insert_ge by lia.
Qed.

(** The blocks [B] with the three partition buffers added. *)
Definition with_parts (B : gmap nat (list A)) (le e g : nat) (L E G : list A)
  : gmap nat (list A) :=
  <[g := G]> (<[e := E]> (<[le := L]> B)).

Lemma fill_loop p le e g pivot h l B L0 E0 G0 :
  blocks h = with_parts B le e g L0 E0 G0 →
  B !! p = Some l →
  p ≠ le → p ≠ e → p ≠ g → le ≠ e → le ≠ g → e ≠ g →
  length L0 = length (filter (lt_pivot pivot) l) →
  length E0 = length (filter (eq_pivot pivot) l) →
  length G0 = length (filter (gt_pivot pivot) l) →
  ∃ st, for_upM 0 (length l)
          (fill_body (Some p) (Some le) (Some e) (Some g) pivot) (0, 0, 0) h
        = Done (st, Heap (with_parts B le e g (filter (lt_pivot pivot) l)
                            (filter (eq_pivot pivot) l) (filter (gt_pivot pivot) l))
                      (next h)).
Proof.
  intros Hh Hp Hple Hpe Hpg Hlee Hleg Heg HL0 HE0 HG0.
  set (Fl := λ i, filter (lt_pivot pivot) (take i l)).
  set (Fe := λ i, filter (eq_pivot pivot) (take i l)).
  set (Fg := λ i, filter (gt_pivot pivot) (take i l)).
  destruct (for_upM_rule
    (λ i st h', next h' = next h ∧
       st = (length (Fl i), length (Fe i), length (Fg i)) ∧
       ∃ L E G, blocks h' = with_parts B le e g L E G ∧
         length L = length L0 ∧ length E = length E0 ∧ length G = length G0 ∧
         take (length (Fl i)) L = Fl i ∧ take (length (Fe i)) E = Fe i ∧
         take (length (Fg i)) G = Fg i)
    0 (length l) (fill_body (Some p) (Some le) (Some e) (Some g) pivot) (0, 0, 0) h)
    as (st & h' & Hrun & Hnext & -> & L & E & G & Hb & HlL & HlE & HlG & HL & HE & HG).
  - lia.
  - split; [done|]. split; [done|]. exists L0, E0, G0. by rewrite take_0.
  - intros j st h' Hj (Hnext & -> & L & E & G & Hb & HlL & HlE & HlG & HL & HE & HG).
    destruct (lookup_lt_is_Some_2 l j ltac:(lia)) as [x Hx].
    assert (blocks h' !! p = Some l) as Hbp.
    { rewrite Hb. unfold with_parts. by rewrite !lookup_insert_ne by done. }
    assert (blocks h' !! le = Some L) as Hble.
    { rewrite Hb. unfold with_parts.
      rewrite !lookup_insert_ne by done. by rewrite lookup_insert_eq. }
    assert (blocks h' !! e = Some E) as Hbe.
    { rewrite Hb. unfold with_parts.
      rewrite lookup_insert_ne by done. by rewrite lookup_insert_eq. }
    assert (blocks h' !! g = Some G) as Hbg.
    { rewrite Hb. unfold with_parts. by rewrite lookup_insert_eq. }
    pose proof (length_filter_take (lt_pivot pivot) l (S j)) as HbL.
    pose proof (length_filter_take (eq_pivot pivot) l (S j)) as HbE.
    pose proof (length_filter_take (gt_pivot pivot) l (S j)) as HbG.
    unfold Fl, Fe, Fg in *.
    rewrite !(filter_take_S _ l j x Hx), ?length_app in *.
    unfold fill_body. rewrite (run_bind _ _ _ _ _ (load_run p j h' l x Hbp Hx)).
    destruct (decide (key x < pivot)%Z) as [Hlt|Hlt];
      [|destruct (decide (key x = pivot)) as [Heq|Heq]].
    + rewrite (decide_True (P:=lt_pivot pivot x)),
        (decide_False (P:=eq_pivot pivot x)), (decide_False (P:=gt_pivot pivot x))
        in * by (unfold lt_pivot, eq_pivot, gt_pivot; lia).
      simpl in HbL. rewrite !app_nil_r, ?Nat.add_0_r in *.
      erewrite run_bind; [|apply (store_run le _ x h' L Hble); lia].
      rewrite run_ret. eexists _, _. split; [done|]. simpl.
      split; [done|]. split; [do 2 f_equal; simpl; lia|].
      exists (<[length (filter (lt_pivot pivot) (take j l)) := x]> L), E, G.
      split.
      { rewrite Hb. unfold with_parts.
        rewrite (insert_insert_ne _ le g), (insert_insert_ne _ le e) by done.
        by rewrite insert_insert_eq. }
      rewrite length_insert. do 3 (split; [done|]). split; [|done].
      replace (length (filter (lt_pivot pivot) (take j l)) + length [x])
        with (S (length (filter (lt_pivot pivot) (take j l)))) by (simpl; lia).
      rewrite take_insert_snoc by lia. by rewrite HL.
    + rewrite (decide_False (P:=lt_pivot pivot x)),
        (decide_True (P:=eq_pivot pivot x)), (decide_False (P:=gt_pivot pivot x))
        in * by (unfold lt_pivot, eq_pivot, gt_pivot; lia).
      simpl in HbE. rewrite !app_nil_r, ?Nat.add_0_r in *.
      erewrite run_bind; [|apply (store_run e _ x h' E Hbe); lia].
      rewrite run_ret. eexists _, _. split; [done|]. simpl.
      split; [done|]. split; [do 2 f_equal; simpl; lia|].
      exists L, (<[length (filter (eq_pivot pivot) (take j l)) := x]> E), G.
      split.
      { rewrite Hb. unfold with_parts.
        rewrite (insert_insert_ne _ e g) by done.
        by rewrite insert_insert_eq. }
      rewrite length_insert. do 3 (split; [done|]). split; [done|]. split; [|done].
      replace (length (filter (eq_pivot pivot) (take j l)) + length [x])
        with (S (length (filter (eq_pivot pivot) (take j l)))) by (simpl; lia).
      rewrite take_insert_snoc by lia. by rewrite HE.
    + rewrite (decide_False (P:=lt_pivot pivot x)),
        (decide_False (P:=eq_pivot pivot x)), (decide_True (P:=gt_pivot pivot x))
        in * by (unfold lt_pivot, eq_pivot, gt_pivot; lia).
      simpl in HbG. rewrite !app_nil_r, ?Nat.add_0_r in *.
      erewrite run_bind; [|apply (store_run g _ x h' G Hbg); lia].
      rewrite run_ret. eexists _, _. split; [done|]. simpl.
      split; [done|]. split; [do 2 f_equal; simpl; lia|].
      exists L, E, (<[length (filter (gt_pivot pivot) (take j l)) := x]> G).
      split.
      { rewrite Hb. unfold with_parts. by rewrite insert_insert_eq. }
      rewrite length_insert. do 3 (split; [done|]). do 2 (split; [done|]).
      replace (length (filter (gt_pivot pivot) (take j l)) + length [x])
        with (S (length (filter (gt_pivot pivot) (take j l)))) by (simpl; lia).
      rewrite take_insert_snoc by lia. by rewrite HG.
  - exists (length (Fl (length l)), length (Fe (length l)), length (Fg (length l))).
    rewrite Hrun. do 2 f_equal. destruct h' as [b n]. simpl in *. subst.
    unfold Fl, Fe, Fg in *. rewrite firstn_all in *.
    rewrite take_ge in HL, HE, HG by lia. by subst.
Qed.

Lemma append_loop_run r idx a h R Src :
  blocks h !! r = Some R → blocks h !! a = Some Src → r ≠ a →
  idx + length Src ≤ length R →
  ∃ R', append_loop (Some r) idx (Some a) (length Src) h
        = Done (idx + length Src, Heap (<[r := R']> (blocks h)) (next h)) ∧
    length R' = length R ∧ take (idx + length Src) R' = take idx R ++ Src.
Proof.
  intros Hr Ha Hne Hlen. unfold append_loop.
  destruct (for_upM_rule
    (λ i st h', st = idx + i ∧ next h' = next h ∧
       ∃ Ri, blocks h' = <[r := Ri]> (blocks h) ∧ length Ri = length R ∧
             take (idx + i) Ri = take idx R ++ take i Src)
    0 (length Src)
    (λ idx i, x ← load (Some a) i; _ ← store (Some r) idx x; mret (S idx)) idx h)
    as (st & h' & Hrun & -> & Hnext & R' & Hb & HlR & Ht).
  - lia.
  - split; [lia|]. split; [done|]. exists R. split; [by rewrite insert_id|].
    split; [done|]. by rewrite Nat.add_0_r, take_0, app_nil_r.
  - intros j st h' Hj (-> & Hnext & Ri & Hb & HlR & Ht).
    destruct (lookup_lt_is_Some_2 Src j ltac:(lia)) as [x Hx].
    assert (blocks h' !! a = Some Src) as Hba.
    { rewrite Hb. by rewrite lookup_insert_ne. }
    assert (blocks h' !! r = Some Ri) as Hbr.
    { rewrite Hb. by rewrite lookup_insert_eq. }
    rewrite (run_bind _ _ _ _ _ (load_run a j h' Src x Hba Hx)).
    erewrite run_bind; [|apply (store_run r _ x h' Ri Hbr); lia].
    rewrite run_ret. eexists _, _. split; [done|]. simpl.
    split; [lia|]. split; [done|].
    exists (<[idx + j := x]> Ri). split; [by rewrite Hb, insert_insert_eq|].
    split; [by rewrite length_insert|].
    replace (idx + S j) with (S (idx + j)) by lia.
    rewrite take_insert_snoc by lia.
    by rewrite Ht, (take_S_r Src j x), app_assoc.
  - exists R'. rewrite firstn_all in Ht. split; [|done].
    rewrite Hrun. do 2 f_equal. destruct h'. simpl in *. by subst.
Qed.

Lemma memcpy_run d a h D Src :
  blocks h !! d = Some D → blocks h !! a = Some Src → d ≠ a →
  length D = length Src →
  memcpy (Some d) (Some a) (length Src) h
  = Done (tt, Heap (<[d := Src]> (blocks h)) (next h)).
Proof.
  intros Hd Ha Hne Hlen. unfold memcpy.
  destruct (for_upM_rule
    (λ i (st : unit) h', next h' = next h ∧
       ∃ Di, blocks h' = <[d := Di]> (blocks h) ∧ length Di = length D ∧
             take i Di = take i Src)
    0 (length Src) (λ _ i, x ← load (Some a) i; store (Some d) i x) tt h)
    as ([] & h' & Hrun & Hnext & D' & Hb & HlD & Ht).
  - lia.
  - split; [done|]. exists D. split; [by rewrite insert_id|]. done.
  - intros j [] h' Hj (Hnext & Di & Hb & HlD & Ht).
    destruct (lookup_lt_is_Some_2 Src j ltac:(lia)) as [x Hx].
    assert (blocks h' !! a = Some Src) as Hba.
    { rewrite Hb. by rewrite lookup_insert_ne. }
    assert (blocks h' !! d = Some Di) as Hbd.
    { rewrite Hb. by rewrite lookup_insert_eq. }
    rewrite (run_bind _ _ _ _ _ (load_run a j h' Src x Hba Hx)).
    rewrite (store_run d j x h' Di Hbd) by lia.
    eexists tt, _. split; [done|]. simpl. split; [done|].
    exists (<[j := x]> Di). split; [by rewrite Hb, insert_insert_eq|].
    split; [by rewrite length_insert|].
    rewrite take_insert_snoc by lia. by rewrite Ht, (take_S_r Src j x).
  - rewrite Hrun. do 2 f_equal. destruct h'. simpl in *. subst. f_equal.
    f_equal. rewrite firstn_all in Ht. rewrite take_ge in Ht by lia. done.
Qed.

(** Every live address has been returned by an earlier [malloc]. *)
Definition wf (h : heap) : Prop := ∀ a, is_Some (blocks h !! a) → a < next h.

Lemma wf_fresh h a : wf h → next h ≤ a → blocks h !! a = None.
Proof.
  intros Hwf Ha. destruct (blocks h !! a) eqn:Hl; [|done].
  specialize (Hwf a ltac:(by rewrite Hl)). lia.
Qed.

Lemma merge_arrays_run a1 a2 a3 h L1 L2 L3 :
  wf h → ok (next h) = true →
  blocks h !! a1 = Some L1 → blocks h !! a2 = Some L2 → blocks h !! a3 = Some L3 →
  merge_arrays (Some a1) (length L1) (Some a2) (length L2) (Some a3) (length L3) h
  = Done (Some (next h), Heap (<[next h := L1 ++ L2 ++ L3]> (blocks h)) (S (next h))).
Proof.
  intros Hwf Hok H1 H2 H3. unfold merge_arrays.
  set (r := next h).
  assert (r ≠ a1 ∧ r ≠ a2 ∧ r ≠ a3) as (Hr1 & Hr2 & Hr3).
  { pose proof (Hwf a1 ltac:(by rewrite H1)). pose proof (Hwf a2 ltac:(by rewrite H2)).
    pose proof (Hwf a3 ltac:(by rewrite H3)). unfold r. lia. }
  erewrite run_bind; [|by rewrite malloc_run, Hok].
  fold r. set (R0 := replicate _ _).
  assert (length R0 = length L1 + length L2 + length L3) as HR0
    by (unfold R0; by rewrite length_replicate).
  set (h1 := Heap (<[r := R0]> (blocks h)) (S r)).
  destruct (append_loop_run r 0 a1 h1 R0 L1) as (R1 & Hrun1 & Hl1 & Ht1);
    [by (simpl; rewrite lookup_insert_eq)|by (simpl; rewrite lookup_insert_ne)
    |done|lia|].
  rewrite (run_bind _ _ _ _ _ Hrun1). simpl in *.
  rewrite insert_insert_eq.
  set (h2 := Heap (<[r := R1]> (blocks h)) (S r)).
  destruct (append_loop_run r (length L1) a2 h2 R1 L2) as (R2 & Hrun2 & Hl2 & Ht2);
    [by (simpl; rewrite lookup_insert_eq)|by (simpl; rewrite lookup_insert_ne)
    |done|lia|].
  rewrite (run_bind _ _ _ _ _ Hrun2). simpl in *.
  rewrite insert_insert_eq.
  set (h3 := Heap (<[r := R2]> (blocks h)) (S r)).
  destruct (append_loop_run r (length L1 + length L2) a3 h3 R2 L3)
    as (R3 & Hrun3 & Hl3 & Ht3);
    [by (simpl; rewrite lookup_insert_eq)|by (simpl; rewrite lookup_insert_ne)
    |done|lia|].
  rewrite (run_bind _ _ _ _ _ Hrun3). simpl in *.
  rewrite insert_insert_eq, run_ret. do 4 f_equal.
  rewrite take_ge in Ht3 by lia. rewrite Ht3, Ht2, Ht1. simpl.
  by rewrite <- app_assoc.
Qed.

(** ** The three partitions *)

Lemma parts_Permutation pivot (l : list A) :
  filter (lt_pivot pivot) l ++ filter (eq_pivot pivot) l ++ filter (gt_pivot pivot) l
  ≡ₚ l.
Proof.
  induction l as [|x l IH]; [done|].
  rewrite !filter_cons. unfold lt_pivot at 1, eq_pivot at 1, gt_pivot at 1.
  repeat case_decide; try lia; simpl.
  - by rewrite IH.
  - rewrite <- Permutation_middle. by rewrite IH.
  - rewrite app_assoc, <- Permutation_middle, <- app_assoc. by rewrite IH.
Qed.

Lemma parts_stable pivot (l : list A) k :
  filter (λ x, key x = k) (filter (lt_pivot pivot) l) ++
  filter (λ x, key x = k) (filter (eq_pivot pivot) l) ++
  filter (λ x, key x = k) (filter (gt_pivot pivot) l)
  = filter (λ x, key x = k) l.
Proof.
  rewrite !list_filter_filter.
  destruct (Z.lt_trichotomy k pivot) as [Hk|[Hk|Hk]].
  - rewrite (filter_none (λ x, key x = k ∧ eq_pivot pivot x)),
      (filter_none (λ x, key x = k ∧ gt_pivot pivot x)), !app_nil_r;
      [|unfold gt_pivot; intros; lia|unfold eq_pivot; intros; lia].
    apply list_filter_iff. unfold lt_pivot. intros; lia.
  - rewrite (filter_none (λ x, key x = k ∧ lt_pivot pivot x)),
      (filter_none (λ x, key x = k ∧ gt_pivot pivot x)), !app_nil_r;
      [|unfold gt_pivot; intros; lia|unfold lt_pivot; intros; lia].
    apply list_filter_iff. unfold eq_pivot. intros; lia.
  - rewrite (filter_none (λ x, key x = k ∧ lt_pivot pivot x)),
      (filter_none (λ x, key x = k ∧ eq_pivot pivot x));
      [|unfold eq_pivot; intros; lia|unfold lt_pivot; intros; lia].
    apply list_filter_iff. unfold gt_pivot. intros; lia.
Qed.

Lemma parts_sorted pivot (L E G : list A) :
  sorted_by key L → sorted_by key G →
  Forall (lt_pivot pivot) L → Forall (eq_pivot pivot) E → Forall (gt_pivot pivot) G →
  sorted_by key (L ++ E ++ G).
Proof.
  intros HsL HsG HL HE HG. rewrite Forall_forall in HL, HE, HG.
  apply StronglySorted_app_2; [|done|apply StronglySorted_app_2; [|..|done]].
  - intros x y Hx [Hy|Hy]%elem_of_app; unfold key_le;
      specialize (HL x Hx); unfold lt_pivot in HL.
    + specialize (HE y Hy). unfold eq_pivot in HE. lia.
    + specialize (HG y Hy). unfold gt_pivot in HG. lia.
  - intros x y Hx Hy. specialize (HE x Hx). specialize (HG y Hy).
    unfold key_le, eq_pivot, gt_pivot in *. lia.
  - induction E as [|x E IH]; constructor.
    + apply IH. intros y Hy. apply HE. by right.
    + apply Forall_forall. intros y Hy. unfold key_le.
      rewrite (HE x), (HE y); [done|by right|by left].
Qed.

Definition all_ok : Prop := ∀ m, ok m = true.

(** ** The function *)

Theorem quicksort_functional_spec fuel p h l :
  all_ok → wf h → blocks h !! p = Some l → length l ≤ S fuel →
  ∃ q l' n',
    quicksort_functional fuel (Some p) (length l) h
    = Done (Some q, Heap (<[q := l']> (blocks h)) n') ∧
    next h ≤ q < n' ∧
    sorted_by key l' ∧ stable_by key l l' ∧ l' ≡ₚ l.
Proof.
  intros Hok. revert p h l.
  assert (Hbase : ∀ fuel p h l, wf h → blocks h !! p = Some l → length l ≤ 1 →
    ∃ q l' n',
      quicksort_functional fuel (Some p) (length l) h
      = Done (Some q, Heap (<[q := l']> (blocks h)) n') ∧
      next h ≤ q < n' ∧ sorted_by key l' ∧ stable_by key l l' ∧ l' ≡ₚ l).
  { intros fuel' p h l Hwf Hp Hlen.
    exists (next h), l, (S (next h)).
    assert (p ≠ next h) as Hne.
    { pose proof (Hwf p ltac:(by rewrite Hp)). lia. }
    split; [|split; [lia|split; [|done]]].
    - destruct fuel'; cbn [quicksort_functional]; rewrite decide_True by done;
        (erewrite run_bind; [|by rewrite malloc_run, Hok]); cbn [is_null];
        (erewrite run_bind;
           [|apply (memcpy_run (next h) p _ (replicate (length l) inhabitant) l);
             simpl; [by rewrite lookup_insert_eq|by rewrite lookup_insert_ne
                    |done|by rewrite length_replicate]]);
        rewrite run_ret; simpl; by rewrite insert_insert_eq.
    - destruct l as [|x [|y l]]; [repeat constructor..|simpl in Hlen; lia]. }
  induction fuel as [|fuel IH]; intros p h l Hwf Hp Hlen.
  { apply Hbase; [done..|lia]. }
  destruct (decide (length l ≤ 1)) as [Hsmall|Hbig].
  { by apply Hbase. }
  cbn [quicksort_functional]. rewrite decide_False by done.
  (* the pivot *)
  destruct (lookup_lt_is_Some_2 l (length l / 2)) as [x Hx].
  { apply Nat.div_lt; lia. }
  rewrite (run_bind _ _ _ _ _ (load_run p _ h l x Hp Hx)).
  set (pivot := key x).
  (* the counts *)
  rewrite (run_bind _ _ _ _ _ (count_loop p pivot h l Hp)).
  set (Lf := filter (lt_pivot pivot) l). set (Ef := filter (eq_pivot pivot) l).
  set (Gf := filter (gt_pivot pivot) l).
  assert (x ∈ Ef) as HxE.
  { apply list_elem_of_filter. split; [done|]. by apply list_elem_of_lookup_2 in Hx. }
  assert (0 < length Ef) as HEpos.
  { destruct Ef; [by apply elem_of_nil in HxE|simpl; lia]. }
  pose proof (Permutation_length (parts_Permutation pivot l)) as Hlens.
  rewrite !length_app in Hlens. fold Lf Ef Gf in Hlens.
  (* the three buffers *)
  set (a := next h).
  erewrite run_bind; [|by rewrite malloc_run, Hok].
  erewrite run_bind; [|by rewrite malloc_run, Hok].
  erewrite run_bind; [|by rewrite malloc_run, Hok].
  cbn [is_null blocks next]. rewrite !andb_false_r. cbn [orb].
  fold a.
  assert (Hfresh : ∀ k, a ≤ k → blocks h !! k = None).
  { intros k Hk. by apply wf_fresh. }
  assert (p < a) as Hpa by (apply Hwf; by rewrite Hp).
  (* filling *)
  edestruct (fill_loop p a (S a) (S (S a)) pivot
    (Heap (with_parts (blocks h) a (S a) (S (S a))
             (replicate (length Lf) inhabitant) (replicate (length Ef) inhabitant)
             (replicate (length Gf) inhabitant)) (S (S (S a)))) l (blocks h))
    as [st Hfill]; [done|done|lia..|by rewrite length_replicate
                   |by rewrite length_replicate|by rewrite length_replicate|].
  unfold with_parts in Hfill at 1. rewrite (run_bind _ _ _ _ _ Hfill).
  clear Hfill st. fold Lf Ef Gf. cbn [next].
  set (B4 := with_parts (blocks h) a (S a) (S (S a)) Lf Ef Gf).
  set (h4 := Heap B4 (S (S (S a)))).
  assert (HB4 : ∀ k, B4 !! k =
            if decide (k = S (S a)) then Some Gf
            else if decide (k = S a) then Some Ef
            else if decide (k = a) then Some Lf else blocks h !! k).
  { intros k. unfold B4, with_parts. repeat case_decide; subst;
      rewrite ?lookup_insert_eq; try done;
      rewrite ?lookup_insert_ne by lia; rewrite ?lookup_insert_eq; try done. }
  assert (wf h4) as Hwf4.
  { intros k [v Hk]. simpl in *. rewrite HB4 in Hk. repeat case_decide; try lia.
    pose proof (Hwf k ltac:(by rewrite Hk)). unfold a. lia. }
  (* sorting the partitions *)
  destruct (IH a h4 Lf Hwf4) as (q1 & L' & n5 & Hrun1 & Hq1 & HsL & HstL & HpL);
    [simpl; rewrite HB4; by repeat case_decide; try lia|lia|].
  rewrite (run_bind _ _ _ _ _ Hrun1). clear Hrun1.
  unfold h4 in Hq1. cbn [next blocks] in *.
  set (h5 := Heap (<[q1 := L']> B4) n5).
  assert (wf h5) as Hwf5.
  { intros k [v Hk]. simpl in *. destruct (decide (k = q1)) as [->|]; [lia|].
    rewrite lookup_insert_ne in Hk by done.
    pose proof (Hwf4 k ltac:(by (simpl; rewrite Hk))). simpl in *. lia. }
  destruct (IH (S (S a)) h5 Gf Hwf5) as (q2 & G' & n6 & Hrun2 & Hq2 & HsG & HstG & HpG);
    [simpl; rewrite lookup_insert_ne by lia; rewrite HB4; by rewrite decide_True|lia|].
  rewrite (run_bind _ _ _ _ _ Hrun2). clear Hrun2.
  unfold h5 in Hq2. cbn [next blocks] in *.
  set (h6 := Heap (<[q2 := G']> (<[q1 := L']> B4)) n6).
  assert (wf h6) as Hwf6.
  { intros k [v Hk]. simpl in *. destruct (decide (k = q2)) as [->|]; [lia|].
    rewrite lookup_insert_ne in Hk by done.
    pose proof (Hwf5 k ltac:(by (simpl; rewrite Hk))). simpl in *. lia. }
  (* concatenating *)
  rewrite <- (Permutation_length HpL), <- (Permutation_length HpG).
  rewrite (run_bind _ _ _ _ _
    (merge_arrays_run q1 (S a) q2 h6 L' Ef G' Hwf6 (Hok _)
       ltac:(simpl; rewrite lookup_insert_ne by lia; by rewrite lookup_insert_eq)
       ltac:(simpl; rewrite !lookup_insert_ne by lia; rewrite HB4;
             rewrite decide_False by lia; by rewrite decide_True)
       ltac:(simpl; by rewrite lookup_insert_eq))).
  unfold h6. cbn [next blocks].
  set (res := L' ++ Ef ++ G').
  set (B7 := <[n6 := res]> (<[q2 := G']> (<[q1 := L']> B4))).
  (* releasing the temporaries *)
  assert (HB7 : ∀ k, B7 !! k =
            if decide (k = n6) then Some res
            else if decide (k = q2) then Some G'
            else if decide (k = q1) then Some L' else B4 !! k).
  { intros k. unfold B7. repeat case_decide; subst;
      rewrite ?lookup_insert_eq; try done;
      rewrite ?lookup_insert_ne by lia; rewrite ?lookup_insert_eq; try done. }
  erewrite run_bind; [|eapply free_run; simpl; rewrite HB7, HB4;
                       repeat case_decide; try lia; done].
  cbn [next blocks].
  erewrite run_bind; [|eapply free_run; simpl; rewrite lookup_delete_ne by lia;
                       rewrite HB7, HB4; repeat case_decide; try lia; done].
  cbn [next blocks].
  erewrite run_bind; [|eapply free_run; simpl; rewrite !lookup_delete_ne by lia;
                       rewrite HB7, HB4; repeat case_decide; try lia; done].
  cbn [next blocks].
  rewrite (decide_True (P:=Some q1 ≠ Some a)) by (intros [=]; lia).
  erewrite run_bind; [|eapply free_run; simpl; rewrite !lookup_delete_ne by lia;
                       rewrite HB7; repeat case_decide; try lia; done].
  cbn [next blocks].
  rewrite (decide_True (P:=Some q2 ≠ Some (S (S a)))) by (intros [=]; lia).
  erewrite run_bind; [|eapply free_run; simpl; rewrite !lookup_delete_ne by lia;
                       rewrite HB7; repeat case_decide; try lia; done].
  rewrite run_ret. cbn [blocks next].
  exists n6, res, (S n6). split; [|split; [lia|split; [|split]]].
  - do 3 f_equal. apply map_eq. intros k.
    destruct (decide (k = n6)) as [->|Hk6].
    { rewrite lookup_insert_eq. rewrite !lookup_delete_ne by lia.
      rewrite HB7. by rewrite decide_True. }
    rewrite lookup_insert_ne by done.
    destruct (decide (k = q2)) as [->|Hk2]; [rewrite lookup_delete_eq, Hfresh; [done|lia]|].
    rewrite lookup_delete_ne by done.
    destruct (decide (k = q1)) as [->|Hk1]; [rewrite lookup_delete_eq, Hfresh; [done|lia]|].
    rewrite lookup_delete_ne by done.
    destruct (decide (k = S (S a))) as [->|Hkg];
      [rewrite lookup_delete_eq, Hfresh; [done|lia]|].
    rewrite lookup_delete_ne by done.
    destruct (decide (k = S a)) as [->|Hke];
      [rewrite lookup_delete_eq, Hfresh; [done|lia]|].
    rewrite lookup_delete_ne by done.
    destruct (decide (k = a)) as [->|Hkl];
      [rewrite lookup_delete_eq, Hfresh; [done|lia]|].
    rewrite lookup_delete_ne by done.
    rewrite HB7, HB4. by repeat (rewrite decide_False by done).
  - apply (parts_sorted pivot); [done|done|..].
    + apply Forall_forall. intros y Hy. rewrite HpL in Hy.
      by apply list_elem_of_filter in Hy as [? _].
    + apply Forall_forall. intros y Hy. by apply list_elem_of_filter in Hy as [? _].
    + apply Forall_forall. intros y Hy. rewrite HpG in Hy.
      by apply list_elem_of_filter in Hy as [? _].
  - intros k. unfold res. rewrite !filter_app, HstL, HstG. apply parts_stable.
  - unfold res. rewrite HpL, HpG. apply parts_Permutation.
Qed.


(** For a size up to one the function returns a copy of its input. *)
Lemma quicksort_functional_small fuel p h l :
  all_ok → wf h → blocks h !! p = Some l → length l ≤ 1 →
  quicksort_functional fuel (Some p) (length l) h
  = Done (Some (next h), Heap (<[next h := l]> (blocks h)) (S (next h))).
Proof.
  intros Hok Hwf Hp Hlen.
  assert (p ≠ next h) as Hne.
  { pose proof (Hwf p ltac:(by rewrite Hp)). lia. }
  destruct fuel; cbn [quicksort_functional]; rewrite decide_True by done;
    (erewrite run_bind; [|by rewrite malloc_run, Hok]); cbn [is_null];
    (erewrite run_bind;
       [|apply (memcpy_run (next h) p _ (replicate (length l) inhabitant) l);
         simpl; [by rewrite lookup_insert_eq|by rewrite lookup_insert_ne
                |done|by rewrite length_replicate]]);
    rewrite run_ret; simpl; by rewrite insert_insert_eq.
Qed.
(** ** What a call leaves untouched, whatever the allocator does *)

(** The blocks at the addresses below [n] are the same in [h'] as in [h]. *)
Definition frame (n : nat) (h h' : heap) : Prop :=
  next h ≤ next h' ∧ ∀ k, k < n → blocks h' !! k = blocks h !! k.

(** [p] is [NULL] or an address that was not in use when [n] allocations had
    been made. *)
Definition fresh_ptr (n : nat) (p : ptr) : Prop := ∀ a, p = Some a → n ≤ a.

(** A computation that returns touches no block below [n], and its value
    satisfies [Q]. *)
Definition keeps {T} (n : nat) (m : M T) (Q : T → Prop) : Prop :=
  ∀ h x h', n ≤ next h → m h = Done (x, h') → frame n h h' ∧ Q x.

Lemma keeps_ret {T} n (x : T) (Q : T → Prop) : Q x → keeps n (mret x) Q.
Proof. intros HQ h y h' _ [= <- <-]. split; [|done]. by split. Qed.

Lemma keeps_bind {T U} n (m : M T) (k : T → M U) (Q : T → Prop) (R : U → Prop) :
  keeps n m Q → (∀ x, Q x → keeps n (k x) R) → keeps n (m ≫= k) R.
Proof.
  intros Hm Hk h y h'' Hn. unfold mbind, M_bind.
  destruct (m h) as [[x h']| |] eqn:Hrun; [|done..].
  destruct (Hm h x h' Hn Hrun) as [[Hnext Hfr] HQ]. intros Hrun'.
  destruct (Hk x HQ h' y h'' ltac:(lia) Hrun') as [[Hnext' Hfr'] HR].
  split; [|done]. split; [lia|]. intros a Ha. by rewrite Hfr', Hfr.
Qed.

Lemma keeps_weaken {T} n (m : M T) (Q Q' : T → Prop) :
  keeps n m Q → (∀ x, Q x → Q' x) → keeps n m Q'.
Proof. intros Hm HQ h x h' Hn Hrun. destruct (Hm h x h' Hn Hrun). auto. Qed.

Lemma keeps_load n p i : keeps n (load p i) (λ _, True).
Proof.
  intros h x h' _. unfold load. repeat case_match; try done.
  intros [= <- <-]. by repeat split.
Qed.

Lemma keeps_store n p i v : fresh_ptr n p → keeps n (store p i v) (λ _, True).
Proof.
  intros Hp h x h' _. unfold store. repeat case_match; try done.
  intros [= <- <-]. split; [|done]. split; [done|]. simpl. intros k Hk.
  rewrite lookup_insert_ne; [done|]. specialize (Hp _ eq_refl). lia.
Qed.

Lemma keeps_free n p : fresh_ptr n p → keeps n (free p) (λ _, True).
Proof.
  intros Hp h x h' _. unfold free. repeat case_match; try done.
  - intros [= <- <-]. split; [|done]. split; [done|]. simpl. intros k Hk.
    rewrite lookup_delete_ne; [done|]. specialize (Hp _ eq_refl). lia.
  - intros [= <- <-]. by repeat split.
Qed.

Lemma keeps_malloc n size : keeps n (malloc size) (fresh_ptr n).
Proof.
  intros h x h' Hn. unfold malloc. case_match; intros [= <- <-].
  - split; [|by intros a [= <-]]. split; [simpl; lia|]. simpl. intros k Hk.
    rewrite lookup_insert_ne; [done|lia].
  - split; [|done]. split; [simpl; lia|done].
Qed.

Lemma keeps_for_upM {St} n lo hi (body : St → nat → M St) (I : St → Prop) s :
  I s → (∀ s i, I s → keeps n (body s i) I) → keeps n (for_upM lo hi body s) I.
Proof.
  intros Hs Hbody. unfold for_upM. generalize (seq lo (hi - lo)). intros l.
  induction l as [|i l IH] using rev_ind; simpl.
  - by apply keeps_ret.
  - rewrite foldl_snoc. eapply keeps_bind; [apply IH|]. intros s' Hs'.
    by apply Hbody.
Qed.

Lemma quicksort_functional_keeps fuel arr size n :
  keeps n (quicksort_functional fuel arr size) (fresh_ptr n).
Proof.
  revert arr size.
  assert (Hbase : ∀ arr size,
    keeps n (result ← malloc size;
             if is_null result then mret None
             else _ ← memcpy result arr size; mret result) (fresh_ptr n)).
  { intros arr size. eapply keeps_bind; [apply keeps_malloc|].
    intros result Hres. destruct result as [r|]; simpl; [|by apply keeps_ret].
    eapply keeps_bind; [|intros; by apply keeps_ret].
    apply (keeps_for_upM _ _ _ _ (λ _, True)); [done|]. intros _ i _.
    eapply keeps_bind; [apply keeps_load|]. intros x _. by apply keeps_store. }
  induction fuel as [|fuel IH]; intros arr size; cbn [quicksort_functional];
    case_decide; [apply Hbase|by intros ????|apply Hbase|].
  eapply keeps_bind; [apply keeps_load|]. intros x _.
  eapply keeps_bind.
  { apply (keeps_for_upM _ _ _ _ (λ _, True)); [done|]. intros [[lc ec] gc] i _.
    unfold count_body. eapply keeps_bind; [apply keeps_load|]. intros y _.
    repeat case_decide; by apply keeps_ret. }
  intros [[less_count equal_count] greater_count] _.
  eapply keeps_bind; [apply keeps_malloc|]. intros less Hless.
  eapply keeps_bind; [apply keeps_malloc|]. intros equal Hequal.
  eapply keeps_bind; [apply keeps_malloc|]. intros greater Hgreater.
  case_match.
  { eapply keeps_bind; [by apply keeps_free|]. intros _ _.
    eapply keeps_bind; [by apply keeps_free|]. intros _ _.
    eapply keeps_bind; [by apply keeps_free|]. intros _ _.
    by apply keeps_ret. }
  eapply keeps_bind.
  { apply (keeps_for_upM _ _ _ _ (λ _, True)); [done|]. intros [[li ei] gi] i _.
    unfold fill_body. eapply keeps_bind; [apply keeps_load|]. intros y _.
    repeat case_decide;
      (eapply keeps_bind; [by apply keeps_store|]; intros _ _; by apply keeps_ret). }
  intros _ _.
  eapply keeps_bind; [apply IH|]. intros sorted_less Hsl.
  eapply keeps_bind; [apply IH|]. intros sorted_greater Hsg.
  eapply keeps_bind.
  { unfold merge_arrays. cbv zeta. eapply keeps_bind; [apply keeps_malloc|].
    intros result Hres. destruct result as [r|]; [|by apply keeps_ret].
    assert (Happ : ∀ idx src sz, keeps n (append_loop (Some r) idx src sz) (λ _, True)).
    { intros idx src sz. unfold append_loop.
      apply (keeps_for_upM _ _ _ _ (λ _, True)); [done|]. intros idx' i _.
      eapply keeps_bind; [apply keeps_load|]. intros y _.
      eapply keeps_bind; [by apply keeps_store|]. intros _ _. by apply keeps_ret. }
    eapply keeps_bind; [apply Happ|]. intros idx1 _.
    eapply keeps_bind; [apply Happ|]. intros idx2 _.
    eapply keeps_bind; [apply Happ|]. intros idx3 _.
    apply keeps_ret. apply Hres. }
  intros result Hres.
  eapply keeps_bind; [by apply keeps_free|]. intros _ _.
  eapply keeps_bind; [by apply keeps_free|]. intros _ _.
  eapply keeps_bind; [by apply keeps_free|]. intros _ _.
  apply (keeps_bind _ _ _ (λ _, True)).
  { destruct (decide (sorted_less ≠ less)); [by apply keeps_free|by apply keeps_ret]. }
  intros _ _.
  apply (keeps_bind _ _ _ (λ _, True)).
  { destruct (decide (sorted_greater ≠ greater));
      [by apply keeps_free|by apply keeps_ret]. }
  intros _ _. by apply keeps_ret.
Qed.

(** A call that returns has left every block of its caller as it was, the
    input buffer among them. *)
Theorem quicksort_functional_frame fuel arr size h r h' :
  quicksort_functional fuel arr size h = Done (r, h') →
  (∀ k, k < next h → blocks h' !! k = blocks h !! k) ∧ fresh_ptr (next h) r.
Proof.
  intros Hrun.
  destruct (quicksort_functional_keeps fuel arr size (next h) h r h' ltac:(done) Hrun)
    as [[_ Hfr] Hr].
  done.
Qed.

(** ** When an allocation of the call itself fails *)

Lemma quicksort_functional_fails_small fuel arr size h :
  size ≤ 1 → ok (next h) = false →
  quicksort_functional fuel arr size h = Done (None, Heap (blocks h) (S (next h))).
Proof.
  intros Hsize Hok.
  destruct fuel; cbn [quicksort_functional]; rewrite decide_True by done;
    (erewrite run_bind; [|by rewrite malloc_run, Hok]); done.
Qed.

Lemma quicksort_functional_fails_partition fuel p h l :
  wf h → blocks h !! p = Some l → 1 < length l →
  (0 < length (filter (lt_pivot (key (l !!! (length l / 2)))) l) ∧
     ok (next h) = false) ∨
  ok (S (next h)) = false ∨
  (0 < length (filter (gt_pivot (key (l !!! (length l / 2)))) l) ∧
     ok (S (S (next h))) = false) →
  quicksort_functional (S fuel) (Some p) (length l) h
  = Done (None, Heap (blocks h) (S (S (S (next h))))).
Proof.
  intros Hwf Hp Hlen Hfail.
  cbn [quicksort_functional]. rewrite decide_False by lia.
  assert (length l / 2 < length l) as Hmid by (apply Nat.div_lt; lia).
  pose proof (list_lookup_lookup_total_lt l _ Hmid) as Hx.
  set (x := l !!! (length l / 2)) in *.
  rewrite (run_bind _ _ _ _ _ (load_run p _ h l x Hp Hx)).
  set (pivot := key x) in *.
  rewrite (run_bind _ _ _ _ _ (count_loop p pivot h l Hp)).
  assert (0 < length (filter (eq_pivot pivot) l)) as HEpos.
  { assert (x ∈ filter (eq_pivot pivot) l) as HxE.
    { apply list_elem_of_filter. split; [done|].
      by apply list_elem_of_lookup_2 in Hx. }
    destruct (filter (eq_pivot pivot) l); [by apply elem_of_nil in HxE|simpl; lia]. }
  set (a := next h) in *.
  assert (Hfresh : ∀ k, a ≤ k → blocks h !! k = None).
  { intros k Hk. by apply wf_fresh. }
  assert (Hcond : ∀ less equal greater : ptr,
    (ok a = false → less = None) → (ok (S a) = false → equal = None) →
    (ok (S (S a)) = false → greater = None) →
    bool_decide (0 < length (filter (lt_pivot pivot) l)) && is_null less
    || bool_decide (0 < length (filter (eq_pivot pivot) l)) && is_null equal
    || bool_decide (0 < length (filter (gt_pivot pivot) l)) && is_null greater
    = true).
  { intros less equal greater H1 H2 H3.
    destruct Hfail as [[Hpos Hok]|[Hok|[Hpos Hok]]].
    - rewrite (H1 Hok), bool_decide_eq_true_2 by done. done.
    - rewrite (H2 Hok), (bool_decide_eq_true_2 _ HEpos). cbn. by rewrite orb_true_r.
    - rewrite (H3 Hok), (bool_decide_eq_true_2 _ Hpos). cbn. by rewrite orb_true_r. }
  assert (Hsome : ok a && ok (S a) && ok (S (S a)) = false).
  { destruct Hfail as [[_ ->]|[->|[_ ->]]]; by rewrite ?andb_false_r. }
  clear Hfail.
  destruct (ok a) eqn:Hok1; destruct (ok (S a)) eqn:Hok2;
    destruct (ok (S (S a))) eqn:Hok3; try done.
  all: (erewrite run_bind; [|by rewrite malloc_run; fold a; rewrite Hok1]);
    cbn [blocks next];
    (erewrite run_bind; [|by rewrite malloc_run; cbn [next]; rewrite Hok2]);
    cbn [blocks next];
    (erewrite run_bind; [|by rewrite malloc_run; cbn [next]; rewrite Hok3]);
    cbn [blocks next].
  all: rewrite Hcond by (done || (intros; discriminate)).
  all: unfold mbind, M_bind, free, mret, M_ret; cbn [blocks next].
  all: rewrite ?lookup_insert_eq;
    rewrite ?lookup_delete_ne, ?lookup_insert_ne by lia;
    rewrite ?lookup_insert_eq; cbn [blocks next];
    rewrite ?lookup_delete_ne, ?lookup_insert_ne by lia;
    rewrite ?lookup_insert_eq; cbn [blocks next].
  all: do 3 f_equal; try done.
  all: apply map_eq; intros k;
    destruct (decide (k = a)) as [->|]; [|destruct (decide (k = S a)) as [->|];
      [|destruct (decide (k = S (S a))) as [->|]]];
    rewrite ?lookup_delete_eq, ?lookup_insert_eq;
    rewrite ?lookup_delete_ne, ?lookup_insert_ne by lia;
    rewrite ?lookup_delete_eq, ?lookup_insert_eq;
    rewrite ?lookup_delete_ne, ?lookup_insert_ne by lia;
    rewrite ?lookup_delete_eq, ?lookup_insert_eq;
    rewrite ?Hfresh by lia; done.
Qed.
End QuicksortFunctional.
End QuicksortFunctional.

(** * Stability, read on elements tagged with their input position *)

(** The allocator that never fails. *)
Definition always (n : nat) : bool := true.

(** Each element of [l] with its index in [l]. *)
Definition tagged (l : list Z) : list (Z * nat) := zip l (seq 0 (length l)).

(** Elements of equal value come in the order of their tags. *)
Definition keeps_input_order (out : list (Z * nat)) : Prop :=
  ∀ i j x y, i < j → out !! i = Some x → out !! j = Some y →
             x.1 = y.1 → x.2 < y.2.

Lemma tagged_fst l : (tagged l).*1 = l.
Proof. unfold tagged. apply fst_zip. by rewrite length_seq. Qed.

Lemma tagged_length l : length (tagged l) = length l.
Proof. by rewrite <- (tagged_fst l) at 2; rewrite length_fmap. Qed.

Lemma tagged_increasing l : StronglySorted (λ a b : Z * nat, a.2 < b.2) (tagged l).
Proof.
  unfold tagged. generalize 0. induction l as [|x l IH]; intros n; simpl.
  - constructor.
  - constructor; [apply IH|]. apply Forall_forall. intros [y m] Hy.
    apply elem_of_zip_r in Hy. apply elem_of_seq in Hy. simpl. lia.
Qed.

Lemma StronglySorted_filter {A} (R : relation A) (P : A → Prop)
    `{!∀ x, Decision (P x)} (l : list A) :
  StronglySorted R l → StronglySorted R (filter P l).
Proof.
  induction 1 as [|x l Hs IH Hall]; [constructor|].
  rewrite filter_cons. case_decide; [|done]. constructor; [done|].
  rewrite Forall_forall in *. intros y [_ Hy]%list_elem_of_filter. by apply Hall.
Qed.

Lemma stable_tagged l out : stable_by fst (tagged l) out → keeps_input_order out.
Proof.
  intros Hst i j x y Hij Hx Hy Hxy.
  pose proof (StronglySorted_filter _ (λ a : Z * nat, a.1 = x.1) _ (tagged_increasing l))
    as Hs.
  rewrite <- (Hst (x.1)) in Hs.
  rewrite <- (take_drop_middle out i x Hx) in Hs.
  rewrite filter_app, filter_cons_True in Hs by done.
  apply StronglySorted_app_1_r, StronglySorted_inv in Hs as [_ Hall].
  rewrite Forall_forall in Hall. apply Hall.
  apply list_elem_of_filter. split; [done|].
  apply list_elem_of_lookup. exists (j - S i). rewrite lookup_drop.
  by replace (S i + (j - S i)) with j by lia.
Qed.

(** A list has one stably sorted arrangement. *)
Lemma stable_sort_unique {A} (key : A → Z) (l1 l2 : list A) :
  sorted_by key l1 → sorted_by key l2 →
  (∀ k, filter (λ x, key x = k) l1 = filter (λ x, key x = k) l2) →
  l1 = l2.
Proof.
  intros Hs1. revert l2. induction Hs1 as [|x l1 Hs1 IH Hall1]; intros l2 Hs2 Hf.
  - destruct l2 as [|y l2]; [done|]. specialize (Hf (key y)).
    by rewrite filter_cons_True in Hf.
  - destruct Hs2 as [|y l2 Hs2 Hall2].
    { specialize (Hf (key x)). by rewrite filter_cons_True in Hf. }
    rewrite Forall_forall in Hall1, Hall2.
    assert (key x = key y) as Hk.
    { assert (key y ≤ key x)%Z.
      { assert (x ∈ filter (λ z, key z = key x) (y :: l2)) as Hx.
        { rewrite <- Hf, filter_cons_True by done. by left. }
        apply list_elem_of_filter in Hx as [_ [->|Hx]%elem_of_cons]; [done|].
        by apply Hall2. }
      assert (key x ≤ key y)%Z.
      { assert (y ∈ filter (λ z, key z = key y) (x :: l1)) as Hy.
        { rewrite Hf, filter_cons_True by done. by left. }
        apply list_elem_of_filter in Hy as [_ [->|Hy]%elem_of_cons]; [done|].
        by apply Hall1. }
      lia. }
    pose proof (Hf (key x)) as Hfx.
    rewrite filter_cons_True, (filter_cons_True _ y) in Hfx by done.
    injection Hfx as -> Hfx. f_equal. apply IH; [done|].
    intros k. specialize (Hf k). rewrite !filter_cons in Hf.
    case_decide; [by injection Hf|done].
Qed.

Lemma sorted_by_fst_fmap (out : list (Z * nat)) :
  sorted_by fst out → sorted_by (λ x : Z, x) out.*1.
Proof.
  intros Hs. apply sorted_by_fmap in Hs. apply sorted_by_fmap.
  by rewrite list_fmap_id.
Qed.

Lemma stable_by_fst_fmap (l out : list (Z * nat)) :
  stable_by fst l out → stable_by (λ x : Z, x) l.*1 out.*1.
Proof.
  intros Hst k.
  assert (Hgen : ∀ l' : list (Z * nat),
            filter (λ x : Z, x = k) l'.*1 = (filter (λ a : Z * nat, a.1 = k) l').*1).
  { induction l' as [|a l' IH]; [done|]. rewrite fmap_cons, !filter_cons.
    case_decide; by rewrite ?fmap_cons, IH. }
  by rewrite !Hgen, Hst.
Qed.

(** The run on plain integers is the projection of the run on tagged
    integers, when both produce the stably sorted arrangement. *)
Lemma tagged_projection l (out : list Z) (outT : list (Z * nat)) :
  sorted_by (λ x : Z, x) out → stable_by (λ x : Z, x) l out →
  sorted_by fst outT → stable_by fst (tagged l) outT →
  outT.*1 = out.
Proof.
  intros Hs Hst HsT HstT.
  apply (stable_sort_unique (λ x : Z, x)); [by apply sorted_by_fst_fmap|done|].
  intros k. apply stable_by_fst_fmap in HstT. rewrite tagged_fst in HstT.
  by rewrite HstT, Hst.
Qed.

(** * The claims of the specification *)

(** A non-negative [int]. *)
Definition nonneg_int (x : Z) : Prop := (0 ≤ x ≤ INT_MAX)%Z.

(** The non-negative [int]s of at most nine decimal digits: the values for
    which the digit loop of [radix_sort] ends before its [exp *= RADIX]
    overflows. *)
Definition nine_digits (x : Z) : Prop := (0 ≤ x < 10 ^ 9)%Z.

Lemma sorted_by_id_nondecreasing (l : list Z) :
  sorted_by (λ x : Z, x) l → nondecreasing l.
Proof.
  intros Hs. apply sorted_by_nondecreasing in Hs. by rewrite list_fmap_id in Hs.
Qed.

(** What is proved of the order property: every sort of the suite returns a
    non-decreasing array; heap sort for the sizes whose child indices fit in
    an [int], radix sort for values of at most nine digits, counting sort
    for the inputs whose maximum is below [INT_MAX]. *)
Theorem sorts_nondecreasing (arr : list Z) :
  (∃ out, Quicksort.quicksort_inplace arr (length arr) = Some out ∧
          nondecreasing out) ∧
  (∃ out, ThreeWay.quicksort_three_way arr (length arr) = Some out ∧
          nondecreasing out) ∧
  (∃ out n, Mergesort.mergesort (λ x : Z, x) always arr (length arr) 0
            = Some (out, n) ∧ nondecreasing out) ∧
  (HeapSort.heap_size_ok (length arr) →
   ∃ out, HeapSort.heap_sort arr (length arr) = Some out ∧ nondecreasing out) ∧
  (Forall nine_digits arr →
   ∃ out n, RadixSort.radix_sort (λ x : Z, x) always 9 arr (length arr) 0
            = Some (out, n) ∧ nondecreasing out) ∧
  (Forall (λ x, 0 ≤ x < INT_MAX)%Z arr →
   ∃ out n, CountingSort.counting_sort always arr (length arr) 0 = (out, n) ∧
            nondecreasing out) ∧
  (∀ h p, QuicksortFunctional.wf h → QuicksortFunctional.blocks h !! p = Some arr →
   ∃ q out h',
     QuicksortFunctional.quicksort_functional (λ x : Z, x) always (length arr)
       (Some p) (length arr) h = QuicksortFunctional.Done (Some q, h') ∧
     QuicksortFunctional.blocks h' !! q = Some out ∧ nondecreasing out).
Proof.
  split; [|split; [|split; [|split; [|split; [|split]]]]].
  - destruct (quicksort_inplace_spec arr) as (out & Hrun & _ & Hs).
    exists out. split; [done|]. by apply sorted_range_nondecreasing.
  - destruct (quicksort_three_way_spec arr) as (out & Hrun & _ & Hs).
    exists out. split; [done|]. by apply sorted_range_nondecreasing.
  - destruct (Mergesort.mergesort_spec (λ x : Z, x) always arr 0)
      as (out & n & Hrun & _ & Hs).
    exists out, n. split; [done|]. apply sorted_by_id_nondecreasing. by apply Hs.
  - intros Hsize.
    destruct (HeapSort.heap_sort_spec arr Hsize) as (out & Hrun & _ & Hs).
    exists out. split; [done|]. by apply sorted_range_nondecreasing.
  - intros Hrange.
    destruct (RadixSort.radix_sort_spec (λ x : Z, x) always arr 0 Hrange)
      as (out & n & Hrun & _ & Hs).
    exists out, n. split; [by apply Hrun|].
    apply sorted_by_id_nondecreasing. by apply Hs.
  - intros Hrange.
    destruct (CountingSort.counting_sort_spec always arr 0)
      as (out & n & Hrun & _ & Hs).
    { eapply Forall_impl; [done|]. unfold INT_MAX. simpl. lia. }
    exists out, n. split; [done|]. apply sorted_by_id_nondecreasing.
    apply Hs; [done|done|]. eapply Forall_impl; [done|]. simpl. lia.
  - intros h p Hwf Hp.
    destruct (QuicksortFunctional.quicksort_functional_spec (λ x : Z, x) always
                (length arr) p h arr) as (q & out & n & Hrun & _ & Hs & _);
      [done|done|done|lia|].
    eexists q, out, _. split; [done|]. simpl. rewrite lookup_insert_eq.
    split; [done|]. by apply sorted_by_id_nondecreasing.
Qed.

(** C1 (the order property, for every sort and every in-range input) does
    not hold of [counting_sort]: on the two-element array [{INT_MAX, 0}]
    the [int] expression [max + 1] overflows, [calloc] is asked for a
    negative number of counters and fails, and the function returns with the
    array as it was, which is not in non-decreasing order. *)
Theorem counting_sort_int_max_unsorted (ok : nat → bool) :
  CountingSort.counting_sort ok [INT_MAX; 0%Z] 2 0 = ([INT_MAX; 0%Z], 1) ∧
  ¬ nondecreasing [INT_MAX; 0%Z].
Proof.
  split.
  - unfold CountingSort.counting_sort, CountingSort.calloc_ok. by vm_compute.
  - intros Hs. specialize (Hs 0 INT_MAX 0%Z eq_refl eq_refl). by vm_compute in Hs.
Qed.

(** C5: for in-bounds indices [low ≤ high], [partition arr low high]
    permutes the elements of [arr[low..high]] only, takes the original
    [arr[high]] as pivot and returns an index [i] between [low] and [high]
    such that, after the call, [arr[i]] is the pivot, the elements of
    [arr[low..i-1]] are at most [arr[i]] and those of [arr[i+1..high]] at
    least [arr[i]]. *)
Theorem partition_postcondition (arr : list Z) (low high : nat) :
  low ≤ high → high < length arr →
  ∃ out i, Quicksort.partition arr low high = (out, i) ∧
    length out = length arr ∧
    (∀ k, k < low ∨ high < k → out !! k = arr !! k) ∧
    seg low (S high) out ≡ₚ seg low (S high) arr ∧
    low ≤ i ≤ high ∧
    out !!! i = arr !!! high ∧
    (∀ k, low ≤ k < i → (out !!! k ≤ out !!! i)%Z) ∧
    (∀ k, i < k ≤ high → (out !!! i ≤ out !!! k)%Z).
Proof.
  intros Hlh Hhigh.
  destruct (Quicksort.partition arr low high) as [out i] eqn:Hpart.
  destruct (Quicksort.partition_spec arr low high out i Hlh Hhigh Hpart)
    as (Hi & Hf & Hpiv & Hle & Hgt).
  exists out, i. split; [done|].
  pose proof Hf as (Hlen & Ht & Hd & Hp).
  split; [done|]. split.
  { intros k [Hk|Hk].
    - rewrite <- (lookup_take_lt out low k), <- (lookup_take_lt arr low k) by done.
      by rewrite Ht.
    - replace k with (S high + (k - S high)) by lia.
      rewrite <- !lookup_drop. by rewrite Hd. }
  do 4 (split; [done|]). intros k Hk. specialize (Hgt k Hk). lia.
Qed.

Lemma partition_postcondition_witness :
  1 ≤ 4 ∧ 4 < length [3; 8; 1; 9; 4]%Z ∧
  ∃ out i, Quicksort.partition [3; 8; 1; 9; 4]%Z 1 4 = (out, i) ∧
    length out = length [3; 8; 1; 9; 4]%Z ∧
    (∀ k, k < 1 ∨ 4 < k → out !! k = [3; 8; 1; 9; 4]%Z !! k) ∧
    seg 1 5 out ≡ₚ seg 1 5 [3; 8; 1; 9; 4]%Z ∧
    1 ≤ i ≤ 4 ∧
    out !!! i = [3; 8; 1; 9; 4]%Z !!! 4 ∧
    (∀ k, 1 ≤ k < i → (out !!! k ≤ out !!! i)%Z) ∧
    (∀ k, i < k ≤ 4 → (out !!! i ≤ out !!! k)%Z).
Proof.
  split; [lia|]. split; [simpl; lia|].
  apply (partition_postcondition [3; 8; 1; 9; 4]%Z 1 4); simpl; lia.
Defined.

Lemma wf_singleton {A} (l : list A) :
  QuicksortFunctional.wf (QuicksortFunctional.Heap {[0 := l]} 1).
Proof.
  intros a [v Hv]. simpl in *. apply lookup_singleton_Some in Hv as [<- _]. lia.
Qed.

Lemma nine_digits_tagged (l : list Z) :
  Forall nine_digits l → Forall (RadixSort.in_range fst) (tagged l).
Proof.
  intros Hl. rewrite <- (tagged_fst l) in Hl. rewrite Forall_fmap in Hl.
  apply (Forall_impl _ _ _ Hl). intros [x n] Hx. exact Hx.
Qed.

(** What is proved of the permutation property: the output of every sort
    of the suite has the length of the input and is a permutation of it;
    heap sort for the sizes whose child indices fit in an [int], radix sort
    for values of at most nine digits, counting sort on non-negative
    inputs. *)
Theorem sorts_permute (arr : list Z) :
  (∃ out, Quicksort.quicksort_inplace arr (length arr) = Some out ∧
          length out = length arr ∧ out ≡ₚ arr) ∧
  (∃ out, ThreeWay.quicksort_three_way arr (length arr) = Some out ∧
          length out = length arr ∧ out ≡ₚ arr) ∧
  (∃ out n, Mergesort.mergesort (λ x : Z, x) always arr (length arr) 0
            = Some (out, n) ∧ length out = length arr ∧ out ≡ₚ arr) ∧
  (HeapSort.heap_size_ok (length arr) →
   ∃ out, HeapSort.heap_sort arr (length arr) = Some out ∧
          length out = length arr ∧ out ≡ₚ arr) ∧
  (Forall nine_digits arr →
   ∃ out n, RadixSort.radix_sort (λ x : Z, x) always 9 arr (length arr) 0
            = Some (out, n) ∧ length out = length arr ∧ out ≡ₚ arr) ∧
  (Forall nonneg_int arr →
   ∃ out n, CountingSort.counting_sort always arr (length arr) 0 = (out, n) ∧
            length out = length arr ∧ out ≡ₚ arr) ∧
  (∀ h p, QuicksortFunctional.wf h → QuicksortFunctional.blocks h !! p = Some arr →
   ∃ q out h',
     QuicksortFunctional.quicksort_functional (λ x : Z, x) always (length arr)
       (Some p) (length arr) h = QuicksortFunctional.Done (Some q, h') ∧
     QuicksortFunctional.blocks h' !! q = Some out ∧
     length out = length arr ∧ out ≡ₚ arr).
Proof.
  split; [|split; [|split; [|split; [|split; [|split]]]]].
  - destruct (quicksort_inplace_spec arr) as (out & Hrun & Hp & _).
    exists out. by rewrite (Permutation_length Hp).
  - destruct (quicksort_three_way_spec arr) as (out & Hrun & Hp & _).
    exists out. by rewrite (Permutation_length Hp).
  - destruct (Mergesort.mergesort_spec (λ x : Z, x) always arr 0)
      as (out & n & Hrun & Hp & _).
    exists out, n. by rewrite (Permutation_length Hp).
  - intros Hsize.
    destruct (HeapSort.heap_sort_spec arr Hsize) as (out & Hrun & Hp & _).
    exists out. by rewrite (Permutation_length Hp).
  - intros Hrange.
    destruct (RadixSort.radix_sort_spec (λ x : Z, x) always arr 0 Hrange)
      as (out & n & Hrun & Hp & _).
    exists out, n. rewrite (Permutation_length Hp). split; [by apply Hrun|done].
  - intros Hrange.
    destruct (CountingSort.counting_sort_spec always arr 0 Hrange)
      as (out & n & Hrun & Hp & _).
    exists out, n. by rewrite (Permutation_length Hp).
  - intros h p Hwf Hp.
    destruct (QuicksortFunctional.quicksort_functional_spec (λ x : Z, x) always
                (length arr) p h arr) as (q & out & n & Hrun & _ & _ & _ & Hperm);
      [done|done|done|lia|].
    eexists q, out, _. split; [done|]. simpl. rewrite lookup_insert_eq.
    by rewrite (Permutation_length Hperm).
Qed.

Lemma sorts_permute_witness :
  HeapSort.heap_size_ok (length [170; 45; 75; 90]%Z) ∧
  Forall nine_digits [170; 45; 75; 90]%Z ∧
  Forall nonneg_int [170; 45; 75; 90]%Z ∧
  QuicksortFunctional.wf (QuicksortFunctional.Heap {[0 := [170; 45; 75; 90]%Z]} 1) ∧
  (∃ out, HeapSort.heap_sort [170; 45; 75; 90]%Z 4 = Some out ∧
          length out = 4 ∧ out ≡ₚ [170; 45; 75; 90]%Z) ∧
  (∃ out n, RadixSort.radix_sort (λ x : Z, x) always 9 [170; 45; 75; 90]%Z 4 0
            = Some (out, n) ∧ length out = 4 ∧ out ≡ₚ [170; 45; 75; 90]%Z) ∧
  (∃ out n, CountingSort.counting_sort always [170; 45; 75; 90]%Z 4 0 = (out, n) ∧
            length out = 4 ∧ out ≡ₚ [170; 45; 75; 90]%Z) ∧
  (∃ q out h',
     QuicksortFunctional.quicksort_functional (λ x : Z, x) always 4 (Some 0) 4
       (QuicksortFunctional.Heap {[0 := [170; 45; 75; 90]%Z]} 1)
     = QuicksortFunctional.Done (Some q, h') ∧
     QuicksortFunctional.blocks h' !! q = Some out ∧
     length out = 4 ∧ out ≡ₚ [170; 45; 75; 90]%Z).
Proof.
  assert (Hsize : HeapSort.heap_size_ok (length [170; 45; 75; 90]%Z))
    by by vm_compute.
  assert (Hnine : Forall nine_digits [170; 45; 75; 90]%Z).
  { repeat constructor; by vm_compute. }
  assert (Hrange : Forall nonneg_int [170; 45; 75; 90]%Z).
  { repeat constructor; by vm_compute. }
  destruct (sorts_permute [170; 45; 75; 90]%Z) as (_ & _ & _ & Hh & Hr & Hc & Hq).
  split; [done|]. split; [done|]. split; [done|]. split; [apply wf_singleton|].
  split; [by apply Hh|]. split; [by apply Hr|]. split; [by apply Hc|].
  apply Hq; [apply wf_singleton|done].
Defined.

(** C2 (the output of every sort is a permutation of its input, for
    [radix_sort] on non-negative values) does not hold of [radix_sort]: for
    the non-negative [int]s [{1410065408, 5}] no run of the function returns
    an array, and so none returns a permutation of the input.  The largest
    value has ten decimal digits, the pass for the tenth digit is made, and
    the [exp *= RADIX] that follows it overflows [int]. *)
Theorem radix_sort_large_value_no_permutation :
  Forall nonneg_int [1410065408; 5]%Z ∧
  ¬ ∃ ok fuel n out n',
      RadixSort.radix_sort (λ x : Z, x) ok fuel [1410065408; 5]%Z 2 n
      = Some (out, n') ∧
      out ≡ₚ [1410065408; 5]%Z.
Proof.
  split; [repeat constructor; by vm_compute|].
  intros (ok & fuel & n & out & n' & Hrun & _).
  rewrite (RadixSort.radix_sort_overflow (λ x : Z, x) ok [1410065408; 5]%Z fuel n
             1410065408%Z) in Hrun; [done|simpl; lia|by left|done].
Qed.


(** What is proved of the stability of [radix_sort]: on values of at most
    nine digits, a digit pass is a stable sort on the digit
    [(value / exp) % 10], and the passes together, nine at most, sort the
    array, stably. *)
Theorem radix_sort_stable (l : list Z) :
  Forall nine_digits l →
  (∀ exp n, (0 < exp)%Z →
     ∃ passT,
       RadixSort.counting_sort_by_digit fst always (tagged l) (length l) exp n
       = (passT, S n) ∧
       passT ≡ₚ tagged l ∧
       sorted_by (λ a : Z * nat, (a.1 / exp) `mod` 10)%Z passT ∧
       stable_by (λ a : Z * nat, (a.1 / exp) `mod` 10)%Z (tagged l) passT) ∧
  (∃ out outT n nT,
     (∀ fuel, 9 ≤ fuel →
        RadixSort.radix_sort (λ x : Z, x) always fuel l (length l) 0
        = Some (out, n)) ∧
     (∀ fuel, 9 ≤ fuel →
        RadixSort.radix_sort fst always fuel (tagged l) (length l) 0
        = Some (outT, nT)) ∧
     nondecreasing out ∧ outT.*1 = out ∧ keeps_input_order outT).
Proof.
  intros Hrange. pose proof (nine_digits_tagged l Hrange) as HrangeT. split.
  - intros exp n Hexp.
    pose proof (RadixSort.counting_sort_by_digit_spec fst always (tagged l) exp n)
      as Hpass.
    rewrite tagged_length in Hpass. simpl in Hpass.
    set (d := λ a : Z * nat, RadixSort.digit a.1 exp) in *.
    assert (Hall : Forall (λ a, d a < RadixSort.RADIX) (tagged l)).
    { apply Forall_forall. intros a _. apply RadixSort.digit_lt. }
    assert (Hd : ∀ a, a ∈ tagged l → Z.of_nat (d a) = ((a.1 / exp) `mod` 10)%Z).
    { intros a Ha. apply RadixSort.digit_nonneg; [|done].
      rewrite Forall_forall in HrangeT. by destruct (HrangeT a Ha). }
    eexists. split; [done|]. split; [by apply buckets_Permutation|]. split.
    + apply (sorted_by_ext (λ a, Z.of_nat (d a))); [|apply buckets_sorted].
      intros a Ha. apply Hd. by rewrite buckets_Permutation in Ha.
    + apply (stable_by_ext (λ a, Z.of_nat (d a)));
        [by apply buckets_Permutation|done|by apply buckets_stable].
  - destruct (RadixSort.radix_sort_spec (λ x : Z, x) always l 0 Hrange)
      as (out & n & Hrun & _ & Hs).
    destruct (RadixSort.radix_sort_spec fst always (tagged l) 0 HrangeT)
      as (outT & nT & HrunT & _ & HsT).
    rewrite tagged_length in HrunT.
    destruct (Hs ltac:(done)) as [Hsort Hst].
    destruct (HsT ltac:(done)) as [HsortT HstT].
    exists out, outT, n, nT. split; [done|]. split; [done|].
    split; [by apply sorted_by_id_nondecreasing|].
    split; [by apply (tagged_projection l)|by apply (stable_tagged l)].
Qed.

Lemma radix_sort_stable_witness :
  Forall nine_digits [170; 45; 75; 45]%Z ∧
  ∃ out outT n nT,
    (∀ fuel, 9 ≤ fuel →
       RadixSort.radix_sort (λ x : Z, x) always fuel [170; 45; 75; 45]%Z 4 0
       = Some (out, n)) ∧
    (∀ fuel, 9 ≤ fuel →
       RadixSort.radix_sort fst always fuel (tagged [170; 45; 75; 45]%Z) 4 0
       = Some (outT, nT)) ∧
    nondecreasing out ∧ outT.*1 = out ∧ keeps_input_order outT.
Proof.
  assert (Hrange : Forall nine_digits [170; 45; 75; 45]%Z).
  { repeat constructor; by vm_compute. }
  split; [done|]. apply (radix_sort_stable [170; 45; 75; 45]%Z Hrange).
Defined.

(** C4 (on every input of non-negative values the digit passes of
    [radix_sort], made with [exp = 1, 10, 100, ...] while [max / exp > 0],
    together sort the array stably) does not hold of the code for values of
    ten decimal digits.  On [{1410065408, 5}], tagged with the input
    positions: the maximum is [1410065408]; the loop test holds at
    [exp = 10^9], so the pass for the tenth digit is made; the
    [exp *= RADIX] that follows that pass is [10^10], which is no [int];
    and the run has no result, whatever the fuel and the allocator. *)
Theorem radix_sort_exp_overflows :
  Forall nonneg_int [1410065408; 5]%Z ∧
  RadixSort.find_max fst (tagged [1410065408; 5]%Z) 2 = 1410065408%Z ∧
  (∀ (a : list (Z * nat)) n,
     RadixSort.pass_cond 1410065408 (a, (10 ^ 9)%Z, n) = true) ∧
  (∀ ok (a : list (Z * nat)) n,
     RadixSort.pass_body fst ok 2 (a, (10 ^ 9)%Z, n) = None) ∧
  (∀ ok fuel n,
     RadixSort.radix_sort fst ok fuel (tagged [1410065408; 5]%Z) 2 n = None).
Proof.
  split; [repeat constructor; by vm_compute|]. split; [by vm_compute|].
  split; [intros a n; by vm_compute|]. split.
  - intros ok a n. cbn [RadixSort.pass_body].
    destruct (RadixSort.counting_sort_by_digit fst ok a 2 (10 ^ 9) n) as [a1 n1].
    change (10 ^ 9)%Z with (RadixSort.exp_at 9).
    by rewrite RadixSort.exp_at_overflow.
  - intros ok fuel n.
    apply (RadixSort.radix_sort_overflow fst ok (tagged [1410065408; 5]%Z) fuel n
             (1410065408%Z, 0)); [simpl; lia|by left|simpl; lia].
Qed.



(** What is proved of termination: the sorts that loop or recurse on a
    condition return on every array, [heap_sort] for the sizes whose child
    indices fit in an [int] and [radix_sort] for values of at most nine
    digits, whose digit loop ends within nine passes.  The scan of the
    three-way partition advances [i] or lowers [gt] at each iteration, and
    leaves [lt] and [gt] such that the two recursive calls are on ranges
    strictly shorter than [low..high].  ([counting_sort] is made of [for]
    loops with fixed bounds only.) *)
Theorem sorts_terminate (arr : list Z) :
  (∃ out, Quicksort.quicksort_inplace arr (length arr) = Some out) ∧
  (∃ out, ThreeWay.quicksort_three_way arr (length arr) = Some out) ∧
  (∀ ok n, ∃ out n',
     Mergesort.mergesort (λ x : Z, x) ok arr (length arr) n = Some (out, n')) ∧
  (HeapSort.heap_size_ok (length arr) →
   ∃ out, HeapSort.heap_sort arr (length arr) = Some out) ∧
  (∀ ok n, Forall nine_digits arr →
     ∃ out n', ∀ fuel, 9 ≤ fuel →
       RadixSort.radix_sort (λ x : Z, x) ok fuel arr (length arr) n
       = Some (out, n')) ∧
  (∀ h p, QuicksortFunctional.wf h → QuicksortFunctional.blocks h !! p = Some arr →
     ∃ q h',
       QuicksortFunctional.quicksort_functional (λ x : Z, x) always (length arr)
         (Some p) (length arr) h = QuicksortFunctional.Done (Some q, h')) ∧
  (∀ pivot a lt gt i, 0 < i ≤ gt →
     ∃ a' lt' gt' i',
       ThreeWay.scan_body pivot (a, lt, gt, i) = (a', lt', gt', i') ∧
       (i < i' ∧ gt' = gt ∨ i' = i ∧ gt' < gt) ∧
       ThreeWay.scan_measure (a', lt', gt', i') < ThreeWay.scan_measure (a, lt, gt, i)) ∧
  (∀ low high, low < high → high < length arr →
     ∃ out lt gt,
       while (high - low) ThreeWay.scan_cond (ThreeWay.scan_body (arr !!! low))
         (arr, low, high, low + 1) = Some (out, lt, gt, S gt) ∧
       S (lt - 1) - low < S high - low ∧ S high - (gt + 1) < S high - low).
Proof.
  split; [|split; [|split; [|split; [|split; [|split; [|split]]]]]].
  - destruct (quicksort_inplace_spec arr) as (out & Hrun & _). by exists out.
  - destruct (quicksort_three_way_spec arr) as (out & Hrun & _). by exists out.
  - intros ok n.
    destruct (Mergesort.mergesort_spec (λ x : Z, x) ok arr n) as (out & n' & Hrun & _).
    by exists out, n'.
  - intros Hsize.
    destruct (HeapSort.heap_sort_spec arr Hsize) as (out & Hrun & _). by exists out.
  - intros ok n Hrange.
    destruct (RadixSort.radix_sort_spec (λ x : Z, x) ok arr n Hrange)
      as (out & n' & Hrun & _).
    by exists out, n'.
  - intros h p Hwf Hp.
    destruct (QuicksortFunctional.quicksort_functional_spec (λ x : Z, x) always
                (length arr) p h arr) as (q & out & n & Hrun & _);
      [done|done|done|lia|].
    by eexists q, _.
  - intros pivot a lt gt i Hi. unfold ThreeWay.scan_body.
    repeat case_decide; eexists _, _, _, _; (split; [done|]); simpl; lia.
  - intros low high Hlh Hhigh.
    destruct (ThreeWay.scan_spec arr low high Hlh Hhigh)
      as (out & lt & gt & Hrun & Hlg & Hgh & _).
    exists out, lt, gt. split; [done|]. lia.
Qed.

Lemma sorts_terminate_witness :
  HeapSort.heap_size_ok (length [5; 4; 3; 2; 1]%Z) ∧
  Forall nine_digits [5; 4; 3; 2; 1]%Z ∧
  QuicksortFunctional.wf (QuicksortFunctional.Heap {[0 := [5; 4; 3; 2; 1]%Z]} 1) ∧
  (∃ out, HeapSort.heap_sort [5; 4; 3; 2; 1]%Z 5 = Some out) ∧
  (∃ out n', ∀ fuel, 9 ≤ fuel →
     RadixSort.radix_sort (λ x : Z, x) always fuel [5; 4; 3; 2; 1]%Z 5 0
     = Some (out, n')) ∧
  (∃ q h',
     QuicksortFunctional.quicksort_functional (λ x : Z, x) always 5 (Some 0) 5
       (QuicksortFunctional.Heap {[0 := [5; 4; 3; 2; 1]%Z]} 1)
     = QuicksortFunctional.Done (Some q, h')) ∧
  (∃ out lt gt,
     while (4 - 0) ThreeWay.scan_cond (ThreeWay.scan_body 5)
       ([5; 4; 3; 2; 1]%Z, 0, 4, 0 + 1) = Some (out, lt, gt, S gt) ∧
     S (lt - 1) - 0 < S 4 - 0 ∧ S 4 - (gt + 1) < S 4 - 0).
Proof.
  assert (Hsize : HeapSort.heap_size_ok (length [5; 4; 3; 2; 1]%Z))
    by by vm_compute.
  assert (Hrange : Forall nine_digits [5; 4; 3; 2; 1]%Z).
  { repeat constructor; by vm_compute. }
  destruct (sorts_terminate [5; 4; 3; 2; 1]%Z)
    as (_ & _ & _ & Hh & Hr & Hq & _ & Hs).
  split; [done|]. split; [done|]. split; [apply wf_singleton|].
  split; [by apply Hh|].
  split; [by apply Hr|]. split; [apply Hq; [apply wf_singleton|done]|].
  apply (Hs 0 4); simpl; lia.
Defined.


(** C7: a call of [quicksort_functional] that returns, whatever the
    allocator has done, has left every block of the heap of its caller as
    it was, the input buffer among them; when the allocations succeed it
    returns the address of a block that did not exist before the call,
    hence other than the input buffer, which holds exactly [size]
    elements. *)
Theorem quicksort_functional_input_untouched :
  (∀ (ok : nat → bool) fuel arr size (h : QuicksortFunctional.heap (A:=Z)) r h',
     QuicksortFunctional.wf h →
     QuicksortFunctional.quicksort_functional (λ x : Z, x) ok fuel arr size h
     = QuicksortFunctional.Done (r, h') →
     ∀ k l, QuicksortFunctional.blocks h !! k = Some l →
            QuicksortFunctional.blocks h' !! k = Some l) ∧
  (∀ (h : QuicksortFunctional.heap (A:=Z)) p l,
     QuicksortFunctional.wf h → QuicksortFunctional.blocks h !! p = Some l →
     ∃ q out h',
       QuicksortFunctional.quicksort_functional (λ x : Z, x) always (length l)
         (Some p) (length l) h = QuicksortFunctional.Done (Some q, h') ∧
       q ≠ p ∧ QuicksortFunctional.blocks h !! q = None ∧
       QuicksortFunctional.blocks h' !! q = Some out ∧ length out = length l ∧
       QuicksortFunctional.blocks h' !! p = Some l).
Proof.
  split.
  - intros ok fuel arr size h r h' Hwf Hrun k l Hk.
    destruct (QuicksortFunctional.quicksort_functional_frame _ _ _ _ _ _ _ _ Hrun)
      as [Hfr _].
    rewrite Hfr; [done|]. apply Hwf. by rewrite Hk.
  - intros h p l Hwf Hp.
    destruct (QuicksortFunctional.quicksort_functional_spec (λ x : Z, x) always
                (length l) p h l) as (q & out & n & Hrun & Hq & _ & _ & Hperm);
      [done|done|done|lia|].
    assert (p < QuicksortFunctional.next h) as Hpn by (apply Hwf; by rewrite Hp).
    eexists q, out, _. split; [exact Hrun|]. split; [lia|].
    split; [apply (QuicksortFunctional.wf_fresh (λ x : Z, x)); [done|lia]|]. simpl.
    rewrite lookup_insert_eq. split; [done|].
    split; [by rewrite (Permutation_length Hperm)|].
    rewrite lookup_insert_ne by lia. done.
Qed.

Lemma quicksort_functional_input_untouched_witness :
  QuicksortFunctional.wf (QuicksortFunctional.Heap {[0 := [3; 1; 2]%Z]} 1) ∧
  ∃ q out h',
    QuicksortFunctional.quicksort_functional (λ x : Z, x) always 3 (Some 0) 3
      (QuicksortFunctional.Heap {[0 := [3; 1; 2]%Z]} 1)
    = QuicksortFunctional.Done (Some q, h') ∧
    q ≠ 0 ∧
    QuicksortFunctional.blocks (QuicksortFunctional.Heap {[0 := [3; 1; 2]%Z]} 1) !! q
    = None ∧
    QuicksortFunctional.blocks h' !! q = Some out ∧ length out = 3 ∧
    QuicksortFunctional.blocks h' !! 0 = Some [3; 1; 2]%Z.
Proof.
  split; [apply wf_singleton|].
  destruct quicksort_functional_input_untouched as [_ Hfresh].
  apply (Hfresh (QuicksortFunctional.Heap {[0 := [3; 1; 2]%Z]} 1) 0 [3; 1; 2]%Z);
    [apply wf_singleton|done].
Defined.

(** C8: every sort of the suite returns the empty array for the empty array
    and [[x]] for [[x]], without any failure: the in-place sorts leave the
    buffer as it is, whatever the allocator does, and
    [quicksort_functional] returns a new block that holds a copy of its
    input. *)
Theorem empty_and_singleton (x : Z) :
  (Quicksort.quicksort_inplace [] 0 = Some [] ∧
   Quicksort.quicksort_inplace [x] 1 = Some [x]) ∧
  (ThreeWay.quicksort_three_way [] 0 = Some [] ∧
   ThreeWay.quicksort_three_way [x] 1 = Some [x]) ∧
  (∀ ok n, Mergesort.mergesort (λ x : Z, x) ok [] 0 n = Some ([], n) ∧
           Mergesort.mergesort (λ x : Z, x) ok [x] 1 n = Some ([x], n)) ∧
  (HeapSort.heap_sort [] 0 = Some [] ∧ HeapSort.heap_sort [x] 1 = Some [x]) ∧
  (∀ ok fuel n,
     RadixSort.radix_sort (λ x : Z, x) ok fuel [] 0 n = Some ([], n) ∧
     RadixSort.radix_sort (λ x : Z, x) ok fuel [x] 1 n = Some ([x], n)) ∧
  (∀ ok n, CountingSort.counting_sort ok [] 0 n = ([], n) ∧
           CountingSort.counting_sort ok [x] 1 n = ([x], n)) ∧
  (∀ fuel (h : QuicksortFunctional.heap (A:=Z)) p l,
     QuicksortFunctional.wf h → QuicksortFunctional.blocks h !! p = Some l →
     l = [] ∨ l = [x] →
     QuicksortFunctional.quicksort_functional (λ x : Z, x) always fuel
       (Some p) (length l) h
     = QuicksortFunctional.Done
         (Some (QuicksortFunctional.next h),
          QuicksortFunctional.Heap
            (<[QuicksortFunctional.next h := l]> (QuicksortFunctional.blocks h))
            (S (QuicksortFunctional.next h)))).
Proof.
  split; [done|]. split; [done|]. split; [done|]. split; [done|].
  split; [done|]. split; [done|].
  intros fuel h p l Hwf Hp Hl.
  apply QuicksortFunctional.quicksort_functional_small; [done|done|done|].
  destruct Hl as [-> | ->]; simpl; lia.
Qed.

Lemma empty_and_singleton_witness :
  QuicksortFunctional.wf (QuicksortFunctional.Heap {[0 := [42%Z]]} 1) ∧
  QuicksortFunctional.quicksort_functional (λ x : Z, x) always 1 (Some 0) 1
    (QuicksortFunctional.Heap {[0 := [42%Z]]} 1)
  = QuicksortFunctional.Done
      (Some 1, QuicksortFunctional.Heap (<[1 := [42%Z]]> {[0 := [42%Z]]}) 2).
Proof.
  split; [apply wf_singleton|].
  destruct (empty_and_singleton 42) as (_ & _ & _ & _ & _ & _ & Hq).
  exact (Hq 1 (QuicksortFunctional.Heap {[0 := [42%Z]]} 1) 0 [42%Z]
           (wf_singleton [42%Z]) eq_refl (or_intror eq_refl)).
Defined.

(** C9, as stated, fails: when the third allocation of a run of
    [mergesort] on [{2, 1, 0}] fails, the function returns normally (it
    returns nothing that could report the failure) and leaves the array of
    its caller partially merged, neither as it was nor sorted. *)
Lemma mergesort_failure_leaves_partial_result :
  Mergesort.mergesort (λ x : Z, x) (λ n, bool_decide (n < 2)) [2; 1; 0]%Z 3 0
  = Some ([1; 2; 0]%Z, 4) ∧
  [1; 2; 0]%Z ≠ [2; 1; 0]%Z ∧ ¬ nondecreasing [1; 2; 0]%Z.
Proof.
  split; [by vm_compute|]. split; [done|].
  intros Hs. specialize (Hs 1 2%Z 0%Z eq_refl eq_refl). lia.
Qed.

(** C9, amended: when an allocation fails, the in-place sorts print a
    message and return without reporting the failure; the array of the
    caller keeps its length and its elements, in an order that need not be
    sorted ([counting_sort] leaves it as it was, and so does the digit pass
    of [radix_sort] whose allocation fails; [radix_sort] on values of at
    most nine digits, for which its [exp *= RADIX] does not overflow).
    [quicksort_functional]
    returns [NULL], with the heap of its caller as it was, when the
    allocation of the copy it returns for a size up to one, or of a
    partition buffer that has to hold an element, fails. *)
Theorem allocation_failure_behaviour (ok : nat → bool) (arr : list Z) (n : nat) :
  (∃ out n', Mergesort.mergesort (λ x : Z, x) ok arr (length arr) n
             = Some (out, n') ∧ length out = length arr ∧ out ≡ₚ arr) ∧
  (Forall nine_digits arr →
   ∃ out n', (∀ fuel, 9 ≤ fuel →
                RadixSort.radix_sort (λ x : Z, x) ok fuel arr (length arr) n
                = Some (out, n')) ∧
             length out = length arr ∧ out ≡ₚ arr) ∧
  (∀ exp, ok n = false →
     RadixSort.counting_sort_by_digit (λ x : Z, x) ok arr (length arr) exp n
     = (arr, S n)) ∧
  (Forall nonneg_int arr →
   ∃ out n', CountingSort.counting_sort ok arr (length arr) n = (out, n') ∧
             length out = length arr ∧ out ≡ₚ arr ∧
             (ok n = false ∨ ok (S n) = false → out = arr)) ∧
  (∀ fuel p (h : QuicksortFunctional.heap (A:=Z)),
     length arr ≤ 1 → ok (QuicksortFunctional.next h) = false →
     QuicksortFunctional.quicksort_functional (λ x : Z, x) ok fuel p (length arr) h
     = QuicksortFunctional.Done
         (None, QuicksortFunctional.Heap (QuicksortFunctional.blocks h)
                  (S (QuicksortFunctional.next h)))) ∧
  (∀ fuel p (h : QuicksortFunctional.heap (A:=Z)),
     QuicksortFunctional.wf h → QuicksortFunctional.blocks h !! p = Some arr →
     1 < length arr →
     (0 < length (filter (λ x, (x < arr !!! (length arr / 2)%nat)%Z) arr) ∧
        ok (QuicksortFunctional.next h) = false) ∨
     ok (S (QuicksortFunctional.next h)) = false ∨
     (0 < length (filter (λ x, (arr !!! (length arr / 2)%nat < x)%Z) arr) ∧
        ok (S (S (QuicksortFunctional.next h))) = false) →
     QuicksortFunctional.quicksort_functional (λ x : Z, x) ok (S fuel)
       (Some p) (length arr) h
     = QuicksortFunctional.Done
         (None, QuicksortFunctional.Heap (QuicksortFunctional.blocks h)
                  (S (S (S (QuicksortFunctional.next h)))))).
Proof.
  split; [|split; [|split; [|split; [|split]]]].
  - destruct (Mergesort.mergesort_spec (λ x : Z, x) ok arr n)
      as (out & n' & Hrun & Hp & _).
    exists out, n'. by rewrite (Permutation_length Hp).
  - intros Hrange.
    destruct (RadixSort.radix_sort_spec (λ x : Z, x) ok arr n Hrange)
      as (out & n' & Hrun & Hp & _).
    exists out, n'. by rewrite (Permutation_length Hp).
  - intros exp Hok. unfold RadixSort.counting_sort_by_digit. by rewrite Hok.
  - intros Hrange.
    destruct (CountingSort.counting_sort_spec ok arr n Hrange)
      as (out & n' & Hrun & Hp & _).
    exists out, n'. rewrite (Permutation_length Hp).
    split; [done|]. split; [done|]. split; [done|].
    intros Hfail. revert Hrun. unfold CountingSort.counting_sort.
    case_decide; [by intros [= <- _]|].
    unfold CountingSort.calloc_ok.
    destruct (ok n); [|rewrite andb_false_r; simpl; by intros [= <- _]].
    destruct (ok (S n)); [by destruct Hfail|].
    rewrite andb_true_r. simpl. case_bool_decide; simpl; by intros [= <- _].
  - intros fuel p h Hlen Hok.
    by apply QuicksortFunctional.quicksort_functional_fails_small.
  - intros fuel p h Hwf Hp Hlen Hfail.
    by apply QuicksortFunctional.quicksort_functional_fails_partition.
Qed.

Lemma allocation_failure_behaviour_witness :
  Forall nine_digits [21; 13; 2]%Z ∧
  Forall nonneg_int [2; 1; 0]%Z ∧
  (∃ out n', (∀ fuel, 9 ≤ fuel →
                RadixSort.radix_sort (λ x : Z, x) (λ n, bool_decide (n < 1)) fuel
                  [21; 13; 2]%Z 3 0 = Some (out, n')) ∧
             length out = 3 ∧ out ≡ₚ [21; 13; 2]%Z) ∧
  RadixSort.radix_sort (λ x : Z, x) (λ n, bool_decide (n < 1)) 9 [21; 13; 2]%Z 3 0
  = Some ([21; 2; 13]%Z, 2) ∧
  (∀ exp, RadixSort.counting_sort_by_digit (λ x : Z, x) (λ n, bool_decide (n < 1))
            [21; 2; 13]%Z 3 exp 1 = ([21; 2; 13]%Z, 2)) ∧
  (∃ out n', CountingSort.counting_sort (λ n, bool_decide (n < 2)) [2; 1; 0]%Z 3 1
             = (out, n') ∧
             length out = 3 ∧ out ≡ₚ [2; 1; 0]%Z ∧
             (bool_decide (1 < 2) = false ∨ bool_decide (2 < 2) = false →
              out = [2; 1; 0]%Z)) ∧
  QuicksortFunctional.quicksort_functional (λ x : Z, x) (λ n, bool_decide (n < 2)) 3
    (Some 0) 3 (QuicksortFunctional.Heap {[0 := [2; 1; 0]%Z]} 1)
  = QuicksortFunctional.Done
      (None, QuicksortFunctional.Heap {[0 := [2; 1; 0]%Z]} 4).
Proof.
  assert (Hnine : Forall nine_digits [21; 13; 2]%Z).
  { repeat constructor; by vm_compute. }
  assert (Hrange : Forall nonneg_int [2; 1; 0]%Z).
  { repeat constructor; by vm_compute. }
  split; [done|]. split; [done|].
  split.
  { destruct (allocation_failure_behaviour (λ n, bool_decide (n < 1)) [21; 13; 2]%Z 0)
      as (_ & Hr & _). by apply Hr. }
  split; [by vm_compute|].
  split.
  { destruct (allocation_failure_behaviour (λ n, bool_decide (n < 1)) [21; 2; 13]%Z 1)
      as (_ & _ & Hpass & _). intros exp. by apply Hpass. }
  split.
  { destruct (allocation_failure_behaviour (λ n, bool_decide (n < 2)) [2; 1; 0]%Z 1)
      as (_ & _ & _ & Hc & _). by apply Hc. }
  destruct (allocation_failure_behaviour (λ n, bool_decide (n < 2)) [2; 1; 0]%Z 0)
    as (_ & _ & _ & _ & _ & Hq).
  exact (Hq 2 0 (QuicksortFunctional.Heap {[0 := [2; 1; 0]%Z]} 1)
           (wf_singleton [2; 1; 0]%Z) eq_refl ltac:(simpl; lia)
           (or_intror (or_introl eq_refl))).
Defined.

(** * The other functions of the suite

    What follows embeds the functions that the seven sorts leave out, with
    the conventions used so far:

    - [is_sorted], [copy_array] and [compare_ints], the helpers of the
      drivers (002-quicksort/implementations/c/quicksort.c; [is_sorted] is
      found in the file of every sort),
    - [selection_sort] (022-selection-sort/implementations/c/selection_sort.c),
    - [binary_search] and [binary_search_recursive]
      (004-binary-search/implementations/c/binary_search.c),
    - the six Fibonacci functions
      (001-fibonacci/implementations/c/fibonacci.c),

    and states what these functions, and the functions the sorts are made
    of, guarantee to a caller.  The functions that only print, time or
    parse the command line ([print_array], [run_tests], [benchmark],
    [main]) are left out. *)

(** ** The helpers of the drivers (quicksort.c and the other sorts) *)

Module Utilities.

(** [int compare_ints(const void *a, const void *b)], the comparison handed
    to [qsort]; [ia] and [ib] are the [int]s the two pointers point to.  A
    comparison yields [1] or [0]. *)
Definition compare_ints (ia ib : Z) : Z :=
  (Z.b2z (bool_decide (ia > ib)) - Z.b2z (bool_decide (ia < ib)))%Z.

(** The loop [for (int i = 0; i < size - 1; i++)] of [is_sorted], which
    returns from inside its body: [todo] iterations are left, the next one
    at index [i]. *)
Fixpoint is_sorted_from (arr : list Z) (i todo : nat) : bool :=
  match todo with
  | O => true
  | S todo =>
    if decide (arr !!! i > arr !!! (i + 1)%nat)%Z then false
    else is_sorted_from arr (S i) todo
  end.

(** [bool is_sorted(int arr[], int size)]; the files of the other sorts
    have the same function with the result type [int] ([1] and [0]).  For
    [size = 0] the bound [size - 1] is [-1] and the loop does not run, as
    with the truncated subtraction here. *)
Definition is_sorted (arr : list Z) (size : nat) : bool :=
  is_sorted_from arr 0 (size - 1).

(** [void copy_array(int dest[], int src[], int size)]: the array [dest]
    after the call. *)
Definition copy_array (dest src : list Z) (size : nat) : list Z :=
  for_up 0 size (λ dest i, <[i := src !!! i]> dest) dest.

Lemma is_sorted_from_spec arr i todo :
  is_sorted_from arr i todo = true ↔
  ∀ k, i ≤ k < i + todo → (arr !!! k ≤ arr !!! (k + 1)%nat)%Z.
Proof.
  revert i. induction todo as [|todo IH]; intros i; simpl.
  - split; [|done]. intros _ k Hk. lia.
  - case_decide as Hgt.
    + split; [done|]. intros Hk. specialize (Hk i ltac:(lia)). lia.
    + rewrite IH. split; intros Hk k Hik.
      * destruct (decide (k = i)) as [->|]; [lia|]. apply Hk. lia.
      * apply Hk. lia.
Qed.

Lemma adjacent_sorted_range arr lo hi :
  (∀ k, lo ≤ k → S k < hi → (arr !!! k ≤ arr !!! (k + 1)%nat)%Z) ↔
  sorted_range lo hi arr.
Proof.
  split.
  - intros Hadj i j Hi Hij Hj.
    induction Hij as [|j Hij IH]; [done|].
    etrans; [apply IH; lia|].
    replace (S j) with (j + 1) by lia. apply Hadj; lia.
  - intros Hs k Hk Hhi. apply Hs; lia.
Qed.

Lemma is_sorted_spec arr size :
  is_sorted arr size = true ↔ sorted_range 0 size arr.
Proof.
  unfold is_sorted. rewrite is_sorted_from_spec, <- adjacent_sorted_range.
  split; intros H k ?; [intros ?|]; apply H; lia.
Qed.

End Utilities.

(** * Selection sort (selection_sort.c) *)

Module SelectionSort.

(** The scan [for (int j = i + 1; j < size; j++)] for the index of the
    smallest element of [arr[i .. size-1]]. *)
Definition find_min_idx (arr : list Z) (i size : nat) : nat :=
  for_up (i + 1) size
    (λ min_idx j, if decide (arr !!! j < arr !!! min_idx)%Z then j else min_idx)
    i.

(** [void selection_sort(int arr[], int size)].  [swap(&arr[i],
    &arr[min_idx])] exchanges the two elements through a temporary, which is
    [swap arr i min_idx].  For [size = 0] the bound [size - 1] is [-1] and
    the loop does not run. *)
Definition selection_sort (arr : list Z) (size : nat) : list Z :=
  for_up 0 (size - 1)
    (λ arr i,
       let min_idx := find_min_idx arr i size in
       if decide (min_idx ≠ i) then swap arr i min_idx else arr)
    arr.

Lemma find_min_idx_spec arr i size :
  i < size →
  let m := find_min_idx arr i size in
  i ≤ m < size ∧ ∀ k, i ≤ k < size → (arr !!! m ≤ arr !!! k)%Z.
Proof.
  intros Hi. unfold find_min_idx.
  pose (I := λ (j : nat) (m : nat),
    i ≤ m < j ∧ ∀ k, i ≤ k < j → (arr !!! m ≤ arr !!! k)%Z).
  assert (I size (for_up (i + 1) size
    (λ min_idx j, if decide (arr !!! j < arr !!! min_idx)%Z then j else min_idx) i))
    as [Hm Hmin].
  { apply for_up_rule; [lia| |].
    - split; [lia|]. intros k Hk. by replace k with i by lia.
    - intros j m Hj [Hm Hmin]. unfold I. case_decide as Hlt.
      + split; [lia|]. intros k Hk.
        destruct (decide (k = j)) as [->|]; [done|].
        specialize (Hmin k ltac:(lia)). lia.
      + split; [lia|]. intros k Hk.
        destruct (decide (k = j)) as [->|]; [lia|]. apply Hmin. lia. }
  split; [lia|done].
Qed.

Lemma selection_sort_spec arr size :
  size ≤ length arr →
  frame_perm 0 size arr (selection_sort arr size) ∧
  sorted_range 0 size (selection_sort arr size).
Proof.
  intros Hsize. unfold selection_sort.
  pose (I := λ (i : nat) (a : list Z),
    frame_perm 0 size arr a ∧ sorted_range 0 i a ∧
    ∀ k l, k < i → i ≤ l < size → (a !!! k ≤ a !!! l)%Z).
  assert (I (size - 1) (for_up 0 (size - 1)
    (λ arr i,
       let min_idx := find_min_idx arr i size in
       if decide (min_idx ≠ i) then swap arr i min_idx else arr) arr))
    as (Hf & Hs & Hle).
  { apply for_up_rule; [lia| |].
    - split; [apply frame_perm_refl|]. split; [intros i j ???; lia|]. intros; lia.
    - intros i a Hi (Hf & Hs & Hle). unfold I. cbv zeta.
      assert (length a = length arr) as Hlen by apply Hf.
      destruct (find_min_idx_spec a i size ltac:(lia)) as [Hm Hmin].
      set (m := find_min_idx a i size) in *. clearbody m.
      case_decide as Hne.
      + assert (i < m) as Him by lia. split.
        { eapply frame_perm_trans; [done|]. apply frame_perm_swap; lia. }
        split.
        * intros k l _ Hkl Hl. rewrite !swap_lookup by lia.
          repeat case_decide;
            first [lia | reflexivity | apply Hle; lia | apply Hs; lia | apply Hmin; lia].
        * intros k l Hk Hl. rewrite !swap_lookup by lia.
          repeat case_decide;
            first [lia | reflexivity | apply Hle; lia | apply Hs; lia | apply Hmin; lia].
      + assert (m = i) as -> by lia. split; [done|]. split.
        * intros k l _ Hkl Hl.
          destruct (decide (l < i)); [apply Hs; lia|].
          destruct (decide (k = l)) as [->|]; [done|]. apply Hle; lia.
        * intros k l Hk Hl.
          destruct (decide (k = i)) as [->|]; [apply Hmin; lia|apply Hle; lia]. }
  split; [done|].
  intros i j _ Hij Hj.
  destruct (decide (j < size - 1)) as [Hlt|Hge]; [apply Hs; lia|].
  destruct (decide (i = j)) as [->|]; [done|].
  apply Hle; lia.
Qed.

End SelectionSort.

(** * Binary search (binary_search.c)

    The indices [left], [right] and [mid] are modelled as the [int]s they
    are, with the wrap-around of their arithmetic written out: [right]
    starts at [size - 1], which is [-1] for the empty array, and [mid - 1]
    is [-1] when the search leaves the array on the left. *)

Module BinarySearch.

(** The state of the loop [while (left <= right)] of [binary_search]:
    [left], [right], and the index the body has returned, if it has. *)
Definition search_state : Type := Z * Z * option Z.

Definition search_cond (st : search_state) : bool :=
  let left := st.1.1 in let right := st.1.2 in let returned := st.2 in
  bool_decide (returned = None) && bool_decide (left ≤ right)%Z.

Definition search_body (arr : list Z) (target : Z) (st : search_state)
  : search_state :=
  let left := st.1.1 in let right := st.1.2 in
  let mid := wrap32 (left + Z.quot (wrap32 (right - left)) 2) in
  if decide (arr !!! Z.to_nat mid = target) then (left, right, Some mid)
  else if decide (arr !!! Z.to_nat mid < target)%Z
       then (wrap32 (mid + 1), right, None)
       else (left, wrap32 (mid - 1), None).

(** [int binary_search(const int arr[], int size, int target)] *)
Definition binary_search (fuel : nat) (arr : list Z) (size : nat) (target : Z)
  : option Z :=
  '(_, _, returned) ←
    while fuel search_cond (search_body arr target)
      (0%Z, wrap32 (Z.of_nat size - 1), None);
  Some (default (-1)%Z returned).

(** [int binary_search_recursive_helper(const int arr[], int left,
                                        int right, int target)] *)
Fixpoint binary_search_recursive_helper (fuel : nat) (arr : list Z)
    (left right : Z) (target : Z) : option Z :=
  if decide (left > right)%Z then Some (-1)%Z
  else
    match fuel with
    | O => None
    | S fuel =>
      let mid := wrap32 (left + Z.quot (wrap32 (right - left)) 2) in
      if decide (arr !!! Z.to_nat mid = target) then Some mid
      else if decide (arr !!! Z.to_nat mid < target)%Z
           then binary_search_recursive_helper fuel arr (wrap32 (mid + 1)) right target
           else binary_search_recursive_helper fuel arr left (wrap32 (mid - 1)) target
    end.

(** [int binary_search_recursive(const int arr[], int size, int target)] *)
Definition binary_search_recursive (fuel : nat) (arr : list Z) (size : nat)
    (target : Z) : option Z :=
  binary_search_recursive_helper fuel arr 0 (wrap32 (Z.of_nat size - 1)) target.

(** ** The loop *)

Lemma wrap32_id z : (- 2 ^ 31 ≤ z ≤ INT_MAX)%Z → wrap32 z = z.
Proof. unfold wrap32, INT_MAX. intros Hz. rewrite Z.mod_small; lia. Qed.

Lemma search_cond_None left right :
  search_cond (left, right, None) = bool_decide (left ≤ right)%Z.
Proof. unfold search_cond. cbn [fst snd]. by rewrite bool_decide_eq_true_2 by done. Qed.

Lemma while_None fuel arr target left right :
  while fuel search_cond (search_body arr target) (left, right, None) =
  if bool_decide (left ≤ right)%Z then
    match fuel with
    | O => None
    | S fuel =>
      while fuel search_cond (search_body arr target)
        (search_body arr target (left, right, None))
    end
  else Some (left, right, None).
Proof. destruct fuel; cbn [while]; by rewrite search_cond_None. Qed.

Lemma while_returned fuel arr target left right mid :
  while fuel search_cond (search_body arr target) (left, right, Some mid)
  = Some (left, right, Some mid).
Proof. by destruct fuel. Qed.

(** The midpoint lies in the range, and the two halves it leaves are at
    most half as long. *)
Lemma midpoint_facts (left right : Z) :
  (0 ≤ left ≤ right)%Z → (right ≤ INT_MAX)%Z →
  let mid := wrap32 (left + Z.quot (wrap32 (right - left)) 2) in
  (left ≤ mid ≤ right)%Z ∧
  (2 * (mid - left) ≤ right - left ≤ 2 * (mid - left) + 1)%Z.
Proof.
  intros Hlr Hr. cbv zeta.
  rewrite (wrap32_id (right - left)) by (unfold INT_MAX in *; lia).
  rewrite Z.quot_div_nonneg by lia.
  pose proof (Z.div_mod (right - left) 2 ltac:(done)) as Hdiv.
  pose proof (Z.mod_pos_bound (right - left) 2 ltac:(done)) as Hmod.
  rewrite wrap32_id by (unfold INT_MAX in *; lia). lia.
Qed.

(** What the search has established when it stops. *)
Definition search_post (arr : list Z) (target : Z) (r : Z) : Prop :=
  (r = (-1)%Z ∧ (sorted_range 0 (length arr) arr → target ∉ arr)) ∨
  ((0 ≤ r < Z.of_nat (length arr))%Z ∧ arr !!! Z.to_nat r = target).

Lemma search_loop arr target fuel left right :
  (Z.of_nat (length arr) ≤ INT_MAX)%Z →
  (0 ≤ left)%Z → (right < Z.of_nat (length arr))%Z → (left ≤ right + 1)%Z →
  (right - left + 1 < 2 ^ Z.of_nat fuel)%Z →
  (sorted_range 0 (length arr) arr →
   ∀ k, k < length arr → arr !!! k = target → (left ≤ Z.of_nat k ≤ right)%Z) →
  ∃ l' r' returned,
    while fuel search_cond (search_body arr target) (left, right, None)
    = Some (l', r', returned) ∧
    search_post arr target (default (-1)%Z returned).
Proof.
  intros Hsize. revert left right.
  induction fuel as [|fuel IH]; intros left right Hl Hr Hlr Hfuel Hin.
  - assert (right < left)%Z by (simpl in Hfuel; lia).
    exists left, right, None. split.
    + rewrite while_None. by rewrite bool_decide_eq_false_2 by lia.
    + left. split; [done|]. intros Hs (k & Hk)%list_elem_of_lookup.
      pose proof (lookup_lt_Some _ _ _ Hk).
      specialize (Hin Hs k ltac:(done) (list_lookup_total_correct _ _ _ Hk)). lia.
  - destruct (decide (left ≤ right)%Z) as [Hle|Hgt].
    2:{ exists left, right, None. split.
        + rewrite while_None. by rewrite bool_decide_eq_false_2 by lia.
        + left. split; [done|]. intros Hs (k & Hk)%list_elem_of_lookup.
          pose proof (lookup_lt_Some _ _ _ Hk).
          specialize (Hin Hs k ltac:(done) (list_lookup_total_correct _ _ _ Hk)).
          lia. }
    rewrite while_None, bool_decide_eq_true_2 by done.
    unfold search_body at 2. cbn [fst snd].
    destruct (midpoint_facts left right) as [Hmid Hhalf]; [lia|lia|].
    set (mid := wrap32 (left + Z.quot (wrap32 (right - left)) 2)) in *.
    clearbody mid.
    assert (2 ^ Z.of_nat (S fuel) = 2 * 2 ^ Z.of_nat fuel)%Z as Hpow.
    { rewrite Nat2Z.inj_succ, Z.pow_succ_r by lia. done. }
    case_decide as Heq.
    { exists left, right, (Some mid). split; [apply while_returned|].
      right. simpl. split; [lia|done]. }
    case_decide as Hlt.
    + rewrite (wrap32_id (mid + 1)) by (unfold INT_MAX in *; lia).
      apply IH; [lia..|].
      intros Hs k Hk Hkt. specialize (Hin Hs k Hk Hkt). split; [|lia].
      destruct (decide (mid + 1 ≤ Z.of_nat k)%Z); [done|].
      specialize (Hs k (Z.to_nat mid) ltac:(lia) ltac:(lia) ltac:(lia)). lia.
    + rewrite (wrap32_id (mid - 1)) by (unfold INT_MAX in *; lia).
      apply IH; [lia..|].
      intros Hs k Hk Hkt. specialize (Hin Hs k Hk Hkt). split; [lia|].
      destruct (decide (Z.of_nat k ≤ mid - 1)%Z); [done|].
      destruct (decide (Z.of_nat k = mid)) as [Hkm|].
      { rewrite <- Hkm, Nat2Z.id in Heq. done. }
      specialize (Hs (Z.to_nat mid) k ltac:(lia) ltac:(lia) ltac:(lia)). lia.
Qed.

Lemma binary_search_spec arr target fuel :
  (Z.of_nat (length arr) ≤ INT_MAX)%Z →
  (Z.of_nat (length arr) < 2 ^ Z.of_nat fuel)%Z →
  ∃ r, binary_search fuel arr (length arr) target = Some r ∧
       search_post arr target r.
Proof.
  intros Hsize Hfuel. unfold binary_search.
  rewrite wrap32_id by (unfold INT_MAX in *; lia).
  destruct (search_loop arr target fuel 0 (Z.of_nat (length arr) - 1))
    as (l' & r' & ret & -> & Hpost); [done|lia..| |].
  { intros _ k Hk _. lia. }
  simpl. eauto.
Qed.

(** The recursive form takes the same steps as the loop. *)
Lemma binary_search_recursive_helper_loop fuel arr left right target :
  binary_search_recursive_helper fuel arr left right target =
  '(_, _, returned) ←
    while fuel search_cond (search_body arr target) (left, right, None);
  Some (default (-1)%Z returned).
Proof.
  revert left right. induction fuel as [|fuel IH]; intros left right;
    cbn [binary_search_recursive_helper]; rewrite while_None.
  - case_decide; [by rewrite bool_decide_eq_false_2 by lia|].
    by rewrite !bool_decide_eq_true_2 by lia.
  - case_decide; [by rewrite bool_decide_eq_false_2 by lia|].
    rewrite !bool_decide_eq_true_2 by lia.
    unfold search_body at 2. cbn [fst snd]. cbv zeta.
    repeat case_decide; [by rewrite while_returned|apply IH..].
Qed.

End BinarySearch.

(** * Fibonacci numbers (fibonacci.c)

    The argument [n] is a C [int], modelled as [Z]; the results are
    [uint64_t], modelled as [Z] with the reduction modulo [2^64] of every
    addition, subtraction and multiplication written out ([u64]). *)

Module Fibonacci.

(** [#define MAX_FIB_N 93] *)
Definition MAX_FIB_N : Z := 93.

(** The value of an integer expression as a [uint64_t]. *)
Definition u64 (z : Z) : Z := (z `mod` 2 ^ 64)%Z.

(** [uint64_t fib_recursive(int n)]; [return n] converts the [int] to
    [uint64_t]. *)
Fixpoint fib_recursive (fuel : nat) (n : Z) : option Z :=
  if decide (n ≤ 1)%Z then Some (u64 n)
  else
    match fuel with
    | O => None
    | S fuel =>
      a ← fib_recursive fuel (n - 1)%Z;
      b ← fib_recursive fuel (n - 2)%Z;
      Some (u64 (a + b))
    end.

(** [uint64_t fib_iterative(int n)]: the loop
    [for (int i = 2; i <= n; i++)] on the state [(prev, curr)].  (For
    [n = INT_MAX] the increment of [i] would overflow; the theorems are
    about smaller [n].) *)
Definition fib_iterative (n : Z) : Z :=
  if decide (n ≤ 1)%Z then u64 n
  else
    let '(prev, curr) :=
      for_up 2 (Z.to_nat n + 1)
        (λ '(prev, curr) i, let next := u64 (prev + curr) in (curr, next))
        (0%Z, 1%Z) in
    curr.

(** The static variables of [fib_memoized]: the cache of [MAX_FIB_N + 1]
    entries and the flag [initialized]. *)
Record memo : Type := Memo { cache : list Z; initialized : bool }.

(** Static storage starts zeroed. *)
Definition memo_start : memo :=
  Memo (replicate (Z.to_nat (MAX_FIB_N + 1)) 0%Z) false.

(** The outcome of a call that works on the cache: a result, an access
    outside the cache array, or fuel running out. *)
Inductive outcome (T : Type) : Type :=
  | Ret (x : T)
  | OutOfBounds
  | OutOfFuel.
Arguments Ret {T} x.
Arguments OutOfBounds {T}.
Arguments OutOfFuel {T}.

#[local] Instance outcome_bind : MBind outcome := λ T U k m,
  match m with
  | Ret x => k x
  | OutOfBounds => OutOfBounds
  | OutOfFuel => OutOfFuel
  end.

Section Memoized.

(** C leaves open which operand of
    [fib_memoized(n - 1) + fib_memoized(n - 2)] is evaluated first. *)
Variable left_first : bool.

(** [uint64_t fib_memoized(int n)], on the static variables: the result
    and the static variables after the call. *)
Fixpoint fib_memoized (fuel : nat) (n : Z) (s : memo) : outcome (Z * memo) :=
  let s :=
    if initialized s then s
    else Memo (<[1 := 1%Z]> (<[0 := 0%Z]>
                 (replicate (Z.to_nat (MAX_FIB_N + 1)) 0%Z))) true in
  if decide (n ≤ 1)%Z then Ret (u64 n, s)
  else
    match cache s !! Z.to_nat n with
    | None => OutOfBounds
    | Some c =>
      if decide (c ≠ 0%Z ∨ n = 0%Z) then Ret (c, s)
      else
        match fuel with
        | O => OutOfFuel
        | S fuel =>
          '(a, b, s) ←
            (if left_first then
               '(a, s) ← fib_memoized fuel (n - 1)%Z s;
               '(b, s) ← fib_memoized fuel (n - 2)%Z s;
               Ret (a, b, s)
             else
               '(b, s) ← fib_memoized fuel (n - 2)%Z s;
               '(a, s) ← fib_memoized fuel (n - 1)%Z s;
               Ret (a, b, s));
          let v := u64 (a + b) in
          Ret (v, Memo (<[Z.to_nat n := v]> (cache s)) (initialized s))
        end
    end.

End Memoized.

(** [uint64_t a[2][2]] *)
Record matrix : Type := Matrix { m00 : Z; m01 : Z; m10 : Z; m11 : Z }.

(** [void matrix_mult(uint64_t a[2][2], uint64_t b[2][2],
                      uint64_t result[2][2])]: the product is built in a
    temporary and then copied, so [result] may be one of the operands. *)
Definition matrix_mult (a b : matrix) : matrix :=
  Matrix (u64 (u64 (m00 a * m00 b) + u64 (m01 a * m10 b)))
         (u64 (u64 (m00 a * m01 b) + u64 (m01 a * m11 b)))
         (u64 (u64 (m10 a * m00 b) + u64 (m11 a * m10 b)))
         (u64 (u64 (m10 a * m01 b) + u64 (m11 a * m11 b))).

(** [void matrix_pow(uint64_t mat[2][2], int n, uint64_t result[2][2])];
    [n % 2] and [n / 2] are the truncating operations of C. *)
Fixpoint matrix_pow (fuel : nat) (mat : matrix) (n : Z) : option matrix :=
  if decide (n = 1%Z) then Some mat
  else
    match fuel with
    | O => None
    | S fuel =>
      if decide (Z.rem n 2 = 0%Z) then
        half ← matrix_pow fuel mat (Z.quot n 2);
        Some (matrix_mult half half)
      else
        temp ← matrix_pow fuel mat (n - 1)%Z;
        Some (matrix_mult mat temp)
    end.

(** [uint64_t fib_matrix(int n)] *)
Definition fib_matrix (fuel : nat) (n : Z) : option Z :=
  if decide (n = 0%Z) then Some 0%Z
  else if decide (n = 1%Z) then Some 1%Z
  else
    let base := Matrix 1 1 1 0 in
    result ← matrix_pow fuel base n;
    Some (m01 result).

(** [uint64_t fib_tail_helper(int n, uint64_t prev, uint64_t curr)] *)
Fixpoint fib_tail_helper (fuel : nat) (n : Z) (prev curr : Z) : option Z :=
  if decide (n = 0%Z) then Some prev
  else
    match fuel with
    | O => None
    | S fuel => fib_tail_helper fuel (wrap32 (n - 1)) curr (u64 (prev + curr))
    end.

(** [uint64_t fib_tail_recursive(int n)] *)
Definition fib_tail_recursive (fuel : nat) (n : Z) : option Z :=
  fib_tail_helper fuel n 0 1.

(** [uint64_t fib_optimized(int n)]: the loop on the state [(a, b)]. *)
Definition fib_optimized (n : Z) : Z :=
  if decide (n ≤ 1)%Z then u64 n
  else
    let '(a, b) :=
      for_up 2 (Z.to_nat n + 1)
        (λ '(a, b) i, let b := u64 (a + b) in let a := u64 (b - a) in (a, b))
        (0%Z, 1%Z) in
    b.

(** ** The Fibonacci numbers *)

(** The sequence the functions are compared with:
    [F 0 = 0], [F 1 = 1], [F (n + 2) = F (n + 1) + F n]. *)
Fixpoint fibonacci (n : nat) : Z :=
  match n with
  | O => 0
  | S n' =>
    match n' with
    | O => 1
    | S n'' => fibonacci n' + fibonacci n''
    end
  end%Z.

Lemma fibonacci_SS n : fibonacci (S (S n)) = (fibonacci (S n) + fibonacci n)%Z.
Proof. done. Qed.

Lemma fibonacci_nonneg n : (0 ≤ fibonacci n)%Z ∧ (0 ≤ fibonacci (S n))%Z.
Proof.
  induction n as [|n [IH1 IH2]]; [done|]. split; [done|].
  rewrite fibonacci_SS. lia.
Qed.

Lemma fibonacci_pos n : 0 < n → (0 < fibonacci n)%Z.
Proof.
  intros Hn. destruct n as [|n]; [lia|]. clear Hn.
  induction n as [|n IH]; [done|]. rewrite fibonacci_SS.
  pose proof (fibonacci_nonneg n). lia.
Qed.

Lemma fibonacci_mono n m : n ≤ m → (fibonacci n ≤ fibonacci m)%Z.
Proof.
  induction 1 as [|m _ IH]; [done|]. etrans; [done|].
  destruct m as [|m]; [done|]. rewrite fibonacci_SS.
  pose proof (fibonacci_nonneg m). lia.
Qed.

(** The pair [(F n, F (n + 1))], by which the numbers are computed in
    linear time. *)
Definition fibonacci_pair (n : nat) : Z * Z :=
  Nat.iter n (λ '(a, b), (b, a + b)%Z) (0%Z, 1%Z).

Lemma fibonacci_pair_spec n : fibonacci_pair n = (fibonacci n, fibonacci (S n)).
Proof.
  induction n as [|n IH]; [done|].
  change (fibonacci_pair (S n))
    with ((λ '(a, b), (b, a + b)%Z) (fibonacci_pair n) : Z * Z).
  rewrite IH. rewrite (fibonacci_SS n). f_equal. lia.
Qed.

Lemma fibonacci_fst n : fibonacci n = (fibonacci_pair n).1.
Proof. by rewrite fibonacci_pair_spec. Qed.

Lemma fibonacci_93 : fibonacci 93 = 12200160415121876738%Z.
Proof. rewrite fibonacci_fst. vm_compute. reflexivity. Qed.

Lemma fibonacci_94 : fibonacci 94 = 19740274219868223167%Z.
Proof. rewrite fibonacci_fst. vm_compute. reflexivity. Qed.

(** The numbers up to [F 93] fit in a [uint64_t]. *)
Lemma fibonacci_fits n : n ≤ 93 → u64 (fibonacci n) = fibonacci n.
Proof.
  intros Hn. unfold u64. apply Z.mod_small.
  pose proof (fibonacci_nonneg n) as [? _].
  pose proof (fibonacci_mono n 93 Hn) as Hle. rewrite fibonacci_93 in Hle. lia.
Qed.

(** ** Arithmetic modulo [2^64] *)

#[local] Instance eqm64_equiv : Equivalence (eqm (2 ^ 64)) := eqm_setoid _.
#[local] Instance eqm64_add :
  Proper (eqm (2 ^ 64) ==> eqm (2 ^ 64) ==> eqm (2 ^ 64)) Z.add := Zplus_eqm _.
#[local] Instance eqm64_sub :
  Proper (eqm (2 ^ 64) ==> eqm (2 ^ 64) ==> eqm (2 ^ 64)) Z.sub := Zminus_eqm _.
#[local] Instance eqm64_mul :
  Proper (eqm (2 ^ 64) ==> eqm (2 ^ 64) ==> eqm (2 ^ 64)) Z.mul := Zmult_eqm _.

Lemma u64_eqm z : eqm (2 ^ 64) (u64 z) z.
Proof. apply Zmod_eqm. Qed.

Lemma u64_congr x y : eqm (2 ^ 64) x y → u64 x = u64 y.
Proof. done. Qed.

Lemma u64_add x y : u64 (u64 x + u64 y) = u64 (x + y).
Proof. apply u64_congr. by repeat setoid_rewrite u64_eqm. Qed.

Lemma u64_small z : (0 ≤ z < 2 ^ 64)%Z → u64 z = z.
Proof. intros. by apply Z.mod_small. Qed.

Lemma u64_idemp z : u64 (u64 z) = u64 z.
Proof. apply u64_congr, u64_eqm. Qed.

(** ** The recursive definition *)

Lemma fib_recursive_spec fuel n :
  (0 ≤ n)%Z → Z.to_nat n ≤ S fuel →
  fib_recursive fuel n = Some (u64 (fibonacci (Z.to_nat n))).
Proof.
  revert n. induction fuel as [|fuel IH]; intros n Hn Hfuel;
    cbn [fib_recursive]; case_decide as Hle.
  - assert (n = 0 ∨ n = 1)%Z as [-> | ->] by lia; done.
  - lia.
  - assert (n = 0 ∨ n = 1)%Z as [-> | ->] by lia; done.
  - rewrite !IH by lia. simpl.
    replace (Z.to_nat n) with (S (S (Z.to_nat (n - 2)))) by lia.
    replace (Z.to_nat (n - 1)) with (S (Z.to_nat (n - 2))) by lia.
    rewrite fibonacci_SS. by rewrite u64_add.
Qed.

Lemma fib_recursive_negative fuel n :
  (n < 0)%Z → fib_recursive fuel n = Some (u64 n).
Proof. intros Hn. destruct fuel; cbn [fib_recursive]; by rewrite decide_True by lia. Qed.

(** ** The loops *)

Lemma fib_iterative_spec n :
  (0 ≤ n)%Z → fib_iterative n = u64 (fibonacci (Z.to_nat n)).
Proof.
  intros Hn. unfold fib_iterative. case_decide as Hle.
  { assert (n = 0 ∨ n = 1)%Z as [-> | ->] by lia; done. }
  pose (I := λ (i : nat) (st : Z * Z),
    st = (u64 (fibonacci (i - 2)), u64 (fibonacci (i - 1)))).
  assert (I (Z.to_nat n + 1) (for_up 2 (Z.to_nat n + 1)
    (λ '(prev, curr) i, let next := u64 (prev + curr) in (curr, next))
    (0%Z, 1%Z))) as HI.
  { apply for_up_rule; [lia|done|].
    intros i [prev curr] Hi [= -> ->]. unfold I. cbv zeta.
    destruct i as [|[|j]]; [lia..|]. cbn [Nat.sub]. rewrite !Nat.sub_0_r.
    rewrite u64_add, fibonacci_SS. do 2 f_equal. lia. }
  destruct (for_up _ _ _ _) as [prev curr]. injection HI as -> ->.
  do 2 f_equal. lia.
Qed.

Lemma fib_optimized_spec n :
  (0 ≤ n)%Z → fib_optimized n = u64 (fibonacci (Z.to_nat n)).
Proof.
  intros Hn. unfold fib_optimized. case_decide as Hle.
  { assert (n = 0 ∨ n = 1)%Z as [-> | ->] by lia; done. }
  pose (I := λ (i : nat) (st : Z * Z),
    st = (u64 (fibonacci (i - 2)), u64 (fibonacci (i - 1)))).
  assert (I (Z.to_nat n + 1) (for_up 2 (Z.to_nat n + 1)
    (λ '(a, b) i, let b := u64 (a + b) in let a := u64 (b - a) in (a, b))
    (0%Z, 1%Z))) as HI.
  { apply for_up_rule; [lia|done|].
    intros i [a b] Hi [= -> ->]. unfold I. cbv zeta.
    destruct i as [|[|j]]; [lia..|]. cbn [Nat.sub]. rewrite !Nat.sub_0_r.
    rewrite fibonacci_SS. f_equal.
    - apply u64_congr. repeat setoid_rewrite u64_eqm.
      replace (fibonacci j + fibonacci (S j) - fibonacci j)%Z
        with (fibonacci (S j)) by lia.
      done.
    - rewrite u64_add. f_equal. lia. }
  destruct (for_up _ _ _ _) as [a b]. injection HI as -> ->.
  do 2 f_equal. lia.
Qed.

Lemma fib_tail_helper_spec fuel n k :
  (0 ≤ n ≤ INT_MAX)%Z → Z.to_nat n ≤ fuel →
  fib_tail_helper fuel n (u64 (fibonacci k)) (u64 (fibonacci (S k)))
  = Some (u64 (fibonacci (k + Z.to_nat n))).
Proof.
  revert n k. induction fuel as [|fuel IH]; intros n k Hn Hfuel;
    cbn [fib_tail_helper]; case_decide as H0.
  - subst. by rewrite Nat.add_0_r.
  - lia.
  - subst. by rewrite Nat.add_0_r.
  - rewrite CountingSort.wrap32_small by (unfold INT_MAX in *; lia).
    rewrite u64_add, (Z.add_comm (fibonacci k)), <- fibonacci_SS.
    rewrite IH by lia. do 3 f_equal. lia.
Qed.

(** ** The matrix form *)

(** The product over [Z], before reduction. *)
Definition matrix_mult_exact (a b : matrix) : matrix :=
  Matrix (m00 a * m00 b + m01 a * m10 b) (m00 a * m01 b + m01 a * m11 b)
         (m10 a * m00 b + m11 a * m10 b) (m10 a * m01 b + m11 a * m11 b)%Z.

(** Entry-wise congruence modulo [2^64]. *)
Definition matrix_eqm (a b : matrix) : Prop :=
  eqm (2 ^ 64) (m00 a) (m00 b) ∧ eqm (2 ^ 64) (m01 a) (m01 b) ∧
  eqm (2 ^ 64) (m10 a) (m10 b) ∧ eqm (2 ^ 64) (m11 a) (m11 b).

Definition matrix_u64 (a : matrix) : matrix :=
  Matrix (u64 (m00 a)) (u64 (m01 a)) (u64 (m10 a)) (u64 (m11 a)).

Lemma matrix_u64_eqm a : matrix_eqm (matrix_u64 a) a.
Proof. repeat split; apply u64_eqm. Qed.

Lemma matrix_mult_u64 a b : matrix_mult a b = matrix_u64 (matrix_mult_exact a b).
Proof. unfold matrix_mult, matrix_u64. simpl. by rewrite !u64_add. Qed.

Lemma matrix_u64_congr a b : matrix_eqm a b → matrix_u64 a = matrix_u64 b.
Proof.
  intros (H1 & H2 & H3 & H4). unfold matrix_u64.
  by rewrite (u64_congr _ _ H1), (u64_congr _ _ H2), (u64_congr _ _ H3),
    (u64_congr _ _ H4).
Qed.

Lemma matrix_mult_exact_congr a a' b b' :
  matrix_eqm a a' → matrix_eqm b b' →
  matrix_eqm (matrix_mult_exact a b) (matrix_mult_exact a' b').
Proof.
  intros (A1 & A2 & A3 & A4) (B1 & B2 & B3 & B4).
  repeat split; simpl; by rewrite ?A1, ?A2, ?A3, ?A4, ?B1, ?B2, ?B3, ?B4.
Qed.

Lemma matrix_eqm_refl a : matrix_eqm a a.
Proof. by repeat split. Qed.

Lemma matrix_eqm_sym a b : matrix_eqm a b → matrix_eqm b a.
Proof. intros (A1 & A2 & A3 & A4). by repeat split. Qed.

Lemma matrix_eqm_trans a b c : matrix_eqm a b → matrix_eqm b c → matrix_eqm a c.
Proof.
  intros (A1 & A2 & A3 & A4) (B1 & B2 & B3 & B4).
  repeat split; by etrans.
Qed.

(** The multiplication of the code is associative, wrap-around included. *)
Lemma matrix_mult_assoc a b c :
  matrix_mult a (matrix_mult b c) = matrix_mult (matrix_mult a b) c.
Proof.
  rewrite !matrix_mult_u64. apply matrix_u64_congr.
  apply (matrix_eqm_trans _ (matrix_mult_exact a (matrix_mult_exact b c))).
  { apply matrix_mult_exact_congr; [apply matrix_eqm_refl|apply matrix_u64_eqm]. }
  apply (matrix_eqm_trans _ (matrix_mult_exact (matrix_mult_exact a b) c)).
  2:{ apply matrix_mult_exact_congr; [|apply matrix_eqm_refl].
      apply matrix_eqm_sym, matrix_u64_eqm. }
  repeat split; simpl; apply u64_congr; f_equal; ring.
Qed.

(** [mat] multiplied [n] times with itself, from the right to the left:
    the power that [matrix_pow] is compared with. *)
Fixpoint matrix_power (mat : matrix) (n : nat) : matrix :=
  match n with
  | O => mat
  | S n' => match n' with O => mat | S _ => matrix_mult mat (matrix_power mat n') end
  end.

Lemma matrix_power_S mat n :
  0 < n → matrix_power mat (S n) = matrix_mult mat (matrix_power mat n).
Proof. intros Hn. destruct n; [lia|done]. Qed.

Lemma matrix_power_add mat a b :
  0 < a → 0 < b →
  matrix_power mat (a + b) = matrix_mult (matrix_power mat a) (matrix_power mat b).
Proof.
  intros Ha Hb. destruct a as [|a]; [lia|]. clear Ha.
  induction a as [|a IH].
  - by rewrite matrix_power_S.
  - replace (S (S a) + b) with (S (S a + b)) by lia.
    rewrite matrix_power_S by lia. rewrite IH.
    rewrite (matrix_power_S _ (S a)) by lia. apply matrix_mult_assoc.
Qed.

Lemma matrix_pow_spec mat k :
  ∀ fuel n, (1 ≤ n < 2 ^ Z.of_nat k)%Z → 2 * k ≤ fuel →
  matrix_pow fuel mat n = Some (matrix_power mat (Z.to_nat n)).
Proof.
  induction k as [|k IH]; intros fuel n Hn Hfuel; [simpl in Hn; lia|].
  assert (2 ^ Z.of_nat (S k) = 2 * 2 ^ Z.of_nat k)%Z as Hpow.
  { rewrite Nat2Z.inj_succ, Z.pow_succ_r by lia. done. }
  destruct fuel as [|fuel]; [lia|]. cbn [matrix_pow].
  case_decide as H1; [by subst|].
  pose proof (Z.quot_rem n 2 ltac:(done)) as Hqr.
  pose proof (Z.rem_bound_pos n 2 ltac:(lia) ltac:(lia)) as Hrem.
  case_decide as Heven.
  - rewrite IH by lia. simpl. f_equal.
    rewrite <- matrix_power_add by lia. f_equal. lia.
  - destruct fuel as [|fuel]; [lia|]. cbn [matrix_pow].
    rewrite decide_False by lia.
    pose proof (Z.quot_rem (n - 1) 2 ltac:(done)) as Hqr'.
    pose proof (Z.rem_bound_pos (n - 1) 2 ltac:(lia) ltac:(lia)) as Hrem'.
    assert (Z.rem (n - 1) 2 = 0)%Z as Heven'.
    { replace (n - 1)%Z with (Z.quot n 2 * 2)%Z by lia. apply Z.rem_mul. done. }
    rewrite decide_True by done.
    rewrite IH by lia. simpl. f_equal.
    rewrite <- matrix_power_add by lia.
    replace (Z.to_nat n) with (S (Z.to_nat (n - 1))) by lia.
    rewrite matrix_power_S by lia. do 2 f_equal. lia.
Qed.

(** For [n ≤ 0] the recursion never reaches its base case [n == 1]. *)
Lemma matrix_pow_diverges fuel mat n : (n ≤ 0)%Z → matrix_pow fuel mat n = None.
Proof.
  revert n. induction fuel as [|fuel IH]; intros n Hn; cbn [matrix_pow];
    rewrite decide_False by lia; [done|].
  case_decide.
  - rewrite IH; [done|]. apply Z.quot_le_upper_bound; lia.
  - rewrite IH; [done|lia].
Qed.

Lemma matrix_power_base n :
  matrix_power (Matrix 1 1 1 0) (S n)
  = Matrix (u64 (fibonacci (S (S n)))) (u64 (fibonacci (S n)))
           (u64 (fibonacci (S n))) (u64 (fibonacci n)).
Proof.
  induction n as [|n IH]; [done|].
  rewrite matrix_power_S by lia. rewrite IH.
  unfold matrix_mult. simpl m00. simpl m01. simpl m10. simpl m11.
  rewrite (fibonacci_SS (S n)), (fibonacci_SS n).
  f_equal; apply u64_congr; repeat setoid_rewrite u64_eqm.
  - by rewrite !Z.mul_1_l.
  - by rewrite !Z.mul_1_l.
  - by rewrite Z.mul_1_l, Z.mul_0_l, Z.add_0_r.
  - by rewrite Z.mul_1_l, Z.mul_0_l, Z.add_0_r.
Qed.

Lemma fib_matrix_spec k fuel n :
  (0 ≤ n < 2 ^ Z.of_nat k)%Z → 2 * k ≤ fuel →
  fib_matrix fuel n = Some (u64 (fibonacci (Z.to_nat n))).
Proof.
  intros Hn Hfuel. unfold fib_matrix.
  case_decide as H0; [by subst|]. case_decide as H1; [by subst|].
  rewrite (matrix_pow_spec _ k) by lia. simpl.
  replace (Z.to_nat n) with (S (Z.to_nat n - 1)) by lia.
  by rewrite matrix_power_base.
Qed.

(** ** The memoized form *)

Section MemoizedFacts.
Variable left_first : bool.

(** The cache holds [F k] in its entries [k ≤ m] and [0] above. *)
Definition filled_to (m : nat) (s : memo) : Prop :=
  ∀ k, k < Z.to_nat (MAX_FIB_N + 1) →
       cache s !! k = Some (if decide (k ≤ m) then fibonacci k else 0%Z).

(** The states of the static variables that calls of the function lead
    to: not yet initialised, or filled up to some entry. *)
Definition memo_valid (s : memo) : Prop :=
  length (cache s) = Z.to_nat (MAX_FIB_N + 1) ∧
  (initialized s = true → ∃ m, 1 ≤ m ∧ filled_to m s).

(** What the first statements of the function make of the static
    variables. *)
Definition memo_ready (s : memo) : memo :=
  if initialized s then s
  else Memo (<[1 := 1%Z]> (<[0 := 0%Z]>
               (replicate (Z.to_nat (MAX_FIB_N + 1)) 0%Z))) true.

Lemma memo_ready_valid s :
  memo_valid s →
  length (cache (memo_ready s)) = Z.to_nat (MAX_FIB_N + 1) ∧
  initialized (memo_ready s) = true ∧
  ∃ m, 1 ≤ m ∧ filled_to m (memo_ready s).
Proof.
  intros [Hlen Hc]. unfold memo_ready. destruct (initialized s) eqn:Hi.
  { split; [done|]. split; [done|]. by apply Hc. }
  split; [done|]. split; [done|]. exists 1. split; [done|].
  intros k Hk. cbn [cache]. unfold MAX_FIB_N in *.
  destruct (decide (k = 1)) as [->|Hk1].
  { rewrite list_lookup_insert_eq; [done|].
    rewrite length_insert, length_replicate. lia. }
  rewrite list_lookup_insert_ne by done.
  destruct (decide (k = 0)) as [->|Hk0].
  { rewrite list_lookup_insert_eq; [done|]. rewrite length_replicate. lia. }
  rewrite list_lookup_insert_ne by done.
  rewrite decide_False by lia. apply lookup_replicate. split; [done|lia].
Qed.

Lemma memo_ready_idemp s : initialized s = true → memo_ready s = s.
Proof. intros Hi. unfold memo_ready. by rewrite Hi. Qed.

Lemma fib_memoized_unfold fuel n s :
  fib_memoized left_first fuel n s =
  let s := memo_ready s in
  if decide (n ≤ 1)%Z then Ret (u64 n, s)
  else
    match cache s !! Z.to_nat n with
    | None => OutOfBounds
    | Some c =>
      if decide (c ≠ 0%Z ∨ n = 0%Z) then Ret (c, s)
      else
        match fuel with
        | O => OutOfFuel
        | S fuel =>
          '(a, b, s) ←
            (if left_first then
               '(a, s) ← fib_memoized left_first fuel (n - 1)%Z s;
               '(b, s) ← fib_memoized left_first fuel (n - 2)%Z s;
               Ret (a, b, s)
             else
               '(b, s) ← fib_memoized left_first fuel (n - 2)%Z s;
               '(a, s) ← fib_memoized left_first fuel (n - 1)%Z s;
               Ret (a, b, s));
          let v := u64 (a + b) in
          Ret (v, Memo (<[Z.to_nat n := v]> (cache s)) (initialized s))
        end
    end.
Proof. by destruct fuel. Qed.

(** A call for an entry that is filled returns it, and leaves the static
    variables as they are. *)
Lemma fib_memoized_hit fuel n s m :
  initialized s = true → 1 ≤ m → filled_to m s →
  (0 ≤ n ≤ MAX_FIB_N)%Z → Z.to_nat n ≤ m →
  fib_memoized left_first fuel n s = Ret (fibonacci (Z.to_nat n), s).
Proof.
  intros Hi Hm Hfill Hn Hnm. rewrite fib_memoized_unfold. cbv zeta.
  rewrite (memo_ready_idemp s Hi). case_decide as Hle.
  { by assert (n = 0 ∨ n = 1)%Z as [-> | ->] by lia. }
  unfold MAX_FIB_N in *.
  rewrite (Hfill (Z.to_nat n)) by (unfold MAX_FIB_N; lia).
  rewrite (decide_True (P := Z.to_nat n ≤ m)) by done.
  pose proof (fibonacci_pos (Z.to_nat n) ltac:(lia)) as Hpos.
  by rewrite decide_True by lia.
Qed.

(** A call on a cache filled to [m]: enough fuel for the entries that are
    missing gives the result, and the cache is then filled to [n], if it
    was not already. *)
Lemma fib_memoized_filled fuel n s m :
  length (cache s) = Z.to_nat (MAX_FIB_N + 1) → initialized s = true →
  1 ≤ m → filled_to m s →
  (0 ≤ n ≤ MAX_FIB_N)%Z → Z.to_nat n - m ≤ fuel →
  ∃ s', fib_memoized left_first fuel n s = Ret (fibonacci (Z.to_nat n), s') ∧
        length (cache s') = Z.to_nat (MAX_FIB_N + 1) ∧ initialized s' = true ∧
        filled_to (m `max` Z.to_nat n) s' ∧
        (Z.to_nat n ≤ m → s' = s).
Proof.
  revert n s m. induction fuel as [|fuel IH]; intros n s m Hlen Hi Hm Hfill Hn Hfuel.
  all: destruct (decide (Z.to_nat n ≤ m)) as [Hnm|Hnm].
  all: try (exists s; split; [by apply (fib_memoized_hit _ _ _ m)|];
            split; [done|]; split; [done|]; split; [|done];
            by rewrite Nat.max_l by lia).
  { lia. }
  rewrite fib_memoized_unfold. cbv zeta. rewrite (memo_ready_idemp s Hi).
  unfold MAX_FIB_N in *.
  rewrite decide_False by lia.
  rewrite (Hfill (Z.to_nat n)) by (unfold MAX_FIB_N; lia).
  rewrite (decide_False (P := Z.to_nat n ≤ m)) by done.
  rewrite decide_False by lia.
  assert (Hfits : ∀ j, j ≤ 93 → u64 (fibonacci j) = fibonacci j)
    by apply fibonacci_fits.
  assert (Hsum : u64 (fibonacci (Z.to_nat (n - 1)) + fibonacci (Z.to_nat (n - 2)))
                 = fibonacci (Z.to_nat n)).
  { replace (Z.to_nat n) with (S (S (Z.to_nat (n - 2)))) by lia.
    replace (Z.to_nat (n - 1)) with (S (Z.to_nat (n - 2))) by lia.
    rewrite <- fibonacci_SS. apply Hfits. lia. }
  assert (∃ s2, (if left_first then
               '(a, s) ← fib_memoized left_first fuel (n - 1)%Z s;
               '(b, s) ← fib_memoized left_first fuel (n - 2)%Z s;
               Ret (a, b, s)
             else
               '(b, s) ← fib_memoized left_first fuel (n - 2)%Z s;
               '(a, s) ← fib_memoized left_first fuel (n - 1)%Z s;
               Ret (a, b, s))
            = Ret (fibonacci (Z.to_nat (n - 1)), fibonacci (Z.to_nat (n - 2)), s2) ∧
            length (cache s2) = Z.to_nat (93 + 1) ∧ initialized s2 = true ∧
            filled_to (Z.to_nat n - 1) s2) as (s2 & -> & Hlen2 & Hi2 & Hfill2).
  { destruct left_first.
    - destruct (IH (n - 1)%Z s m) as (s1 & -> & Hlen1 & Hi1 & Hfill1 & _);
        [done|done|done|done|lia|lia|].
      cbn [mbind outcome_bind].
      destruct (IH (n - 2)%Z s1 (m `max` Z.to_nat (n - 1)))
        as (s2 & -> & Hlen2 & Hi2 & Hfill2 & Heq); [done|done|lia|done|lia|lia|].
      cbn [mbind outcome_bind].
      exists s2. split; [done|]. rewrite Heq by lia. split; [done|]. split; [done|].
      replace (Z.to_nat n - 1) with (m `max` Z.to_nat (n - 1)) by lia. done.
    - destruct (IH (n - 2)%Z s m) as (s1 & -> & Hlen1 & Hi1 & Hfill1 & _);
        [done|done|done|done|lia|lia|].
      cbn [mbind outcome_bind].
      destruct (IH (n - 1)%Z s1 (m `max` Z.to_nat (n - 2)))
        as (s2 & -> & Hlen2 & Hi2 & Hfill2 & _); [done|done|lia|done|lia|lia|].
      cbn [mbind outcome_bind].
      exists s2. split; [done|]. split; [done|]. split; [done|].
      replace (Z.to_nat n - 1)
        with ((m `max` Z.to_nat (n - 2)) `max` Z.to_nat (n - 1)) by lia. done. }
  cbn [mbind outcome_bind]. rewrite Hsum.
  eexists. split; [done|]. cbn [cache initialized].
  split; [by rewrite length_insert|]. split; [done|]. split; [|lia].
  intros k Hk. cbn [cache]. rewrite Nat.max_r by lia.
  destruct (decide (k = Z.to_nat n)) as [->|Hne].
  - rewrite list_lookup_insert_eq by (rewrite Hlen2; lia).
    by rewrite decide_True by lia.
  - rewrite list_lookup_insert_ne by done. rewrite Hfill2 by done.
    destruct (decide (k ≤ Z.to_nat n - 1)); [by rewrite decide_True by lia|].
    by rewrite decide_False by lia.
Qed.

Lemma fib_memoized_spec fuel n s :
  memo_valid s → (0 ≤ n ≤ MAX_FIB_N)%Z → Z.to_nat n ≤ S fuel →
  ∃ s', fib_memoized left_first fuel n s = Ret (fibonacci (Z.to_nat n), s') ∧
        memo_valid s' ∧ initialized s' = true ∧
        (∀ fuel' k, (0 ≤ k ≤ n)%Z →
           fib_memoized left_first fuel' k s' = Ret (fibonacci (Z.to_nat k), s')).
Proof.
  intros Hs Hn Hfuel.
  destruct (memo_ready_valid s Hs) as (Hlen & Hi & m & Hm & Hfill).
  assert (fib_memoized left_first fuel n s
          = fib_memoized left_first fuel n (memo_ready s)) as ->.
  { rewrite !fib_memoized_unfold. cbv zeta.
    by rewrite (memo_ready_idemp (memo_ready s)). }
  destruct (fib_memoized_filled fuel n (memo_ready s) m)
    as (s' & Hrun & Hlen' & Hi' & Hfill' & _); [done..|lia|].
  exists s'. split; [done|]. split.
  { split; [done|]. intros _. exists (m `max` Z.to_nat n). split; [lia|done]. }
  split; [done|]. intros fuel' k Hk.
  destruct (fib_memoized_filled fuel' k s' (m `max` Z.to_nat n))
    as (s'' & Hrun' & _ & _ & _ & Heq); [done|done|lia|done|lia|lia|].
  rewrite Hrun'. by rewrite Heq by lia.
Qed.

Lemma memo_start_valid : memo_valid memo_start.
Proof. split; [apply length_replicate|]. intros [=]. Qed.

End MemoizedFacts.
End Fibonacci.

(** * Properties of the helpers, of selection sort and of binary search *)

(** A list is non-decreasing exactly when its indices hold a sorted
    range. *)
Lemma nondecreasing_sorted_range (l : list Z) :
  nondecreasing l ↔ sorted_range 0 (length l) l.
Proof.
  split; [|apply sorted_range_nondecreasing].
  intros Hl. apply sorted_range_StronglySorted.
  apply Sorted_StronglySorted; [intros x y z; lia|].
  by apply nondecreasing_Sorted.
Qed.

Lemma sorted_range_take (arr : list Z) (size : nat) :
  size ≤ length arr →
  sorted_range 0 size arr ↔ nondecreasing (take size arr).
Proof.
  intros Hsize. rewrite nondecreasing_sorted_range.
  rewrite length_take, Nat.min_l by done.
  split; intros Hs i j Hi Hij Hj.
  - rewrite !lookup_total_take_lt by lia. by apply Hs.
  - specialize (Hs i j Hi Hij Hj). by rewrite !lookup_total_take_lt in Hs by lia.
Qed.

(** X1: [is_sorted(arr, size)], for [size] within the array, returns true
    exactly when the first [size] elements are in non-decreasing order; in
    particular it returns true for [size ≤ 1]. *)
Theorem is_sorted_decides (arr : list Z) (size : nat) :
  size ≤ length arr →
  (Utilities.is_sorted arr size = true ↔ nondecreasing (take size arr)) ∧
  (size ≤ 1 → Utilities.is_sorted arr size = true).
Proof.
  intros Hsize. rewrite Utilities.is_sorted_spec. split.
  - by apply sorted_range_take.
  - intros H1 i j _ Hij Hj. by replace j with i by lia.
Qed.

Lemma is_sorted_decides_witness :
  3 ≤ length [1; 2; 2; 0]%Z ∧
  (Utilities.is_sorted [1; 2; 2; 0]%Z 3 = true ↔
   nondecreasing (take 3 [1; 2; 2; 0]%Z)) ∧
  (3 ≤ 1 → Utilities.is_sorted [1; 2; 2; 0]%Z 3 = true).
Proof.
  split; [simpl; lia|]. apply (is_sorted_decides [1; 2; 2; 0]%Z 3). simpl; lia.
Defined.

(** X2: [copy_array(dest, src, size)], for [size] within both arrays,
    makes the first [size] elements of [dest] those of [src] and leaves the
    rest of [dest] as it was. *)
Theorem copy_array_copies (dest src : list Z) (size : nat) :
  size ≤ length src → size ≤ length dest →
  Utilities.copy_array dest src size = take size src ++ drop size dest.
Proof.
  intros Hs Hd. unfold Utilities.copy_array.
  pose (I := λ (i : nat) (d : list Z), d = take i src ++ drop i dest).
  apply (for_up_rule I); [lia|by unfold I; rewrite take_0, drop_0|].
  intros j d Hj ->. unfold I.
  rewrite insert_app_r_alt by (rewrite length_take; lia).
  rewrite length_take, Nat.min_l, Nat.sub_diag by lia.
  rewrite (take_S_r _ _ (src !!! j)) by (apply list_lookup_lookup_total_lt; lia).
  rewrite <- app_assoc. f_equal.
  rewrite (drop_S dest (dest !!! j) j) by (apply list_lookup_lookup_total_lt; lia).
  done.
Qed.

Lemma copy_array_copies_witness :
  2 ≤ length [7; 8; 9]%Z ∧ 2 ≤ length [0; 0; 0; 5]%Z ∧
  Utilities.copy_array [0; 0; 0; 5]%Z [7; 8; 9]%Z 2
  = take 2 [7; 8; 9]%Z ++ drop 2 [0; 0; 0; 5]%Z.
Proof.
  split; [simpl; lia|]. split; [simpl; lia|].
  apply (copy_array_copies [0; 0; 0; 5]%Z [7; 8; 9]%Z 2); simpl; lia.
Defined.

(** X3: [compare_ints] returns the sign of the difference of the two
    [int]s, [-1], [0] or [1], without computing the difference (which may
    overflow), and exchanging the arguments negates the result. *)
Theorem compare_ints_sign (ia ib : Z) :
  Utilities.compare_ints ia ib = Z.sgn (ia - ib) ∧
  Utilities.compare_ints ib ia = (- Utilities.compare_ints ia ib)%Z.
Proof.
  unfold Utilities.compare_ints. repeat case_bool_decide; simpl; lia.
Qed.

(** X4: [selection_sort(arr, size)], for [size] within the array, puts
    the first [size] elements in non-decreasing order, by a permutation of
    these elements, and leaves the rest of the array as it was; the result
    passes [is_sorted]. *)
Theorem selection_sort_sorts (arr : list Z) (size : nat) :
  size ≤ length arr →
  length (SelectionSort.selection_sort arr size) = length arr ∧
  drop size (SelectionSort.selection_sort arr size) = drop size arr ∧
  take size (SelectionSort.selection_sort arr size) ≡ₚ take size arr ∧
  nondecreasing (take size (SelectionSort.selection_sort arr size)) ∧
  Utilities.is_sorted (SelectionSort.selection_sort arr size) size = true.
Proof.
  intros Hsize.
  destruct (SelectionSort.selection_sort_spec arr size Hsize)
    as [(Hlen & _ & Hdrop & Hperm) Hsorted].
  split; [done|]. split; [done|]. split.
  { unfold seg in Hperm. by rewrite Nat.sub_0_r, !drop_0 in Hperm. }
  split.
  - apply sorted_range_take; [lia|done].
  - by apply Utilities.is_sorted_spec.
Qed.

Lemma selection_sort_sorts_witness :
  5 ≤ length [64; 25; 12; 22; 11; 3]%Z ∧
  length (SelectionSort.selection_sort [64; 25; 12; 22; 11; 3]%Z 5)
  = length [64; 25; 12; 22; 11; 3]%Z ∧
  drop 5 (SelectionSort.selection_sort [64; 25; 12; 22; 11; 3]%Z 5)
  = drop 5 [64; 25; 12; 22; 11; 3]%Z ∧
  take 5 (SelectionSort.selection_sort [64; 25; 12; 22; 11; 3]%Z 5)
  ≡ₚ take 5 [64; 25; 12; 22; 11; 3]%Z ∧
  nondecreasing (take 5 (SelectionSort.selection_sort [64; 25; 12; 22; 11; 3]%Z 5)) ∧
  Utilities.is_sorted (SelectionSort.selection_sort [64; 25; 12; 22; 11; 3]%Z 5) 5
  = true.
Proof.
  split; [simpl; lia|].
  apply (selection_sort_sorts [64; 25; 12; 22; 11; 3]%Z 5). simpl; lia.
Defined.

(** X5: on any array of at most [INT_MAX] elements, sorted or not,
    [binary_search] returns after at most [fuel] probes as soon as
    [size < 2^fuel], that is after at most [⌊log2 size⌋ + 1] probes, and
    what it returns is [-1] or an index of the array that holds
    [target]. *)
Theorem binary_search_sound (arr : list Z) (target : Z) (fuel : nat) :
  (Z.of_nat (length arr) ≤ INT_MAX)%Z →
  (Z.of_nat (length arr) < 2 ^ Z.of_nat fuel)%Z →
  ∃ r, BinarySearch.binary_search fuel arr (length arr) target = Some r ∧
       (r = (-1)%Z ∨
        (0 ≤ r < Z.of_nat (length arr))%Z ∧ arr !! Z.to_nat r = Some target).
Proof.
  intros Hsize Hfuel.
  destruct (BinarySearch.binary_search_spec arr target fuel Hsize Hfuel)
    as (r & Hrun & [[-> _]|[Hr Hfound]]).
  - exists (-1)%Z. split; [done|]. by left.
  - exists r. split; [done|]. right. split; [done|].
    rewrite <- Hfound. apply list_lookup_lookup_total_lt. lia.
Qed.

Lemma binary_search_sound_witness :
  (Z.of_nat (length [9; 1; 7; 3; 5]%Z) ≤ INT_MAX)%Z ∧
  (Z.of_nat (length [9; 1; 7; 3; 5]%Z) < 2 ^ Z.of_nat 3)%Z ∧
  ∃ r, BinarySearch.binary_search 3 [9; 1; 7; 3; 5]%Z
         (length [9; 1; 7; 3; 5]%Z) 3%Z = Some r ∧
       (r = (-1)%Z ∨
        (0 ≤ r < Z.of_nat (length [9; 1; 7; 3; 5]%Z))%Z ∧
        [9; 1; 7; 3; 5]%Z !! Z.to_nat r = Some 3%Z).
Proof.
  assert (H1 : (Z.of_nat (length [9; 1; 7; 3; 5]%Z) ≤ INT_MAX)%Z) by by vm_compute.
  assert (H2 : (Z.of_nat (length [9; 1; 7; 3; 5]%Z) < 2 ^ Z.of_nat 3)%Z)
    by by vm_compute.
  split; [done|]. split; [done|].
  apply (binary_search_sound [9; 1; 7; 3; 5]%Z 3%Z 3 H1 H2).
Defined.

(** X6: on a non-decreasing array of at most [INT_MAX] elements,
    [binary_search] finds the target whenever it occurs: it returns [-1]
    exactly when [target] is not an element of the array, and otherwise an
    index that holds [target]. *)
Theorem binary_search_complete (arr : list Z) (target : Z) (fuel : nat) :
  nondecreasing arr →
  (Z.of_nat (length arr) ≤ INT_MAX)%Z →
  (Z.of_nat (length arr) < 2 ^ Z.of_nat fuel)%Z →
  ∃ r, BinarySearch.binary_search fuel arr (length arr) target = Some r ∧
       (r = (-1)%Z ↔ target ∉ arr) ∧
       (r ≠ (-1)%Z → arr !! Z.to_nat r = Some target).
Proof.
  intros Hsorted Hsize Hfuel. apply nondecreasing_sorted_range in Hsorted.
  destruct (BinarySearch.binary_search_spec arr target fuel Hsize Hfuel)
    as (r & Hrun & [[-> Hnot]|[Hr Hfound]]).
  - exists (-1)%Z. split; [done|]. split; [|done]. split; [auto|done].
  - assert (arr !! Z.to_nat r = Some target) as Hlook.
    { rewrite <- Hfound. apply list_lookup_lookup_total_lt. lia. }
    exists r. split; [done|]. split; [|done]. split; [lia|].
    intros Hnot. destruct Hnot. by eapply list_elem_of_lookup_2.
Qed.

Lemma binary_search_complete_witness :
  nondecreasing [1; 3; 5; 7; 9]%Z ∧
  (Z.of_nat (length [1; 3; 5; 7; 9]%Z) ≤ INT_MAX)%Z ∧
  (Z.of_nat (length [1; 3; 5; 7; 9]%Z) < 2 ^ Z.of_nat 3)%Z ∧
  ∃ r, BinarySearch.binary_search 3 [1; 3; 5; 7; 9]%Z
         (length [1; 3; 5; 7; 9]%Z) 7%Z = Some r ∧
       (r = (-1)%Z ↔ 7%Z ∉ [1; 3; 5; 7; 9]%Z) ∧
       (r ≠ (-1)%Z → [1; 3; 5; 7; 9]%Z !! Z.to_nat r = Some 7%Z).
Proof.
  assert (H0 : nondecreasing [1; 3; 5; 7; 9]%Z).
  { apply nondecreasing_Sorted. repeat constructor; by vm_compute. }
  assert (H1 : (Z.of_nat (length [1; 3; 5; 7; 9]%Z) ≤ INT_MAX)%Z) by by vm_compute.
  assert (H2 : (Z.of_nat (length [1; 3; 5; 7; 9]%Z) < 2 ^ Z.of_nat 3)%Z)
    by by vm_compute.
  split; [done|]. split; [done|]. split; [done|].
  apply (binary_search_complete [1; 3; 5; 7; 9]%Z 7%Z 3 H0 H1 H2).
Defined.

(** X7: [binary_search_recursive] and [binary_search] return the same
    result on every array, size and target, and take the same number of
    probes to do so. *)
Theorem binary_search_recursive_agrees (fuel : nat) (arr : list Z) (size : nat)
    (target : Z) :
  BinarySearch.binary_search_recursive fuel arr size target
  = BinarySearch.binary_search fuel arr size target.
Proof.
  unfold BinarySearch.binary_search_recursive, BinarySearch.binary_search.
  apply BinarySearch.binary_search_recursive_helper_loop.
Qed.

(** * Properties of the Fibonacci functions *)

(** X8: for [n ≥ 0], [fib_recursive(n)] returns, within a recursion depth
    of [n], the Fibonacci number [F n] reduced modulo [2^64]. *)
Theorem fib_recursive_computes (n : Z) (fuel : nat) :
  (0 ≤ n)%Z → Z.to_nat n ≤ S fuel →
  Fibonacci.fib_recursive fuel n
  = Some (Fibonacci.fibonacci (Z.to_nat n) `mod` 2 ^ 64)%Z.
Proof. apply Fibonacci.fib_recursive_spec. Qed.

Lemma fib_recursive_computes_witness :
  (0 ≤ 10)%Z ∧ Z.to_nat 10 ≤ S 9 ∧
  Fibonacci.fib_recursive 9 10
  = Some (Fibonacci.fibonacci (Z.to_nat 10) `mod` 2 ^ 64)%Z.
Proof.
  split; [lia|]. split; [simpl; lia|].
  apply (fib_recursive_computes 10 9); simpl; lia.
Defined.

(** X9: for [0 ≤ n < INT_MAX], [fib_iterative(n)] returns [F n] reduced
    modulo [2^64]. *)
Theorem fib_iterative_computes (n : Z) :
  (0 ≤ n < INT_MAX)%Z →
  Fibonacci.fib_iterative n = (Fibonacci.fibonacci (Z.to_nat n) `mod` 2 ^ 64)%Z.
Proof. intros [Hn _]. by apply Fibonacci.fib_iterative_spec. Qed.

Lemma fib_iterative_computes_witness :
  (0 ≤ 90 < INT_MAX)%Z ∧
  Fibonacci.fib_iterative 90 = (Fibonacci.fibonacci (Z.to_nat 90) `mod` 2 ^ 64)%Z.
Proof.
  assert (H : (0 ≤ 90 < INT_MAX)%Z) by (unfold INT_MAX; lia).
  split; [done|]. apply (fib_iterative_computes 90 H).
Defined.

(** X10: for [0 ≤ n < INT_MAX], [fib_optimized(n)], which keeps one
    number and recovers the other by a subtraction, returns [F n] reduced
    modulo [2^64]: the wrap-around of the addition is undone by that of the
    subtraction. *)
Theorem fib_optimized_computes (n : Z) :
  (0 ≤ n < INT_MAX)%Z →
  Fibonacci.fib_optimized n = (Fibonacci.fibonacci (Z.to_nat n) `mod` 2 ^ 64)%Z.
Proof. intros [Hn _]. by apply Fibonacci.fib_optimized_spec. Qed.

Lemma fib_optimized_computes_witness :
  (0 ≤ 100 < INT_MAX)%Z ∧
  Fibonacci.fib_optimized 100
  = (Fibonacci.fibonacci (Z.to_nat 100) `mod` 2 ^ 64)%Z.
Proof.
  assert (H : (0 ≤ 100 < INT_MAX)%Z) by (unfold INT_MAX; lia).
  split; [done|]. apply (fib_optimized_computes 100 H).
Defined.

(** X11: for [0 ≤ n ≤ INT_MAX], [fib_tail_recursive(n)] returns, after
    [n] calls of [fib_tail_helper], [F n] reduced modulo [2^64]. *)
Theorem fib_tail_recursive_computes (n : Z) (fuel : nat) :
  (0 ≤ n ≤ INT_MAX)%Z → Z.to_nat n ≤ fuel →
  Fibonacci.fib_tail_recursive fuel n
  = Some (Fibonacci.fibonacci (Z.to_nat n) `mod` 2 ^ 64)%Z.
Proof.
  intros Hn Hfuel. unfold Fibonacci.fib_tail_recursive.
  apply (Fibonacci.fib_tail_helper_spec fuel n 0 Hn Hfuel).
Qed.

Lemma fib_tail_recursive_computes_witness :
  (0 ≤ 40 ≤ INT_MAX)%Z ∧ Z.to_nat 40 ≤ 40 ∧
  Fibonacci.fib_tail_recursive 40 40
  = Some (Fibonacci.fibonacci (Z.to_nat 40) `mod` 2 ^ 64)%Z.
Proof.
  assert (H : (0 ≤ 40 ≤ INT_MAX)%Z) by (unfold INT_MAX; lia).
  assert (H' : Z.to_nat 40 ≤ 40) by (simpl; lia).
  split; [done|]. split; [done|]. apply (fib_tail_recursive_computes 40 40 H H').
Defined.

(** X12: for [1 ≤ n < 2^k], [matrix_pow(mat, n, result)] returns within a
    recursion depth of [2 k] and [result] is [mat] multiplied [n] times with
    itself by [matrix_mult]: squaring gives the same matrix as repeated
    multiplication, wrap-around included. *)
Theorem matrix_pow_is_power (mat : Fibonacci.matrix) (n : Z) (k fuel : nat) :
  (1 ≤ n < 2 ^ Z.of_nat k)%Z → 2 * k ≤ fuel →
  Fibonacci.matrix_pow fuel mat n
  = Some (Fibonacci.matrix_power mat (Z.to_nat n)).
Proof. intros. by apply (Fibonacci.matrix_pow_spec mat k). Qed.

Lemma matrix_pow_is_power_witness :
  (1 ≤ 11 < 2 ^ Z.of_nat 4)%Z ∧ 2 * 4 ≤ 8 ∧
  Fibonacci.matrix_pow 8 (Fibonacci.Matrix 2 3 5 7) 11
  = Some (Fibonacci.matrix_power (Fibonacci.Matrix 2 3 5 7) (Z.to_nat 11)).
Proof.
  assert (H : (1 ≤ 11 < 2 ^ Z.of_nat 4)%Z) by (simpl; lia).
  assert (H' : 2 * 4 ≤ 8) by (simpl; lia).
  split; [done|]. split; [done|].
  apply (matrix_pow_is_power (Fibonacci.Matrix 2 3 5 7) 11 4 8 H H').
Defined.

(** X13: for [0 ≤ n < 2^k], [fib_matrix(n)] returns, within a recursion
    depth of [2 k], [F n] reduced modulo [2^64]. *)
Theorem fib_matrix_computes (n : Z) (k fuel : nat) :
  (0 ≤ n < 2 ^ Z.of_nat k)%Z → 2 * k ≤ fuel →
  Fibonacci.fib_matrix fuel n
  = Some (Fibonacci.fibonacci (Z.to_nat n) `mod` 2 ^ 64)%Z.
Proof. intros. by apply (Fibonacci.fib_matrix_spec k). Qed.

Lemma fib_matrix_computes_witness :
  (0 ≤ 90 < 2 ^ Z.of_nat 7)%Z ∧ 2 * 7 ≤ 14 ∧
  Fibonacci.fib_matrix 14 90
  = Some (Fibonacci.fibonacci (Z.to_nat 90) `mod` 2 ^ 64)%Z.
Proof.
  assert (H : (0 ≤ 90 < 2 ^ Z.of_nat 7)%Z) by (simpl; lia).
  assert (H' : 2 * 7 ≤ 14) by (simpl; lia).
  split; [done|]. split; [done|]. apply (fib_matrix_computes 90 7 14 H H').
Defined.

(** X14: a negative argument is not rejected.  [fib_recursive],
    [fib_iterative], [fib_optimized] and [fib_memoized] return it converted
    to [uint64_t], that is [2^64 + n]; [matrix_pow] called with [n ≤ 0]
    never reaches its base case [n == 1], and so [fib_matrix] does not
    return for a negative argument. *)
Theorem fib_negative_argument (n : Z) :
  (- 2 ^ 31 ≤ n < 0)%Z →
  (∀ fuel, Fibonacci.fib_recursive fuel n = Some (2 ^ 64 + n)%Z) ∧
  Fibonacci.fib_iterative n = (2 ^ 64 + n)%Z ∧
  Fibonacci.fib_optimized n = (2 ^ 64 + n)%Z ∧
  (∀ left_first fuel s,
     ∃ s', Fibonacci.fib_memoized left_first fuel n s
           = Fibonacci.Ret ((2 ^ 64 + n)%Z, s')) ∧
  (∀ fuel mat m, (m ≤ 0)%Z → Fibonacci.matrix_pow fuel mat m = None) ∧
  (∀ fuel, Fibonacci.fib_matrix fuel n = None).
Proof.
  intros Hn.
  assert (Fibonacci.u64 n = (2 ^ 64 + n)%Z) as Hu.
  { unfold Fibonacci.u64. symmetry. apply (Z.mod_unique _ _ (-1)); lia. }
  split; [|split; [|split; [|split; [|split]]]].
  - intros fuel. by rewrite Fibonacci.fib_recursive_negative, Hu by lia.
  - unfold Fibonacci.fib_iterative. by rewrite decide_True, Hu by lia.
  - unfold Fibonacci.fib_optimized. by rewrite decide_True, Hu by lia.
  - intros left_first fuel s. rewrite Fibonacci.fib_memoized_unfold. cbv zeta.
    rewrite decide_True, Hu by lia. eauto.
  - intros fuel mat m Hm. by apply Fibonacci.matrix_pow_diverges.
  - intros fuel. unfold Fibonacci.fib_matrix.
    rewrite !decide_False by lia.
    by rewrite Fibonacci.matrix_pow_diverges by lia.
Qed.

Lemma fib_negative_argument_witness :
  (- 2 ^ 31 ≤ -1 < 0)%Z ∧
  Fibonacci.fib_iterative (-1) = (2 ^ 64 + -1)%Z ∧
  (∀ fuel, Fibonacci.fib_matrix fuel (-1) = None).
Proof.
  assert (H : (- 2 ^ 31 ≤ -1 < 0)%Z) by lia.
  split; [done|].
  destruct (fib_negative_argument (-1) H) as (_ & Hit & _ & _ & _ & Hmat).
  split; [exact Hit|exact Hmat].
Defined.

(** X15: from any state of its static variables that calls of the
    function lead to, [fib_memoized(n)] with [0 ≤ n ≤ MAX_FIB_N] returns
    [F n], whichever of its two recursive calls is evaluated first, and
    leaves the static variables in such a state: the cache initialised and
    holding Fibonacci numbers in its first entries and zeros above. *)
Theorem fib_memoized_computes (left_first : bool) (s : Fibonacci.memo) (n : Z) :
  Fibonacci.memo_valid s → (0 ≤ n ≤ Fibonacci.MAX_FIB_N)%Z →
  ∃ s', Fibonacci.fib_memoized left_first (Z.to_nat n) n s
        = Fibonacci.Ret (Fibonacci.fibonacci (Z.to_nat n), s') ∧
        Fibonacci.memo_valid s' ∧ Fibonacci.initialized s' = true.
Proof.
  intros Hs Hn.
  destruct (Fibonacci.fib_memoized_spec left_first (Z.to_nat n) n s Hs Hn)
    as (s' & Hrun & Hs' & Hi & _); [lia|].
  by exists s'.
Qed.

Lemma fib_memoized_computes_witness :
  Fibonacci.memo_valid Fibonacci.memo_start ∧
  (0 ≤ 50 ≤ Fibonacci.MAX_FIB_N)%Z ∧
  ∃ s', Fibonacci.fib_memoized true (Z.to_nat 50) 50 Fibonacci.memo_start
        = Fibonacci.Ret (Fibonacci.fibonacci (Z.to_nat 50), s') ∧
        Fibonacci.memo_valid s' ∧ Fibonacci.initialized s' = true.
Proof.
  assert (H : (0 ≤ 50 ≤ Fibonacci.MAX_FIB_N)%Z) by (unfold Fibonacci.MAX_FIB_N; lia).
  split; [apply Fibonacci.memo_start_valid|]. split; [done|].
  apply (fib_memoized_computes true Fibonacci.memo_start 50
           Fibonacci.memo_start_valid H).
Defined.

(** X16: once a call [fib_memoized(n)] has returned, every later call
    [fib_memoized(k)] with [0 ≤ k ≤ n] is answered from the cache: it
    returns [F k] without a recursive call (no fuel is needed) and leaves
    the static variables as they are. *)
Theorem fib_memoized_remembers (left_first : bool) (s : Fibonacci.memo) (n : Z) :
  Fibonacci.memo_valid s → (0 ≤ n ≤ Fibonacci.MAX_FIB_N)%Z →
  ∃ s', Fibonacci.fib_memoized left_first (Z.to_nat n) n s
        = Fibonacci.Ret (Fibonacci.fibonacci (Z.to_nat n), s') ∧
        ∀ k, (0 ≤ k ≤ n)%Z →
          Fibonacci.fib_memoized left_first 0 k s'
          = Fibonacci.Ret (Fibonacci.fibonacci (Z.to_nat k), s').
Proof.
  intros Hs Hn.
  destruct (Fibonacci.fib_memoized_spec left_first (Z.to_nat n) n s Hs Hn)
    as (s' & Hrun & _ & _ & Hhit); [lia|].
  exists s'. split; [done|]. intros k Hk. by apply Hhit.
Qed.

Lemma fib_memoized_remembers_witness :
  Fibonacci.memo_valid Fibonacci.memo_start ∧
  (0 ≤ 30 ≤ Fibonacci.MAX_FIB_N)%Z ∧
  ∃ s', Fibonacci.fib_memoized false (Z.to_nat 30) 30 Fibonacci.memo_start
        = Fibonacci.Ret (Fibonacci.fibonacci (Z.to_nat 30), s') ∧
        ∀ k, (0 ≤ k ≤ 30)%Z →
          Fibonacci.fib_memoized false 0 k s'
          = Fibonacci.Ret (Fibonacci.fibonacci (Z.to_nat k), s').
Proof.
  assert (H : (0 ≤ 30 ≤ Fibonacci.MAX_FIB_N)%Z) by (unfold Fibonacci.MAX_FIB_N; lia).
  split; [apply Fibonacci.memo_start_valid|]. split; [done|].
  apply (fib_memoized_remembers false Fibonacci.memo_start 30
           Fibonacci.memo_start_valid H).
Defined.

(** X17: [fib_memoized] indexes its cache with [n] without comparing [n]
    with [MAX_FIB_N]: for every [n > MAX_FIB_N] the call reads outside the
    cache array. *)
Theorem fib_memoized_unchecked_index (left_first : bool) (s : Fibonacci.memo)
    (n : Z) (fuel : nat) :
  Fibonacci.memo_valid s → (Fibonacci.MAX_FIB_N < n)%Z →
  Fibonacci.fib_memoized left_first fuel n s = Fibonacci.OutOfBounds.
Proof.
  intros Hs Hn. destruct (Fibonacci.memo_ready_valid s Hs) as (Hlen & _).
  rewrite Fibonacci.fib_memoized_unfold. cbv zeta.
  unfold Fibonacci.MAX_FIB_N in *. rewrite decide_False by lia.
  rewrite (lookup_ge_None_2 (Fibonacci.cache (Fibonacci.memo_ready s)) (Z.to_nat n));
    [done|].
  rewrite Hlen. lia.
Qed.

Lemma fib_memoized_unchecked_index_witness :
  Fibonacci.memo_valid Fibonacci.memo_start ∧ (Fibonacci.MAX_FIB_N < 94)%Z ∧
  Fibonacci.fib_memoized true 5 94 Fibonacci.memo_start = Fibonacci.OutOfBounds.
Proof.
  assert (H : (Fibonacci.MAX_FIB_N < 94)%Z) by (unfold Fibonacci.MAX_FIB_N; lia).
  split; [apply Fibonacci.memo_start_valid|]. split; [done|].
  apply (fib_memoized_unchecked_index true Fibonacci.memo_start 94 5
           Fibonacci.memo_start_valid H).
Defined.

(** X18: [MAX_FIB_N] is the bound up to which no result wraps around: for
    [0 ≤ n ≤ MAX_FIB_N] the six functions return the Fibonacci number [F n]
    itself, and so agree, whereas [F (MAX_FIB_N + 1)] does not fit in a
    [uint64_t] and [fib_iterative(MAX_FIB_N + 1)] is another number. *)
Theorem fib_exact_up_to_max (n : Z) :
  (0 ≤ n ≤ Fibonacci.MAX_FIB_N)%Z →
  Fibonacci.fib_recursive (Z.to_nat n) n = Some (Fibonacci.fibonacci (Z.to_nat n)) ∧
  Fibonacci.fib_iterative n = Fibonacci.fibonacci (Z.to_nat n) ∧
  (∀ left_first,
     ∃ s', Fibonacci.fib_memoized left_first (Z.to_nat n) n Fibonacci.memo_start
           = Fibonacci.Ret (Fibonacci.fibonacci (Z.to_nat n), s')) ∧
  Fibonacci.fib_matrix 14 n = Some (Fibonacci.fibonacci (Z.to_nat n)) ∧
  Fibonacci.fib_tail_recursive (Z.to_nat n) n
  = Some (Fibonacci.fibonacci (Z.to_nat n)) ∧
  Fibonacci.fib_optimized n = Fibonacci.fibonacci (Z.to_nat n) ∧
  Fibonacci.fib_iterative (Fibonacci.MAX_FIB_N + 1)
  ≠ Fibonacci.fibonacci (Z.to_nat (Fibonacci.MAX_FIB_N + 1)).
Proof.
  intros Hn. unfold Fibonacci.MAX_FIB_N in *.
  pose proof (Fibonacci.fibonacci_fits (Z.to_nat n) ltac:(lia)) as Hfit.
  split; [|split; [|split; [|split; [|split; [|split]]]]].
  - rewrite Fibonacci.fib_recursive_spec by lia. by rewrite Hfit.
  - rewrite Fibonacci.fib_iterative_spec by lia. done.
  - intros left_first.
    destruct (Fibonacci.fib_memoized_spec left_first (Z.to_nat n) n
                Fibonacci.memo_start Fibonacci.memo_start_valid)
      as (s' & Hrun & _); [unfold Fibonacci.MAX_FIB_N; lia|lia|].
    by exists s'.
  - rewrite (Fibonacci.fib_matrix_spec 7) by (simpl; lia). by rewrite Hfit.
  - unfold Fibonacci.fib_tail_recursive.
    etrans; [apply (Fibonacci.fib_tail_helper_spec (Z.to_nat n) n 0);
             unfold INT_MAX; lia|].
    by rewrite Nat.add_0_l, Hfit.
  - rewrite Fibonacci.fib_optimized_spec by lia. done.
  - rewrite Fibonacci.fib_iterative_spec by lia.
    change (Z.to_nat (93 + 1)) with 94. rewrite Fibonacci.fibonacci_94.
    by vm_compute.
Qed.

Lemma fib_exact_up_to_max_witness :
  (0 ≤ 93 ≤ Fibonacci.MAX_FIB_N)%Z ∧
  Fibonacci.fib_iterative 93 = Fibonacci.fibonacci (Z.to_nat 93) ∧
  Fibonacci.fib_optimized 93 = Fibonacci.fibonacci (Z.to_nat 93).
Proof.
  assert (H : (0 ≤ 93 ≤ Fibonacci.MAX_FIB_N)%Z) by (unfold Fibonacci.MAX_FIB_N; lia).
  split; [done|].
  destruct (fib_exact_up_to_max 93 H) as (_ & Hit & _ & _ & _ & Hopt & _).
  split; [exact Hit|exact Hopt].
Defined.

(** * Further properties of the sorts *)

(** A sorted range, taken out of the array, is a non-decreasing list. *)
Lemma sorted_range_seg (lo hi : nat) (l : list Z) :
  lo ≤ hi → hi ≤ length l → sorted_range lo hi l → nondecreasing (seg lo hi l).
Proof.
  intros Hlo Hhi Hs. apply nondecreasing_sorted_range.
  rewrite seg_length by done. intros i j _ Hij Hj.
  assert (Hlook : ∀ k, k < hi - lo → seg lo hi l !!! k = l !!! (lo + k)).
  { intros k Hk. apply list_lookup_total_correct. rewrite seg_lookup by done.
    apply list_lookup_lookup_total_lt. lia. }
  rewrite !Hlook by lia. apply Hs; lia.
Qed.

(** X19: [quicksort_range(arr, low, high)] with [low ≤ high] within the
    array returns within a recursion depth of [high - low], with
    [arr[low..high]] in non-decreasing order, a permutation of what it held;
    the elements before [low] and after [high] are as they were. *)
Theorem quicksort_range_sorts_slice (arr : list Z) (low high fuel : nat) :
  low ≤ high → high < length arr → high - low ≤ fuel →
  ∃ out, Quicksort.quicksort_range fuel arr low high = Some out ∧
    length out = length arr ∧
    take low out = take low arr ∧ drop (S high) out = drop (S high) arr ∧
    seg low (S high) out ≡ₚ seg low (S high) arr ∧
    nondecreasing (seg low (S high) out).
Proof.
  intros Hlh Hhigh Hfuel.
  destruct (Quicksort.quicksort_range_spec fuel arr low high)
    as (out & Hrun & (Hlen & Ht & Hd & Hp) & Hs); [lia|lia|lia|].
  exists out. do 5 (split; [done|]).
  apply sorted_range_seg; [lia|lia|done].
Qed.

Lemma quicksort_range_sorts_slice_witness :
  1 ≤ 3 ∧ 3 < length [9; 4; 2; 3; 0]%Z ∧ 3 - 1 ≤ 2 ∧
  ∃ out, Quicksort.quicksort_range 2 [9; 4; 2; 3; 0]%Z 1 3 = Some out ∧
    length out = length [9; 4; 2; 3; 0]%Z ∧
    take 1 out = take 1 [9; 4; 2; 3; 0]%Z ∧
    drop 4 out = drop 4 [9; 4; 2; 3; 0]%Z ∧
    seg 1 4 out ≡ₚ seg 1 4 [9; 4; 2; 3; 0]%Z ∧
    nondecreasing (seg 1 4 out).
Proof.
  split; [lia|]. split; [simpl; lia|]. split; [lia|].
  apply (quicksort_range_sorts_slice [9; 4; 2; 3; 0]%Z 1 3 2); simpl; lia.
Defined.

(** X20: the partitioning loop of [three_way_partition_sort], run on
    [arr[low..high]] with [low < high] within the array and the pivot
    [arr[low]], ends after at most [high - low] iterations with [i = gt + 1]
    and [low ≤ lt ≤ gt ≤ high]; it has permuted [arr[low..high]] only, so
    that [arr[low..lt-1]] is below the pivot, [arr[lt..gt]] equal to it and
    [arr[gt+1..high]] above it. *)
Theorem three_way_scan_partitions (arr : list Z) (low high : nat) :
  low < high → high < length arr →
  ∃ out lt gt,
    while (high - low) ThreeWay.scan_cond (ThreeWay.scan_body (arr !!! low))
      (arr, low, high, low + 1) = Some (out, lt, gt, S gt) ∧
    low ≤ lt ≤ gt ∧ gt ≤ high ∧
    frame_perm low (S high) arr out ∧
    (∀ k, low ≤ k < lt → (out !!! k < arr !!! low)%Z) ∧
    (∀ k, lt ≤ k ≤ gt → out !!! k = arr !!! low) ∧
    (∀ k, gt < k ≤ high → (arr !!! low < out !!! k)%Z).
Proof. apply ThreeWay.scan_spec. Qed.

Lemma three_way_scan_partitions_witness :
  0 < 4 ∧ 4 < length [5; 9; 5; 1; 7]%Z ∧
  ∃ out lt gt,
    while (4 - 0) ThreeWay.scan_cond
      (ThreeWay.scan_body ([5; 9; 5; 1; 7]%Z !!! 0))
      ([5; 9; 5; 1; 7]%Z, 0, 4, 0 + 1) = Some (out, lt, gt, S gt) ∧
    0 ≤ lt ≤ gt ∧ gt ≤ 4 ∧
    frame_perm 0 5 [5; 9; 5; 1; 7]%Z out ∧
    (∀ k, 0 ≤ k < lt → (out !!! k < [5; 9; 5; 1; 7] !!! 0%nat)%Z) ∧
    (∀ k, lt ≤ k ≤ gt → out !!! k = [5; 9; 5; 1; 7]%Z !!! 0) ∧
    (∀ k, gt < k ≤ 4 → ([5; 9; 5; 1; 7] !!! 0%nat < out !!! k)%Z).
Proof.
  split; [lia|]. split; [simpl; lia|].
  apply (three_way_scan_partitions [5; 9; 5; 1; 7]%Z 0 4); simpl; lia.
Defined.

(** X21: [three_way_partition_sort(arr, low, high)] with [low ≤ high]
    within the array returns within a recursion depth of [high - low], with
    [arr[low..high]] in non-decreasing order, a permutation of what it held;
    the elements before [low] and after [high] are as they were. *)
Theorem three_way_partition_sort_sorts_slice (arr : list Z) (low high fuel : nat) :
  low ≤ high → high < length arr → high - low ≤ fuel →
  ∃ out, ThreeWay.three_way_partition_sort fuel arr low high = Some out ∧
    length out = length arr ∧
    take low out = take low arr ∧ drop (S high) out = drop (S high) arr ∧
    seg low (S high) out ≡ₚ seg low (S high) arr ∧
    nondecreasing (seg low (S high) out).
Proof.
  intros Hlh Hhigh Hfuel.
  destruct (ThreeWay.three_way_partition_sort_spec fuel arr low high)
    as (out & Hrun & (Hlen & Ht & Hd & Hp) & Hs); [lia|lia|lia|].
  exists out. do 5 (split; [done|]).
  apply sorted_range_seg; [lia|lia|done].
Qed.

Lemma three_way_partition_sort_sorts_slice_witness :
  1 ≤ 3 ∧ 3 < length [9; 4; 2; 4; 0]%Z ∧ 3 - 1 ≤ 2 ∧
  ∃ out, ThreeWay.three_way_partition_sort 2 [9; 4; 2; 4; 0]%Z 1 3 = Some out ∧
    length out = length [9; 4; 2; 4; 0]%Z ∧
    take 1 out = take 1 [9; 4; 2; 4; 0]%Z ∧
    drop 4 out = drop 4 [9; 4; 2; 4; 0]%Z ∧
    seg 1 4 out ≡ₚ seg 1 4 [9; 4; 2; 4; 0]%Z ∧
    nondecreasing (seg 1 4 out).
Proof.
  split; [lia|]. split; [simpl; lia|]. split; [lia|].
  apply (three_way_partition_sort_sorts_slice [9; 4; 2; 4; 0]%Z 1 3 2); simpl; lia.
Defined.

(** X22: when its two allocations succeed, [merge(arr, left, mid, right)]
    on two adjacent runs [arr[left..mid]] and [arr[mid+1..right]], each
    sorted by key, leaves in [arr[left..right]] the elements of the two runs
    sorted by key, elements of equal key in the order they had (those of the
    left run first), and leaves the rest of the array as it was. *)
Theorem merge_merges_runs {A} `{!Inhabited A} (key : A → Z) (ok : nat → bool)
    (arr : list A) (left mid right n : nat) :
  left ≤ mid → mid < right → right < length arr →
  ok n = true → ok (S n) = true →
  sorted_by key (seg left (S mid) arr) →
  sorted_by key (seg (S mid) (S right) arr) →
  ∃ out, Mergesort.merge key ok arr left mid right n = Some (out, S (S n)) ∧
    length out = length arr ∧
    take left out = take left arr ∧ drop (S right) out = drop (S right) arr ∧
    seg left (S right) out ≡ₚ seg left (S right) arr ∧
    sorted_by key (seg left (S right) out) ∧
    stable_by key (seg left (S right) arr) (seg left (S right) out).
Proof.
  intros Hlm Hmr Hr Hok1 Hok2 HsL HsR.
  destruct (Mergesort.merge_spec key ok arr left mid right n Hlm Hmr Hr)
    as (out & Hrun & Hlen & Ht & Hd & Hseg).
  rewrite Hok1, Hok2 in Hseg. simpl in Hseg.
  exists out. do 4 (split; [done|]). rewrite Hseg.
  rewrite (seg_split left (S mid) (S right) arr) by lia.
  split; [apply merge_Permutation|]. split.
  - by apply list_merge_sorted.
  - intros k. rewrite list_merge_stable by done. by rewrite filter_app.
Qed.

Lemma merge_merges_runs_witness :
  0 ≤ 1 ∧ 1 < 3 ∧ 3 < length [2; 5; 1; 5; 0]%Z ∧
  always 0 = true ∧ always 1 = true ∧
  sorted_by (λ x : Z, x) (seg 0 2 [2; 5; 1; 5; 0]%Z) ∧
  sorted_by (λ x : Z, x) (seg 2 4 [2; 5; 1; 5; 0]%Z) ∧
  ∃ out, Mergesort.merge (λ x : Z, x) always [2; 5; 1; 5; 0]%Z 0 1 3 0
         = Some (out, 2) ∧
    length out = length [2; 5; 1; 5; 0]%Z ∧
    take 0 out = take 0 [2; 5; 1; 5; 0]%Z ∧
    drop 4 out = drop 4 [2; 5; 1; 5; 0]%Z ∧
    seg 0 4 out ≡ₚ seg 0 4 [2; 5; 1; 5; 0]%Z ∧
    sorted_by (λ x : Z, x) (seg 0 4 out) ∧
    stable_by (λ x : Z, x) (seg 0 4 [2; 5; 1; 5; 0]%Z) (seg 0 4 out).
Proof.
  assert (HL : sorted_by (λ x : Z, x) (seg 0 2 [2; 5; 1; 5; 0]%Z)).
  { repeat constructor; by vm_compute. }
  assert (HR : sorted_by (λ x : Z, x) (seg 2 4 [2; 5; 1; 5; 0]%Z)).
  { repeat constructor; by vm_compute. }
  split; [lia|]. split; [lia|]. split; [simpl; lia|].
  split; [done|]. split; [done|]. split; [done|]. split; [done|].
  apply (merge_merges_runs (λ x : Z, x) always [2; 5; 1; 5; 0]%Z 0 1 3 0);
    [lia|lia|simpl; lia|done|done|done|done].
Defined.

(** X23: when the allocations succeed, [mergesort_recursive(arr, left,
    right)] with [left ≤ right] within the array returns within a recursion
    depth of [right - left], with [arr[left..right]] sorted by key, stably,
    and the elements before [left] and after [right] as they were. *)
Theorem mergesort_recursive_sorts_slice {A} `{!Inhabited A} (key : A → Z)
    (arr : list A) (left right fuel n : nat) :
  left ≤ right → right < length arr → right - left ≤ fuel →
  ∃ out n', Mergesort.mergesort_recursive key always fuel arr left right n
            = Some (out, n') ∧
    length out = length arr ∧
    take left out = take left arr ∧ drop (S right) out = drop (S right) arr ∧
    seg left (S right) out ≡ₚ seg left (S right) arr ∧
    sorted_by key (seg left (S right) out) ∧
    stable_by key (seg left (S right) arr) (seg left (S right) out).
Proof.
  intros Hlr Hr Hfuel.
  destruct (Mergesort.mergesort_recursive_spec key always fuel arr left right n
              Hlr Hr Hfuel) as (out & n' & Hrun & (Hlen & Ht & Hd & Hp) & Hs).
  destruct (Hs ltac:(done)) as [Hsort Hst].
  exists out, n'. by do 6 (split; [done|]).
Qed.

Lemma mergesort_recursive_sorts_slice_witness :
  1 ≤ 3 ∧ 3 < length [9; 4; 2; 4; 0]%Z ∧ 3 - 1 ≤ 2 ∧
  ∃ out n', Mergesort.mergesort_recursive (λ x : Z, x) always 2
              [9; 4; 2; 4; 0]%Z 1 3 0 = Some (out, n') ∧
    length out = length [9; 4; 2; 4; 0]%Z ∧
    take 1 out = take 1 [9; 4; 2; 4; 0]%Z ∧
    drop 4 out = drop 4 [9; 4; 2; 4; 0]%Z ∧
    seg 1 4 out ≡ₚ seg 1 4 [9; 4; 2; 4; 0]%Z ∧
    sorted_by (λ x : Z, x) (seg 1 4 out) ∧
    stable_by (λ x : Z, x) (seg 1 4 [9; 4; 2; 4; 0]%Z) (seg 1 4 out).
Proof.
  split; [lia|]. split; [simpl; lia|]. split; [lia|].
  apply (mergesort_recursive_sorts_slice (λ x : Z, x) [9; 4; 2; 4; 0]%Z 1 3 2 0);
    simpl; lia.
Defined.

(** X24: [heapify(arr, heap_size, i)], for a [heap_size] whose child
    indices [2 * i + 2] fit in an [int], when every node below [i] in the
    heap [arr[0..heap_size-1]] is at least as large as its children,
    returns with every node from [i] on at least as large as its children;
    it has permuted the elements at the indices [i .. heap_size-1] only. *)
Theorem heapify_restores_heap (arr : list Z) (heap_size i : nat) :
  HeapSort.heap_size_ok heap_size →
  i < heap_size → heap_size ≤ length arr →
  (∀ k, i < k < heap_size → HeapSort.node_ok arr heap_size k) →
  ∃ out, HeapSort.heapify heap_size arr heap_size i = Some out ∧
    frame_perm i heap_size arr out ∧
    ∀ k, i ≤ k < heap_size → HeapSort.node_ok out heap_size k.
Proof.
  intros Hsize Hi Hn Hok.
  destruct (HeapSort.heapify_spec heap_size arr heap_size i i)
    as (out & Hrun & Hf & Hheap); [done|lia..| | |].
  - intros k Hk Hne. apply Hok. lia.
  - intros p c Hp [?|?]; lia.
  - by exists out.
Qed.

Lemma heapify_restores_heap_witness :
  HeapSort.heap_size_ok 5 ∧ 0 < 5 ∧ 5 ≤ length [1; 9; 8; 4; 5]%Z ∧
  (∀ k, 0 < k < 5 → HeapSort.node_ok [1; 9; 8; 4; 5]%Z 5 k) ∧
  ∃ out, HeapSort.heapify 5 [1; 9; 8; 4; 5]%Z 5 0 = Some out ∧
    frame_perm 0 5 [1; 9; 8; 4; 5]%Z out ∧
    ∀ k, 0 ≤ k < 5 → HeapSort.node_ok out 5 k.
Proof.
  assert (H : ∀ k, 0 < k < 5 → HeapSort.node_ok [1; 9; 8; 4; 5]%Z 5 k).
  { intros k Hk. unfold HeapSort.node_ok.
    destruct k as [|[|[|[|[|k]]]]]; simpl; lia. }
  split; [by vm_compute|]. split; [lia|]. split; [simpl; lia|]. split; [done|].
  apply (heapify_restores_heap [1; 9; 8; 4; 5]%Z 5 0);
    [by vm_compute|lia|simpl; lia|done].
Defined.

(** X25: [build_max_heap(arr, size)], for [size] within the array and
    such that the child indices [2 * i + 2] fit in an [int], returns with
    [arr[0..size-1]] a max-heap: every node is at least as large as its
    children, hence [arr[0]] is the largest element; it has permuted these
    elements only. *)
Theorem build_max_heap_builds_heap (arr : list Z) (size : nat) :
  HeapSort.heap_size_ok size →
  size ≤ length arr →
  ∃ out, HeapSort.build_max_heap size arr size = Some out ∧
    frame_perm 0 size arr out ∧
    (∀ k, k < size → HeapSort.node_ok out size k) ∧
    (∀ k, k < size → (out !!! k ≤ out !!! 0%nat)%Z).
Proof.
  intros Hok Hsize.
  destruct (HeapSort.build_max_heap_spec arr size Hok Hsize)
    as (out & Hrun & Hf & Hheap).
  exists out. do 3 (split; [done|]). by apply HeapSort.heap_root_max.
Qed.

Lemma build_max_heap_builds_heap_witness :
  HeapSort.heap_size_ok 5 ∧ 5 ≤ length [3; 1; 4; 1; 5; 0]%Z ∧
  ∃ out, HeapSort.build_max_heap 5 [3; 1; 4; 1; 5; 0]%Z 5 = Some out ∧
    frame_perm 0 5 [3; 1; 4; 1; 5; 0]%Z out ∧
    (∀ k, k < 5 → HeapSort.node_ok out 5 k) ∧
    (∀ k, k < 5 → (out !!! k ≤ out !!! 0%nat)%Z).
Proof.
  split; [by vm_compute|]. split; [simpl; lia|].
  apply (build_max_heap_builds_heap [3; 1; 4; 1; 5; 0]%Z 5);
    [by vm_compute|simpl; lia].
Defined.

(** X26: on a non-empty array, [find_max] (the same function in
    radix_sort.c and in counting_sort.c) returns an element of the array
    that no element exceeds. *)
Theorem find_max_is_maximum (arr : list Z) :
  0 < length arr →
  CountingSort.find_max arr (length arr) ∈ arr ∧
  (∀ x, x ∈ arr → (x ≤ CountingSort.find_max arr (length arr))%Z) ∧
  RadixSort.find_max (λ x : Z, x) arr (length arr)
  = CountingSort.find_max arr (length arr).
Proof.
  intros Hlen.
  destruct (CountingSort.counting_find_max_spec arr Hlen) as [Hle Hin].
  done.
Qed.

Lemma find_max_is_maximum_witness :
  0 < length [3; 7; 7; 2]%Z ∧
  CountingSort.find_max [3; 7; 7; 2]%Z (length [3; 7; 7; 2]%Z) ∈ [3; 7; 7; 2]%Z ∧
  (∀ x, x ∈ [3; 7; 7; 2]%Z →
        (x ≤ CountingSort.find_max [3; 7; 7; 2]%Z (length [3; 7; 7; 2]%Z))%Z) ∧
  RadixSort.find_max (λ x : Z, x) [3; 7; 7; 2]%Z (length [3; 7; 7; 2]%Z)
  = CountingSort.find_max [3; 7; 7; 2]%Z (length [3; 7; 7; 2]%Z).
Proof.
  split; [simpl; lia|]. apply (find_max_is_maximum [3; 7; 7; 2]%Z). simpl; lia.
Defined.

(** X27: [merge_arrays], given three live blocks and their sizes, returns
    a new block that holds the three arrays one after the other and leaves
    every other block as it was; when its allocation fails it returns
    [NULL] and leaves the heap as it was. *)
Theorem merge_arrays_concatenates (ok : nat → bool)
    (h : QuicksortFunctional.heap (A:=Z)) (a1 a2 a3 : nat) (L1 L2 L3 : list Z) :
  QuicksortFunctional.wf h →
  QuicksortFunctional.blocks h !! a1 = Some L1 →
  QuicksortFunctional.blocks h !! a2 = Some L2 →
  QuicksortFunctional.blocks h !! a3 = Some L3 →
  QuicksortFunctional.merge_arrays ok (Some a1) (length L1) (Some a2) (length L2)
    (Some a3) (length L3) h
  = if ok (QuicksortFunctional.next h)
    then QuicksortFunctional.Done
           (Some (QuicksortFunctional.next h),
            QuicksortFunctional.Heap
              (<[QuicksortFunctional.next h := L1 ++ L2 ++ L3]>
                 (QuicksortFunctional.blocks h))
              (S (QuicksortFunctional.next h)))
    else QuicksortFunctional.Done
           (None,
            QuicksortFunctional.Heap (QuicksortFunctional.blocks h)
              (S (QuicksortFunctional.next h))).
Proof.
  intros Hwf H1 H2 H3. destruct (ok (QuicksortFunctional.next h)) eqn:Hok.
  - by apply (QuicksortFunctional.merge_arrays_run (λ x : Z, x)).
  - cbv [QuicksortFunctional.merge_arrays mbind QuicksortFunctional.M_bind
         QuicksortFunctional.malloc].
    by rewrite Hok.
Qed.

Lemma merge_arrays_concatenates_witness :
  QuicksortFunctional.wf (QuicksortFunctional.Heap {[0 := [4; 2]%Z]} 1) ∧
  QuicksortFunctional.merge_arrays always (Some 0) (length [4; 2]%Z)
    (Some 0) (length [4; 2]%Z) (Some 0) (length [4; 2]%Z)
    (QuicksortFunctional.Heap {[0 := [4; 2]%Z]} 1)
  = QuicksortFunctional.Done
      (Some 1,
       QuicksortFunctional.Heap
         (<[1 := [4; 2]%Z ++ [4; 2]%Z ++ [4; 2]%Z]> {[0 := [4; 2]%Z]}) 2).
Proof.
  split; [apply wf_singleton|].
  exact (merge_arrays_concatenates always
           (QuicksortFunctional.Heap {[0 := [4; 2]%Z]} 1) 0 0 0
           [4; 2]%Z [4; 2]%Z [4; 2]%Z (wf_singleton [4; 2]%Z)
           eq_refl eq_refl eq_refl).
Defined.

(** X28: when the allocations succeed, a call of [quicksort_functional]
    on a live block returns without a fault and has freed every buffer it
    allocated except the one it returns: the heap after the call is the heap
    before it with the result block added, at an address that was not in
    use. *)
Theorem quicksort_functional_frees_temporaries
    (h : QuicksortFunctional.heap (A:=Z)) (p : nat) (l : list Z) :
  QuicksortFunctional.wf h → QuicksortFunctional.blocks h !! p = Some l →
  ∃ q out n',
    QuicksortFunctional.quicksort_functional (λ x : Z, x) always (length l)
      (Some p) (length l) h
    = QuicksortFunctional.Done
        (Some q, QuicksortFunctional.Heap
                   (<[q := out]> (QuicksortFunctional.blocks h)) n') ∧
    QuicksortFunctional.blocks h !! q = None.
Proof.
  intros Hwf Hp.
  destruct (QuicksortFunctional.quicksort_functional_spec (λ x : Z, x) always
              (length l) p h l) as (q & out & n' & Hrun & Hq & _);
    [done|done|done|lia|].
  exists q, out, n'. split; [done|].
  apply (QuicksortFunctional.wf_fresh (λ x : Z, x)); [done|lia].
Qed.

Lemma quicksort_functional_frees_temporaries_witness :
  QuicksortFunctional.wf (QuicksortFunctional.Heap {[0 := [3; 1; 2; 1]%Z]} 1) ∧
  QuicksortFunctional.blocks (QuicksortFunctional.Heap {[0 := [3; 1; 2; 1]%Z]} 1)
    !! 0 = Some [3; 1; 2; 1]%Z ∧
  ∃ q out n',
    QuicksortFunctional.quicksort_functional (λ x : Z, x) always
      (length [3; 1; 2; 1]%Z) (Some 0) (length [3; 1; 2; 1]%Z)
      (QuicksortFunctional.Heap {[0 := [3; 1; 2; 1]%Z]} 1)
    = QuicksortFunctional.Done
        (Some q, QuicksortFunctional.Heap (<[q := out]> {[0 := [3; 1; 2; 1]%Z]}) n') ∧
    QuicksortFunctional.blocks (QuicksortFunctional.Heap {[0 := [3; 1; 2; 1]%Z]} 1)
      !! q = None.
Proof.
  split; [apply wf_singleton|]. split; [done|].
  exact (quicksort_functional_frees_temporaries
           (QuicksortFunctional.Heap {[0 := [3; 1; 2; 1]%Z]} 1) 0 [3; 1; 2; 1]%Z
           (wf_singleton [3; 1; 2; 1]%Z) eq_refl).
Defined.

(** Two non-decreasing arrangements of the same elements are the same
    list. *)
Lemma nondecreasing_unique (l1 l2 : list Z) :
  nondecreasing l1 → nondecreasing l2 → l1 ≡ₚ l2 → l1 = l2.
Proof.
  intros H1 H2 Hp.
  apply (StronglySorted_unique_strong Z.le); [intros; lia| | |done].
  - apply Sorted_StronglySorted; [intros x y z; lia|]. by apply nondecreasing_Sorted.
  - apply Sorted_StronglySorted; [intros x y z; lia|]. by apply nondecreasing_Sorted.
Qed.

(** What the sorts of the suite return for [arr], the allocations
    succeeding: [heap_sort] for the sizes whose child indices fit in an
    [int], [radix_sort] for values of at most nine digits, [counting_sort]
    for non-negative values below [INT_MAX]. *)
Definition sorts_return (arr out : list Z) : Prop :=
  Quicksort.quicksort_inplace arr (length arr) = Some out ∧
  ThreeWay.quicksort_three_way arr (length arr) = Some out ∧
  (∃ n, Mergesort.mergesort (λ x : Z, x) always arr (length arr) 0
        = Some (out, n)) ∧
  (HeapSort.heap_size_ok (length arr) →
   HeapSort.heap_sort arr (length arr) = Some out) ∧
  SelectionSort.selection_sort arr (length arr) = out ∧
  (∀ h p, QuicksortFunctional.wf h → QuicksortFunctional.blocks h !! p = Some arr →
     ∃ q h',
       QuicksortFunctional.quicksort_functional (λ x : Z, x) always (length arr)
         (Some p) (length arr) h = QuicksortFunctional.Done (Some q, h') ∧
       QuicksortFunctional.blocks h' !! q = Some out) ∧
  (Forall nine_digits arr →
   ∃ n, RadixSort.radix_sort (λ x : Z, x) always 9 arr (length arr) 0
        = Some (out, n)) ∧
  (Forall (λ x, 0 ≤ x < INT_MAX)%Z arr →
   ∃ n, CountingSort.counting_sort always arr (length arr) 0 = (out, n)).

Lemma sorts_return_sorted (arr out : list Z) :
  nondecreasing out → out ≡ₚ arr → sorts_return arr out.
Proof.
  intros Hs Hp.
  assert (Huniq : ∀ out', out' ≡ₚ arr → nondecreasing out' → out' = out).
  { intros out' Hp' Hs'. apply nondecreasing_unique; [done|done|]. by rewrite Hp, Hp'. }
  unfold sorts_return. split; [|split; [|split; [|split; [|split; [|split; [|split]]]]]].
  - destruct (quicksort_inplace_spec arr) as (out' & Hrun & Hp' & Hs').
    rewrite Hrun. f_equal. apply Huniq; [done|by apply sorted_range_nondecreasing].
  - destruct (quicksort_three_way_spec arr) as (out' & Hrun & Hp' & Hs').
    rewrite Hrun. f_equal. apply Huniq; [done|by apply sorted_range_nondecreasing].
  - destruct (Mergesort.mergesort_spec (λ x : Z, x) always arr 0)
      as (out' & n & Hrun & Hp' & Hs').
    exists n. rewrite Hrun. do 2 f_equal. apply Huniq; [done|].
    apply sorted_by_id_nondecreasing. by apply Hs'.
  - intros Hsize.
    destruct (HeapSort.heap_sort_spec arr Hsize) as (out' & Hrun & Hp' & Hs').
    rewrite Hrun. f_equal. apply Huniq; [done|by apply sorted_range_nondecreasing].
  - destruct (SelectionSort.selection_sort_spec arr (length arr) ltac:(done))
      as [Hf Hs'].
    assert (length (SelectionSort.selection_sort arr (length arr)) = length arr)
      as Hlen by apply Hf.
    apply Huniq.
    + by apply (frame_perm_Permutation 0 (length arr)); [lia|lia|].
    + apply sorted_range_nondecreasing. by rewrite Hlen.
  - intros h p Hwf Hblk.
    destruct (QuicksortFunctional.quicksort_functional_spec (λ x : Z, x) always
                (length arr) p h arr) as (q & out' & n & Hrun & _ & Hs' & _ & Hp');
      [done|done|done|lia|].
    eexists q, _. split; [done|]. simpl. rewrite lookup_insert_eq. f_equal.
    apply Huniq; [done|by apply sorted_by_id_nondecreasing].
  - intros Hrange.
    destruct (RadixSort.radix_sort_spec (λ x : Z, x) always arr 0 Hrange)
      as (out' & n & Hrun & Hp' & Hs').
    exists n. rewrite Hrun by done. do 2 f_equal. apply Huniq; [done|].
    apply sorted_by_id_nondecreasing. by apply Hs'.
  - intros Hrange.
    destruct (CountingSort.counting_sort_spec always arr 0)
      as (out' & n & Hrun & Hp' & Hs').
    { eapply Forall_impl; [done|]. unfold INT_MAX. simpl. lia. }
    exists n. rewrite Hrun. f_equal. apply Huniq; [done|].
    apply sorted_by_id_nondecreasing. apply Hs'; [done|done|].
    eapply Forall_impl; [done|]. simpl. lia.
Qed.

(** X29: the sorts of the suite agree: for every array there is one
    list, non-decreasing and a permutation of the array, that
    [quicksort_inplace], [quicksort_three_way], [mergesort],
    [selection_sort] and [quicksort_functional] all return, and so do
    [heap_sort] when the child indices of the array fit in an [int] (fewer
    than [2^30] elements), [radix_sort] on non-negative values of at most
    nine digits and [counting_sort] on non-negative values below
    [INT_MAX], the allocations succeeding. *)
Theorem sorts_agree (arr : list Z) :
  ∃ out, nondecreasing out ∧ out ≡ₚ arr ∧ sorts_return arr out.
Proof.
  destruct (quicksort_inplace_spec arr) as (out & Hrun & Hp & Hs).
  apply sorted_range_nondecreasing in Hs.
  exists out. split; [done|]. split; [done|]. by apply sorts_return_sorted.
Qed.

(** X30: an array that passes [is_sorted] is returned as it is by every
    sort of the suite, the allocations succeeding: by [heap_sort] when the
    child indices of the array fit in an [int], by [radix_sort] on
    non-negative values of at most nine digits, by [counting_sort] on
    non-negative values below [INT_MAX]. *)
Theorem sorted_input_unchanged (arr : list Z) :
  Utilities.is_sorted arr (length arr) = true → sorts_return arr arr.
Proof.
  intros Hs. apply sorts_return_sorted; [|done].
  apply sorted_range_nondecreasing. by apply Utilities.is_sorted_spec.
Qed.

Lemma sorted_input_unchanged_witness :
  Utilities.is_sorted [1; 2; 2; 5]%Z (length [1; 2; 2; 5]%Z) = true ∧
  HeapSort.heap_size_ok (length [1; 2; 2; 5]%Z) ∧
  Forall nine_digits [1; 2; 2; 5]%Z ∧
  sorts_return [1; 2; 2; 5]%Z [1; 2; 2; 5]%Z ∧
  HeapSort.heap_sort [1; 2; 2; 5]%Z 4 = Some [1; 2; 2; 5]%Z ∧
  ∃ n, RadixSort.radix_sort (λ x : Z, x) always 9 [1; 2; 2; 5]%Z 4 0
       = Some ([1; 2; 2; 5]%Z, n).
Proof.
  assert (H : Utilities.is_sorted [1; 2; 2; 5]%Z (length [1; 2; 2; 5]%Z) = true)
    by by vm_compute.
  assert (Hsize : HeapSort.heap_size_ok (length [1; 2; 2; 5]%Z)) by by vm_compute.
  assert (Hnine : Forall nine_digits [1; 2; 2; 5]%Z).
  { repeat constructor; by vm_compute. }
  pose proof (sorted_input_unchanged [1; 2; 2; 5]%Z H) as Hret.
  split; [done|]. split; [done|]. split; [done|]. split; [done|].
  destruct Hret as (_ & _ & _ & Hh & _ & _ & Hr & _).
  split; [by apply Hh|by apply Hr].
Defined.
